(** * ChildPropertyDeriver: required-property derivation of the optimizer

    A shallow embedding of
    [fe/fe-core/src/main/java/com/starrocks/sql/optimizer/ChildPropertyDeriver.java].

    The Java class is a visitor over physical operators.  It keeps the parent's
    requirement in the field [requirements] and accumulates the alternatives
    in the mutable field [outputInputProps]; helper calls may throw
    ([Preconditions.checkState], [List.get], casts).  The embedding threads the
    accumulator through a state-and-exception monad and passes the
    requirement, the task context and the catalog/session lookups as explicit
    read-only arguments. *)

From Stdlib Require Import ZArith Ascii String.
From stdpp Require Import base decidable option list strings gmap.

Local Open Scope Z_scope.

(** ** Property model *)

(** Modelled from the spec: [HashDistributionDesc.SourceType], declared in
    another file of the repository; the spec lists the three source kinds. *)
Inductive SourceType : Type := LOCAL | SHUFFLE_AGG | SHUFFLE_JOIN.

Global Instance SourceType_eq_dec : EqDecision SourceType.
Proof. solve_decision. Defined.

(** Modelled from the spec: [HashDistributionDesc], the ordered column-id
    list of a hash distribution and its source kind. *)
Record HashDistributionDesc : Type := mkHashDistributionDesc {
  getColumns : list Z;
  getSourceType : SourceType
}.

Global Instance HashDistributionDesc_eq_dec : EqDecision HashDistributionDesc.
Proof. solve_decision. Defined.

(** Modelled from the spec: [DistributionSpec] is the tagged variant
    Any / Gather(limit?) / Replicated / Hash(desc).  [DistributionProperty]
    only wraps a spec, so the two are identified. *)
Inductive DistributionSpec : Type :=
| AnyDistributionSpec
| GatherDistributionSpec (limit : option Z)
| ReplicatedDistributionSpec
| HashDistributionSpec (desc : HashDistributionDesc).

Global Instance DistributionSpec_eq_dec : EqDecision DistributionSpec.
Proof. solve_decision. Defined.

Definition DistributionProperty : Type := DistributionSpec.

Definition createGatherDistributionSpec : DistributionSpec :=
  GatherDistributionSpec None.
Definition createGatherDistributionSpecLimit (limit : Z) : DistributionSpec :=
  GatherDistributionSpec (Some limit).
Definition createReplicatedDistributionSpec : DistributionSpec :=
  ReplicatedDistributionSpec.
Definition createHashDistributionSpec (desc : HashDistributionDesc) : DistributionSpec :=
  HashDistributionSpec desc.

Definition isAny (d : DistributionProperty) : bool :=
  match d with AnyDistributionSpec => true | _ => false end.
Definition isGather (d : DistributionProperty) : bool :=
  match d with GatherDistributionSpec _ => true | _ => false end.
Definition isReplicated (d : DistributionProperty) : bool :=
  match d with ReplicatedDistributionSpec => true | _ => false end.
Definition isShuffle (d : DistributionProperty) : bool :=
  match d with HashDistributionSpec _ => true | _ => false end.
Definition isLocal (d : DistributionProperty) : bool :=
  match d with
  | HashDistributionSpec desc => bool_decide (getSourceType desc = LOCAL)
  | _ => false
  end.

(** [getShuffleColumns] of a hash distribution spec. *)
Definition getShuffleColumns (desc : HashDistributionDesc) : list Z := getColumns desc.

(** Modelled from the spec: [Ordering], one sort key (column, ascending?,
    nulls-first?); an [OrderSpec] and a [SortProperty] are a sequence of them,
    empty for unordered. *)
Record Ordering : Type := mkOrdering {
  getColumnRef : Z;
  isAscending : bool;
  isNullsFirst : bool
}.

Global Instance Ordering_eq_dec : EqDecision Ordering.
Proof. solve_decision. Defined.

Definition OrderSpec : Type := list Ordering.
Definition SortProperty : Type := OrderSpec.
Definition SortProperty_EMPTY : SortProperty := [].

(** Modelled from the spec: [PhysicalPropertySet], the pair of a distribution
    and a sort property; [EMPTY] is Any with no sort, and the constructors
    that take one component leave the other empty. *)
Record PhysicalPropertySet : Type := mkPhysicalPropertySet {
  getDistributionProperty : DistributionProperty;
  getSortProperty : SortProperty
}.

Global Instance PhysicalPropertySet_eq_dec : EqDecision PhysicalPropertySet.
Proof. solve_decision. Defined.

(** The three shorter constructors of [PhysicalPropertySet]. *)
Definition PhysicalPropertySet_EMPTY : PhysicalPropertySet :=
  mkPhysicalPropertySet AnyDistributionSpec SortProperty_EMPTY.
Definition PhysicalPropertySet_ofDistribution (d : DistributionProperty) : PhysicalPropertySet :=
  mkPhysicalPropertySet d SortProperty_EMPTY.
Definition PhysicalPropertySet_ofSort (s : SortProperty) : PhysicalPropertySet :=
  mkPhysicalPropertySet AnyDistributionSpec s.

(** An alternative: the output property and the children's required
    properties ([Pair<PhysicalPropertySet, List<PhysicalPropertySet>>]). *)
Definition Alternative : Type := (PhysicalPropertySet * list PhysicalPropertySet)%type.

Definition outputProperty (a : Alternative) : PhysicalPropertySet := a.1.
Definition childRequiredProperties (a : Alternative) : list PhysicalPropertySet := a.2.

(** ** Columns and Java list helpers *)

(** Modelled from the spec: [ColumnRefSet], a set of column ids with a
    containment test. *)
Abbreviation ColumnRefSet := (gset Z).

Definition contains (s r : ColumnRefSet) : bool := bool_decide (r ⊆ s).

(** [requiredLocalColumns::union] over every column of the descriptor. *)
Definition unionAll (cols : list Z) : ColumnRefSet :=
  foldl (fun acc c => acc ∪ {[c]}) ∅ cols.

(** [List.containsAll]: every element of [sub] occurs in [l]. *)
Definition containsAll (l sub : list Z) : bool := bool_decide (sub ⊆ l).

(** [List.indexOf]: first position of [x], or -1. *)
Fixpoint indexOf (l : list Z) (x : Z) : Z :=
  match l with
  | [] => -1
  | y :: l' =>
      if bool_decide (y = x) then 0
      else let i := indexOf l' x in if bool_decide (i = -1) then -1 else i + 1
  end.

(** ** Exceptions and the visitor monad *)

Inductive Exception : Type :=
| IllegalStateException
| IndexOutOfBoundsException
| ClassCastException.

Inductive Result (A : Type) : Type :=
| Ok (a : A)
| Throw (e : Exception).
Arguments Ok {A} a.
Arguments Throw {A} e.

Global Instance Result_ret : MRet Result := fun _ a => Ok a.
Global Instance Result_bind : MBind Result := fun _ _ f m =>
  match m with Ok a => f a | Throw e => Throw e end.
Global Instance Result_fmap : FMap Result := fun _ _ f m =>
  match m with Ok a => Ok (f a) | Throw e => Throw e end.

(** [List.get(int)]: out of range throws. *)
Definition listGet {A : Type} (l : list A) (i : Z) : Result A :=
  if bool_decide (i < 0) then Throw IndexOutOfBoundsException
  else match l !! Z.to_nat i with
       | Some a => Ok a
       | None => Throw IndexOutOfBoundsException
       end.

(** [Preconditions.checkState]. *)
Definition checkState (b : bool) : Result unit :=
  if b then Ok tt else Throw IllegalStateException.

(** A loop whose body adds at most one element to a result list and may
    throw. *)
Fixpoint forEachCollect {A B : Type} (body : A -> Result (option B)) (l : list A)
  : Result (list B) :=
  match l with
  | [] => Ok []
  | a :: l' =>
      match body a with
      | Throw e => Throw e
      | Ok o =>
          match forEachCollect body l' with
          | Throw e => Throw e
          | Ok rest => Ok (match o with Some b => b :: rest | None => rest end)
          end
      end
  end.

(** A visitor method: reads and updates [outputInputProps], may throw. *)
Definition Deriver (A : Type) : Type :=
  list Alternative -> Result (A * list Alternative).

Global Instance Deriver_ret : MRet Deriver := fun _ a props => Ok (a, props).
Global Instance Deriver_bind : MBind Deriver := fun _ _ f m props =>
  match m props with
  | Ok (a, props') => f a props'
  | Throw e => Throw e
  end.

Definition lift {A : Type} (r : Result A) : Deriver A := fun props =>
  match r with Ok a => Ok (a, props) | Throw e => Throw e end.

(** [outputInputProps.add(alt)], [outputInputProps.clear()], reading the
    field and assigning it. *)
Definition add (alt : Alternative) : Deriver unit := fun props => Ok (tt, props ++ [alt]).
Definition clear : Deriver unit := fun _ => Ok (tt, []).
Definition getProps : Deriver (list Alternative) := fun props => Ok (props, props).
Definition setProps (props : list Alternative) : Deriver unit := fun _ => Ok (tt, props).

(** ** Operators and the plan view *)

(** Modelled from the spec: the join-type enumeration ([JoinOperator]),
    declared in another file of the repository.  The predicates are the ones
    the deriver calls; the spec names cross joins, the null-aware left-anti
    join, inner joins, right joins and full-outer joins. *)
Module JoinOperator.
Inductive t : Type :=
| INNER_JOIN | LEFT_OUTER_JOIN | LEFT_SEMI_JOIN | LEFT_ANTI_JOIN
| RIGHT_SEMI_JOIN | RIGHT_ANTI_JOIN | RIGHT_OUTER_JOIN | FULL_OUTER_JOIN
| CROSS_JOIN | NULL_AWARE_LEFT_ANTI_JOIN.

#[global] Instance eq_dec : EqDecision t.
Proof. solve_decision. Defined.

Definition isCrossJoin (j : t) : bool := bool_decide (j = CROSS_JOIN).
Definition isInnerJoin (j : t) : bool := bool_decide (j = INNER_JOIN).
Definition isFullOuterJoin (j : t) : bool := bool_decide (j = FULL_OUTER_JOIN).
Definition isRightJoin (j : t) : bool :=
  bool_decide (j = RIGHT_OUTER_JOIN) || bool_decide (j = RIGHT_ANTI_JOIN)
  || bool_decide (j = RIGHT_SEMI_JOIN).
End JoinOperator.

(** Modelled from the spec: the aggregate stage type ([AggType]), declared
    in another file of the repository: the global stage, the local (partial)
    stage and the two distinct stages, which are neither. *)
Module AggType.
Inductive t : Type := LOCAL | GLOBAL | DISTINCT_GLOBAL | DISTINCT_LOCAL.

#[global] Instance eq_dec : EqDecision t.
Proof. solve_decision. Defined.

Definition isLocal (a : t) : bool := bool_decide (a = LOCAL).
Definition isGlobal (a : t) : bool := bool_decide (a = GLOBAL).
End AggType.

(** Modelled from the spec: the sort phase of a top-N (partial or final). *)
Module SortPhase.
Inductive t : Type := PARTIAL | FINAL.

#[global] Instance eq_dec : EqDecision t.
Proof. solve_decision. Defined.

Definition isFinal (p : t) : bool := bool_decide (p = FINAL).
End SortPhase.

(** Modelled from the spec: the comparison kinds of a binary predicate. *)
Inductive BinaryType : Type := EQ | NE | LE | GE | LT | GT.

(** Modelled from the spec: a fragment of the scalar-operator language,
    enough for join predicates (conjunctions of comparisons between column
    references or expressions over them) and for window partition
    expressions.  The classes are declared in other files of the
    repository. *)
Inductive ScalarOperator : Type :=
| ColumnRefOperator (id : Z)
| ConstantOperator (value : Z)
| CastOperator (child : ScalarOperator)
| BinaryPredicateOperator (binaryType : BinaryType) (lhs rhs : ScalarOperator)
| CompoundAnd (lhs rhs : ScalarOperator)
| CompoundOr (lhs rhs : ScalarOperator).

(** The helpers of [JoinPredicateUtils] and [Utils] the deriver calls.  Their
    code lies in other files of the repository, so the deriver is
    parameterised by them.  [getJoinOnPredicatesColumns] returns the two
    lists it fills. *)
Class JoinPredicateUtils : Type := {
  extractConjuncts : option ScalarOperator -> list ScalarOperator;
  getEqConj : ColumnRefSet -> ColumnRefSet -> list ScalarOperator -> list ScalarOperator;
  getJoinOnPredicatesColumns :
    list ScalarOperator -> ColumnRefSet -> ColumnRefSet -> list Z * list Z;
  isColumnToColumnBinaryPredicate : ScalarOperator -> bool
}.

(** [String.equalsIgnoreCase] on ASCII strings; a null hint equals nothing. *)
Definition toUpperCase (c : ascii) : ascii :=
  let n := nat_of_ascii c in
  if bool_decide (97 <= n <= 122)%nat then ascii_of_nat (n - 32) else c.

Fixpoint upper (s : string) : string :=
  match s with
  | EmptyString => EmptyString
  | String c s' => String (toUpperCase c) (upper s')
  end.

Definition equalsIgnoreCase (literal : string) (hint : option string) : bool :=
  match hint with
  | None => false
  | Some h => bool_decide (upper literal = upper h)
  end.

(** The operator nodes, by the accessors the deriver reads of them. *)
Record PhysicalHashJoinOperator : Type := mkPhysicalHashJoinOperator {
  getJoinType : JoinOperator.t;
  getJoinHint : option string;
  getJoinPredicate : option ScalarOperator
}.

Record PhysicalHashAggregateOperator : Type := mkPhysicalHashAggregateOperator {
  getType : AggType.t;
  isSplit : bool;
  getPartitionByColumns : list Z
}.

(** Modelled from the spec: what the deriver reads of an OLAP scan, physical
    or logical, namely the table id, the output columns, the intrinsic
    bucket distribution and the selected partitions. *)
Record OlapScanOperator : Type := mkOlapScanOperator {
  getTableId : Z;
  getOutputColumns : list Z;
  getDistributionSpec : HashDistributionDesc;
  getSelectedPartitionId : list Z
}.

Record PhysicalTopNOperator : Type := mkPhysicalTopNOperator {
  getSortPhase : SortPhase.t;
  topNIsSplit : bool;
  getOrderSpec : OrderSpec
}.

Record PhysicalWindowOperator : Type := mkPhysicalWindowOperator {
  getPartitionExpressions : list ScalarOperator;
  getOrderByElements : list Ordering
}.

(** The operator kinds the visitor overrides; [OtherOperator] stands for
    every kind that falls through to [visitOperator]. *)
Inductive Operator : Type :=
| PhysicalHashJoin (node : PhysicalHashJoinOperator)
| PhysicalProject
| PhysicalHashAggregate (node : PhysicalHashAggregateOperator)
| PhysicalOlapScan (node : OlapScanOperator)
| PhysicalTopN (node : PhysicalTopNOperator)
| PhysicalHiveScan
| PhysicalSchemaScan
| PhysicalMysqlScan
| PhysicalEsScan
| PhysicalAssertOneRow
| PhysicalAnalytic (node : PhysicalWindowOperator)
| PhysicalUnion
| PhysicalExcept
| PhysicalIntersect
| PhysicalValues
| PhysicalRepeat
| PhysicalFilter
| PhysicalTableFunction
| OtherOperator.

(** Modelled from the spec: a child as the plan view shows it, the row-limit
    facts of its logical operator and its output columns. *)
Record LogicalOperator : Type := mkLogicalOperator {
  hasLimit : bool;
  getLimit : Z
}.

Record ChildGroup : Type := mkChildGroup {
  childOperator : LogicalOperator;
  outputColumns : ColumnRefSet
}.

(** Modelled from the spec: the plan view of the operator being derived, its
    children and whether the subtree executes on a single instance. *)
Record ExpressionContext : Type := mkExpressionContext {
  children : list ChildGroup;
  isExecuteInOneInstance : bool
}.

Definition arity (context : ExpressionContext) : nat := length (children context).

Definition getChildOperator (context : ExpressionContext) (i : Z) : Result LogicalOperator :=
  childOperator <$> listGet (children context) i.

Definition getChildOutputColumns (context : ExpressionContext) (i : Z) : Result ColumnRefSet :=
  outputColumns <$> listGet (children context) i.

(** Modelled from the spec: the ambient lookups, that is the scan operators
    of the task context, the colocate index of the catalog, the global
    configuration and the session variables. *)
Record Environment : Type := mkEnvironment {
  getAllScanOperators : list OlapScanOperator;
  disable_colocate_join : bool;
  isDisableColocateJoin : bool;
  getNewPlannerAggStage : Z;
  isColocateTable : Z -> bool;
  isSameGroup : Z -> Z -> bool;
  getGroup : Z -> Z;
  isGroupUnstable : Z -> bool
}.

(** ** The deriver *)

Section Visitor.
Context `{JoinPredicateUtils}.
Variable requirements : PhysicalPropertySet.
Variable env : Environment.

Definition distributeRequirements : PhysicalPropertySet :=
  PhysicalPropertySet_ofDistribution (getDistributionProperty requirements).

Definition visitOperator : Deriver unit := mret tt.

Definition createLimitGatherProperty (limit : Z) : PhysicalPropertySet :=
  mkPhysicalPropertySet (createGatherDistributionSpecLimit limit) SortProperty_EMPTY.

Definition createPropertySetByDistribution (distributionSpec : DistributionSpec)
  : PhysicalPropertySet :=
  PhysicalPropertySet_ofDistribution distributionSpec.

Definition createLocalByByHashColumns (hashColumns : list Z) : HashDistributionDesc :=
  mkHashDistributionDesc hashColumns LOCAL.

(** The local requirement, when the required distribution is a hash
    distribution of source kind LOCAL. *)
Definition getRequiredLocalDesc : option HashDistributionDesc :=
  match getDistributionProperty requirements with
  | HashDistributionSpec requireDistributionDesc =>
      if bool_decide (getSourceType requireDistributionDesc = LOCAL)
      then Some requireDistributionDesc else None
  | _ => None
  end.

(** All shuffle columns must come from one table: the first scan whose
    output columns contain them all.  A column reference is identified
    with its id. *)
Definition findLogicalOlapScanOperator (distributionSpec : HashDistributionDesc)
  : option OlapScanOperator :=
  find (fun scanOperator =>
          containsAll (getOutputColumns scanOperator) (getShuffleColumns distributionSpec))
       (getAllScanOperators env).

Definition tryColocate (leftShuffleDistribution rightShuffleDistribution : HashDistributionDesc)
  : Deriver unit :=
  if disable_colocate_join env || isDisableColocateJoin env then mret tt
  else
    match findLogicalOlapScanOperator leftShuffleDistribution with
    | None => mret tt
    | Some left_ =>
    match findLogicalOlapScanOperator rightShuffleDistribution with
    | None => mret tt
    | Some right_ =>
        if bool_decide (getTableId left_ = getTableId right_)
           && negb (isSameGroup env (getTableId left_) (getTableId right_))
        then
          (* join self *)
          if negb (bool_decide (getSelectedPartitionId left_ = getSelectedPartitionId right_))
             || bool_decide (1 < length (getSelectedPartitionId left_))%nat
          then mret tt
          else
            let rightLocalProperty := createPropertySetByDistribution
              (createHashDistributionSpec
                 (createLocalByByHashColumns (getShuffleColumns rightShuffleDistribution))) in
            let leftLocalProperty := createPropertySetByDistribution
              (createHashDistributionSpec
                 (createLocalByByHashColumns (getShuffleColumns leftShuffleDistribution))) in
            add (PhysicalPropertySet_EMPTY, [leftLocalProperty; rightLocalProperty])
        else
          (* colocate group *)
          if negb (isSameGroup env (getTableId left_) (getTableId right_)) then mret tt
          else
            let groupId := getGroup env (getTableId left_) in
            if isGroupUnstable env groupId then mret tt
            else
              let leftScanDistribution := getDistributionSpec left_ in
              let rightScanDistribution := getDistributionSpec right_ in
              lift (checkState
                      (bool_decide (length (getShuffleColumns leftScanDistribution)
                                    = length (getShuffleColumns rightScanDistribution))));;
              if negb (containsAll (getShuffleColumns leftShuffleDistribution)
                                   (getShuffleColumns leftScanDistribution))
              then mret tt
              else if negb (containsAll (getShuffleColumns rightShuffleDistribution)
                                        (getShuffleColumns rightScanDistribution))
              then mret tt
              else
                (* the two scan column lists have the same size here, so
                   the indexed loop visits exactly their zip *)
                if negb (forallb
                           (fun p : Z * Z =>
                              bool_decide
                                (indexOf (getShuffleColumns leftShuffleDistribution) p.1
                                 = indexOf (getShuffleColumns rightShuffleDistribution) p.2))
                           (zip (getShuffleColumns leftScanDistribution)
                                (getShuffleColumns rightScanDistribution)))
                then mret tt
                else
                  let rightLocalProperty := createPropertySetByDistribution
                    (createHashDistributionSpec
                       (createLocalByByHashColumns (getShuffleColumns rightScanDistribution))) in
                  let leftLocalProperty := createPropertySetByDistribution
                    (createHashDistributionSpec
                       (createLocalByByHashColumns (getShuffleColumns leftScanDistribution))) in
                  add (PhysicalPropertySet_EMPTY, [leftLocalProperty; rightLocalProperty])
    end
    end.

Definition tryBucketShuffle (node : PhysicalHashJoinOperator)
    (leftShuffleDistribution rightShuffleDistribution : HashDistributionDesc)
  : Deriver unit :=
  let nodeJoinType := getJoinType node in
  if JoinOperator.isCrossJoin nodeJoinType then mret tt
  else
    match findLogicalOlapScanOperator leftShuffleDistribution with
    | None => mret tt
    | Some left_ =>
        if negb (bool_decide (length (getSelectedPartitionId left_) = 1%nat)) then mret tt
        else
          let leftScanDistribution := getDistributionSpec left_ in
          if negb (containsAll (getShuffleColumns leftShuffleDistribution)
                               (getShuffleColumns leftScanDistribution))
          then mret tt
          else
            rightBucketShuffleColumns ←
              lift (forEachCollect
                      (fun leftScanColumn =>
                         let index :=
                           indexOf (getShuffleColumns leftShuffleDistribution) leftScanColumn in
                         Some <$> listGet (getShuffleColumns rightShuffleDistribution) index)
                      (getShuffleColumns leftScanDistribution));
            let leftLocalColumns := getShuffleColumns leftScanDistribution in
            let rightBucketShuffleProperty := createPropertySetByDistribution
              (createHashDistributionSpec
                 (mkHashDistributionDesc rightBucketShuffleColumns SHUFFLE_JOIN)) in
            let leftLocalProperty := createPropertySetByDistribution
              (createHashDistributionSpec (createLocalByByHashColumns leftLocalColumns)) in
            add (PhysicalPropertySet_EMPTY, [leftLocalProperty; rightBucketShuffleProperty])
    end.

(** The body of the loop over [outputInputProps] when the required local
    columns come from the left child. *)
Definition keepForLeft (requireDistributionDesc : HashDistributionDesc)
    (outputInputProp : Alternative) : Result (option Alternative) :=
  left_ ← listGet outputInputProp.2 0;
  right_ ← listGet outputInputProp.2 1;
  if isAny (getDistributionProperty left_) then
    (* Broadcast *)
    mret (Some (distributeRequirements, [distributeRequirements; right_]))
  else
    match getDistributionProperty left_ with
    | HashDistributionSpec desc =>
        if bool_decide (getSourceType desc = LOCAL)
           && containsAll (getColumns requireDistributionDesc) (getColumns desc)
        then mret (Some (distributeRequirements, outputInputProp.2))
        else mret None
    | _ => mret None
    end.

(** The same body when they come from the right child. *)
Definition keepForRight (requireDistributionDesc : HashDistributionDesc)
    (outputInputProp : Alternative) : Result (option Alternative) :=
  right_ ← listGet outputInputProp.2 1;
  match getDistributionProperty right_ with
  | HashDistributionSpec desc =>
      if bool_decide (getSourceType desc = LOCAL)
         && containsAll (getColumns requireDistributionDesc) (getColumns desc)
      then mret (Some (distributeRequirements, outputInputProp.2))
      else mret None
  | _ => mret None
  end.

Definition visitJoinRequirements (node : PhysicalHashJoinOperator)
    (context : ExpressionContext) : Deriver unit :=
  match getRequiredLocalDesc with
  | None => visitOperator
  | Some requireDistributionDesc =>
      let requiredLocalColumns := unionAll (getColumns requireDistributionDesc) in
      leftChildColumns ← lift (getChildOutputColumns context 0);
      rightChildColumns ← lift (getChildOutputColumns context 1);
      let requiredLocalColumnsFromLeft := contains leftChildColumns requiredLocalColumns in
      let requiredLocalColumnsFromRight := contains rightChildColumns requiredLocalColumns in
      (* Not support local shuffle column appear on both sides at the same time *)
      if bool_decide (requiredLocalColumnsFromLeft = requiredLocalColumnsFromRight) then
        clear;; visitOperator
      else
        outputInputProps ← getProps;
        result ← lift (if requiredLocalColumnsFromLeft
                       then forEachCollect (keepForLeft requireDistributionDesc) outputInputProps
                       else forEachCollect (keepForRight requireDistributionDesc) outputInputProps);
        setProps result;;
        visitOperator
  end.

Definition visitPhysicalHashJoin (node : PhysicalHashJoinOperator)
    (context : ExpressionContext) : Deriver unit :=
  let hint := getJoinHint node in
  (* 1 For broadcast join *)
  let rightBroadcastProperty :=
    PhysicalPropertySet_ofDistribution createReplicatedDistributionSpec in
  leftChild ← lift (getChildOperator context 0);
  rightChild ← lift (getChildOperator context 1);
  (* If child has limit, we need to gather data to one instance *)
  if hasLimit leftChild || hasLimit rightChild then
    (if hasLimit leftChild then
       add (PhysicalPropertySet_EMPTY,
            [createLimitGatherProperty (getLimit leftChild); rightBroadcastProperty])
     else
       add (PhysicalPropertySet_EMPTY, [PhysicalPropertySet_EMPTY; rightBroadcastProperty]));;
    (* If child has limit, only do broadcast join *)
    visitJoinRequirements node context
  else
    add (PhysicalPropertySet_EMPTY, [PhysicalPropertySet_EMPTY; rightBroadcastProperty]);;
    leftChildColumns ← lift (getChildOutputColumns context 0);
    rightChildColumns ← lift (getChildOutputColumns context 1);
    let equalOnPredicate :=
      getEqConj leftChildColumns rightChildColumns
                (extractConjuncts (getJoinPredicate node)) in
    (* Cross join only support broadcast join *)
    if JoinOperator.isCrossJoin (getJoinType node)
       || bool_decide (getJoinType node = JoinOperator.NULL_AWARE_LEFT_ANTI_JOIN)
       || (JoinOperator.isInnerJoin (getJoinType node)
           && bool_decide (equalOnPredicate = []))
       || equalsIgnoreCase "BROADCAST" hint
    then visitJoinRequirements node context
    else
      (if JoinOperator.isRightJoin (getJoinType node)
          || JoinOperator.isFullOuterJoin (getJoinType node)
          || equalsIgnoreCase "SHUFFLE" hint
       then clear else mret tt);;
      (* 2 For shuffle join *)
      let onPredicateColumns :=
        getJoinOnPredicatesColumns equalOnPredicate leftChildColumns rightChildColumns in
      let leftOnPredicateColumns := onPredicateColumns.1 in
      let rightOnPredicateColumns := onPredicateColumns.2 in
      lift (checkState (bool_decide (length leftOnPredicateColumns
                                     = length rightOnPredicateColumns)));;
      let leftDistribution := mkHashDistributionDesc leftOnPredicateColumns SHUFFLE_JOIN in
      let rightDistribution := mkHashDistributionDesc rightOnPredicateColumns SHUFFLE_JOIN in
      let leftInputProperty :=
        createPropertySetByDistribution (createHashDistributionSpec leftDistribution) in
      let rightInputProperty :=
        createPropertySetByDistribution (createHashDistributionSpec rightDistribution) in
      add (PhysicalPropertySet_EMPTY, [leftInputProperty; rightInputProperty]);;
      (* Respect use join hint *)
      if equalsIgnoreCase "SHUFFLE" hint then visitJoinRequirements node context
      else
        (* Colocate join and bucket shuffle join only support column to
           column binary predicate *)
        if existsb (fun p => negb (isColumnToColumnBinaryPredicate p)) equalOnPredicate
        then visitJoinRequirements node context
        else
          (* 3 For colocate join *)
          (if negb (equalsIgnoreCase "BUCKET" hint)
           then tryColocate leftDistribution rightDistribution else mret tt);;
          (* 4 For bucket shuffle join *)
          tryBucketShuffle node leftDistribution rightDistribution;;
          (* 5 resolve requirements *)
          visitJoinRequirements node context.

Definition visitPhysicalProject (context : ExpressionContext) : Deriver unit :=
  (* Pass through the requirements to the child *)
  add (distributeRequirements, [distributeRequirements]);;
  if bool_decide (is_Some getRequiredLocalDesc) then visitOperator
  else
    add (PhysicalPropertySet_EMPTY, [PhysicalPropertySet_EMPTY]);;
    visitOperator.

(** The body of the loop of [visitAggregateRequirements]; the cast of the
    output distribution throws when it is not a hash distribution. *)
Definition keepForAggregate (requireDistributionDesc : HashDistributionDesc)
    (outputInputProp : Alternative) : Result (option Alternative) :=
  input ← listGet outputInputProp.2 0;
  if isAny (getDistributionProperty input) then
    mret (Some (distributeRequirements, [distributeRequirements]))
  else
    match getDistributionProperty input with
    | HashDistributionSpec inputDesc =>
        match getDistributionProperty outputInputProp.1 with
        | HashDistributionSpec outputDesc =>
            if bool_decide (getSourceType outputDesc = LOCAL)
               && bool_decide (getSourceType inputDesc = LOCAL)
               && containsAll (getColumns requireDistributionDesc) (getColumns inputDesc)
            then mret (Some (distributeRequirements, outputInputProp.2))
            else mret None
        | _ => Throw ClassCastException
        end
    | _ => mret None
    end.

Definition visitAggregateRequirements (node : PhysicalHashAggregateOperator)
    (context : ExpressionContext) : Deriver unit :=
  match getRequiredLocalDesc with
  | None => visitOperator
  | Some requireDistributionDesc =>
      outputInputProps ← getProps;
      result ← lift (forEachCollect (keepForAggregate requireDistributionDesc) outputInputProps);
      setProps result;;
      visitOperator
  end.

Definition visitPhysicalHashAggregate (node : PhysicalHashAggregateOperator)
    (context : ExpressionContext) : Deriver unit :=
  (* If scan tablet sum leas than 1, do one phase local aggregate is enough *)
  if bool_decide (getNewPlannerAggStage env = 0)
     && isExecuteInOneInstance context
     && AggType.isGlobal (getType node) && negb (isSplit node)
  then
    add (PhysicalPropertySet_EMPTY, [PhysicalPropertySet_EMPTY]);;
    visitAggregateRequirements node context
  else
    child ← lift (getChildOperator context 0);
    (* If child has limit, we need to gather data to one instance *)
    if hasLimit child && (AggType.isGlobal (getType node) && negb (isSplit node)) then
      add (PhysicalPropertySet_EMPTY, [createLimitGatherProperty (getLimit child)]);;
      visitAggregateRequirements node context
    else if negb (AggType.isLocal (getType node)) then
      let columns := getPartitionByColumns node in
      (* None grouping columns *)
      if bool_decide (columns = []) then
        let distributionProperty := createGatherDistributionSpec in
        add (PhysicalPropertySet_ofDistribution distributionProperty,
             [PhysicalPropertySet_ofDistribution distributionProperty]);;
        visitAggregateRequirements node context
      else
        (* shuffle aggregation *)
        let distributionProperty :=
          createHashDistributionSpec (mkHashDistributionDesc columns SHUFFLE_AGG) in
        add (PhysicalPropertySet_ofDistribution distributionProperty,
             [PhysicalPropertySet_ofDistribution distributionProperty]);;
        (* local aggregation *)
        let localProperty :=
          createHashDistributionSpec (mkHashDistributionDesc columns LOCAL) in
        add (PhysicalPropertySet_ofDistribution localProperty,
             [PhysicalPropertySet_ofDistribution localProperty]);;
        visitAggregateRequirements node context
    else
      add (PhysicalPropertySet_EMPTY, [PhysicalPropertySet_EMPTY]);;
      visitAggregateRequirements node context.

Definition visitPhysicalOlapScan (node : OlapScanOperator) (context : ExpressionContext)
  : Deriver unit :=
  let hashDistributionSpec := getDistributionSpec node in
  (if bool_decide (1 < length (getSelectedPartitionId node))%nat
      && negb (isColocateTable env (getTableId node))
   then add (PhysicalPropertySet_EMPTY, [])
   else add (createPropertySetByDistribution (createHashDistributionSpec hashDistributionSpec),
             []));;
  match getRequiredLocalDesc with
  | None => visitOperator
  | Some requireDistributionDesc =>
      clear;;
      (if containsAll (getColumns requireDistributionDesc)
                      (getShuffleColumns hashDistributionSpec)
       then add (distributeRequirements, []) else mret tt);;
      visitOperator
  end.

Definition visitPhysicalTopN (topN : PhysicalTopNOperator) (context : ExpressionContext)
  : Deriver unit :=
  if bool_decide (is_Some getRequiredLocalDesc) then visitOperator
  else
    let outputProperty :=
      if SortPhase.isFinal (getSortPhase topN) then
        if topNIsSplit topN then
          mkPhysicalPropertySet createGatherDistributionSpec (getOrderSpec topN)
        else PhysicalPropertySet_ofSort (getOrderSpec topN)
      else PhysicalPropertySet_EMPTY in
    child ← lift (getChildOperator context 0);
    (* If child has limit, we need to gather data to one instance *)
    if hasLimit child && (SortPhase.isFinal (getSortPhase topN) && negb (topNIsSplit topN)) then
      let inputProperty := createLimitGatherProperty (getLimit child) in
      add (outputProperty, [inputProperty]);;
      visitOperator
    else
      add (outputProperty, [PhysicalPropertySet_EMPTY]);;
      visitOperator.

(** The four external scans (Hive, schema, MySQL, ES) share one body. *)
Definition visitExternalScan (context : ExpressionContext) : Deriver unit :=
  if bool_decide (is_Some getRequiredLocalDesc) then visitOperator
  else
    add (PhysicalPropertySet_EMPTY, []);;
    visitOperator.

Definition visitPhysicalHiveScan := visitExternalScan.
Definition visitPhysicalSchemaScan := visitExternalScan.
Definition visitPhysicalMysqlScan := visitExternalScan.
Definition visitPhysicalEsScan := visitExternalScan.

Definition visitPhysicalAssertOneRow (context : ExpressionContext) : Deriver unit :=
  if bool_decide (is_Some getRequiredLocalDesc) then visitOperator
  else
    let gather := createGatherDistributionSpec in
    add (PhysicalPropertySet_EMPTY, [PhysicalPropertySet_ofDistribution gather]);;
    visitOperator.

(** The partition expressions are cast to column references; the used
    columns of a column reference are its own id. *)
Definition partitionColumn (e : ScalarOperator) : Result (option Z) :=
  match e with
  | ColumnRefOperator id => Ok (Some id)
  | _ => Throw ClassCastException
  end.

(** The order-by elements whose column no earlier ordering covers. *)
Definition addOrderByElements (orderings : list Ordering) (orderBy : list Ordering)
  : list Ordering :=
  foldl (fun acc o =>
           if forallb (fun ordering => negb (bool_decide (getColumnRef ordering = getColumnRef o)))
                      acc
           then acc ++ [o] else acc)
        orderings orderBy.

Definition visitPhysicalAnalytic (node : PhysicalWindowOperator) (context : ExpressionContext)
  : Deriver unit :=
  partitionColumnRefSet ← lift (forEachCollect partitionColumn (getPartitionExpressions node));
  let orderings :=
    addOrderByElements (map (fun id => mkOrdering id true true) partitionColumnRefSet)
                       (getOrderByElements node) in
  let sortProperty : SortProperty := orderings in
  match getRequiredLocalDesc with
  | Some required =>
      (if negb (bool_decide (partitionColumnRefSet = []))
          && containsAll (getColumns required) partitionColumnRefSet
       then
         (* local *)
         let localProperty :=
           createHashDistributionSpec (mkHashDistributionDesc partitionColumnRefSet LOCAL) in
         add (mkPhysicalPropertySet localProperty sortProperty,
              [mkPhysicalPropertySet localProperty sortProperty])
       else mret tt);;
      visitOperator
  | None =>
      (if bool_decide (partitionColumnRefSet = []) then
         let distributionProperty := createGatherDistributionSpec in
         add (mkPhysicalPropertySet distributionProperty sortProperty,
              [mkPhysicalPropertySet distributionProperty sortProperty])
       else
         let distributionProperty :=
           createHashDistributionSpec
             (mkHashDistributionDesc partitionColumnRefSet SHUFFLE_AGG) in
         add (mkPhysicalPropertySet distributionProperty sortProperty,
              [mkPhysicalPropertySet distributionProperty sortProperty]);;
         (* local *)
         let localProperty :=
           createHashDistributionSpec (mkHashDistributionDesc partitionColumnRefSet LOCAL) in
         add (mkPhysicalPropertySet localProperty sortProperty,
              [mkPhysicalPropertySet localProperty sortProperty]));;
      visitOperator
  end.

(** The loop over [0 .. arity) reads every child in turn. *)
Definition processSetOperationChildProperty (context : ExpressionContext) : Deriver unit :=
  if bool_decide (is_Some getRequiredLocalDesc) then
    (* Set operator can't support local distribute *)
    mret tt
  else
    let childProperty :=
      map (fun g : ChildGroup =>
             let child := childOperator g in
             (* If child has limit, we need to gather data to one instance *)
             if hasLimit child then createLimitGatherProperty (getLimit child)
             else PhysicalPropertySet_EMPTY)
          (children context) in
    (* Use Any to forbidden enforce some property *)
    add (PhysicalPropertySet_EMPTY, childProperty).

Definition visitPhysicalUnion (context : ExpressionContext) : Deriver unit :=
  processSetOperationChildProperty context;; visitOperator.
Definition visitPhysicalExcept (context : ExpressionContext) : Deriver unit :=
  processSetOperationChildProperty context;; visitOperator.
Definition visitPhysicalIntersect (context : ExpressionContext) : Deriver unit :=
  processSetOperationChildProperty context;; visitOperator.

Definition visitPhysicalValues (context : ExpressionContext) : Deriver unit :=
  add (distributeRequirements, []);;
  visitOperator.

(** Repeat, filter and table function share one body. *)
Definition visitPassThrough (context : ExpressionContext) : Deriver unit :=
  (* Pass through the requirements to the child *)
  if bool_decide (is_Some getRequiredLocalDesc) then
    add (distributeRequirements, [distributeRequirements]);;
    visitOperator
  else
    add (PhysicalPropertySet_EMPTY, [PhysicalPropertySet_EMPTY]);;
    visitOperator.

Definition visitPhysicalRepeat := visitPassThrough.
Definition visitPhysicalFilter := visitPassThrough.
Definition visitPhysicalTableFunction := visitPassThrough.

(** [Operator.accept]: the dispatch on the operator kind. *)
Definition accept (op : Operator) (context : ExpressionContext) : Deriver unit :=
  match op with
  | PhysicalHashJoin node => visitPhysicalHashJoin node context
  | PhysicalProject => visitPhysicalProject context
  | PhysicalHashAggregate node => visitPhysicalHashAggregate node context
  | PhysicalOlapScan node => visitPhysicalOlapScan node context
  | PhysicalTopN node => visitPhysicalTopN node context
  | PhysicalHiveScan => visitPhysicalHiveScan context
  | PhysicalSchemaScan => visitPhysicalSchemaScan context
  | PhysicalMysqlScan => visitPhysicalMysqlScan context
  | PhysicalEsScan => visitPhysicalEsScan context
  | PhysicalAssertOneRow => visitPhysicalAssertOneRow context
  | PhysicalAnalytic node => visitPhysicalAnalytic node context
  | PhysicalUnion => visitPhysicalUnion context
  | PhysicalExcept => visitPhysicalExcept context
  | PhysicalIntersect => visitPhysicalIntersect context
  | PhysicalValues => visitPhysicalValues context
  | PhysicalRepeat => visitPhysicalRepeat context
  | PhysicalFilter => visitPhysicalFilter context
  | PhysicalTableFunction => visitPhysicalTableFunction context
  | OtherOperator => visitOperator
  end.

(** The entry point: start from an empty list, dispatch, return the list. *)
Definition getOutputInputProps (op : Operator) (context : ExpressionContext)
  : Result (list Alternative) :=
  snd <$> accept op context [].

End Visitor.

(** ** The predicate helpers, from the spec *)

(** Modelled from the spec: the helpers of [JoinPredicateUtils], whose code
    lies in another file of the repository.  The spec says that the equality
    conjuncts between the left and right output columns are extracted and
    that the shuffle columns are paired by predicate position, one left
    column and one right column per conjunct; a conjunct is column-to-column
    when both its sides are direct column references.  First, the columns an
    expression uses. *)
Fixpoint getUsedColumns (e : ScalarOperator) : list Z :=
  match e with
  | ColumnRefOperator id => [id]
  | ConstantOperator _ => []
  | CastOperator child => getUsedColumns child
  | BinaryPredicateOperator _ lhs rhs => getUsedColumns lhs ++ getUsedColumns rhs
  | CompoundAnd lhs rhs => getUsedColumns lhs ++ getUsedColumns rhs
  | CompoundOr lhs rhs => getUsedColumns lhs ++ getUsedColumns rhs
  end.

(** Modelled from the spec: the conjuncts of a predicate. *)
Fixpoint conjunctsOf (p : ScalarOperator) : list ScalarOperator :=
  match p with
  | CompoundAnd lhs rhs => conjunctsOf lhs ++ conjunctsOf rhs
  | _ => [p]
  end.

(** Modelled from the spec: [Utils.extractConjuncts]; no predicate, no
    conjunct. *)
Definition specExtractConjuncts (p : option ScalarOperator) : list ScalarOperator :=
  match p with
  | None => []
  | Some p => conjunctsOf p
  end.

(** Modelled from the spec: the column pair (left column, right column) of
    an equality conjunct between the two sides, if it is one. *)
Definition pairedColumns (leftColumns rightColumns : ColumnRefSet) (p : ScalarOperator)
  : option (Z * Z) :=
  match p with
  | BinaryPredicateOperator EQ lhs rhs =>
      match getUsedColumns lhs, getUsedColumns rhs with
      | cl :: _, cr :: _ =>
          if contains leftColumns (list_to_set (getUsedColumns lhs))
             && contains rightColumns (list_to_set (getUsedColumns rhs))
          then Some (cl, cr)
          else if contains leftColumns (list_to_set (getUsedColumns rhs))
                  && contains rightColumns (list_to_set (getUsedColumns lhs))
          then Some (cr, cl)
          else None
      | _, _ => None
      end
  | _ => None
  end.

(** Modelled from the spec: [getEqConj], the equality conjuncts between the
    left and the right output columns. *)
Definition specGetEqConj (leftColumns rightColumns : ColumnRefSet)
    (conjunctList : list ScalarOperator) : list ScalarOperator :=
  filter (fun p => is_Some (pairedColumns leftColumns rightColumns p)) conjunctList.

(** Modelled from the spec: [getJoinOnPredicatesColumns], the left and right
    columns paired by predicate position. *)
Definition specGetJoinOnPredicatesColumns (equalOnPredicates : list ScalarOperator)
    (leftColumns rightColumns : ColumnRefSet) : list Z * list Z :=
  let pairs := omap (pairedColumns leftColumns rightColumns) equalOnPredicates in
  (pairs.*1, pairs.*2).

(** Modelled from the spec: [isColumnToColumnBinaryPredicate], a direct
    column-to-column comparison. *)
Definition specIsColumnToColumnBinaryPredicate (p : ScalarOperator) : bool :=
  match p with
  | BinaryPredicateOperator _ (ColumnRefOperator _) (ColumnRefOperator _) => true
  | _ => false
  end.

(** Modelled from the spec: the helpers together. *)
Definition SpecJoinPredicateUtils : JoinPredicateUtils := {|
  extractConjuncts := specExtractConjuncts;
  getEqConj := specGetEqConj;
  getJoinOnPredicatesColumns := specGetJoinOnPredicatesColumns;
  isColumnToColumnBinaryPredicate := specIsColumnToColumnBinaryPredicate
|}.

(** ** Sample plans *)

Module Sample.

(** Scan of table 10 with columns 1,2,3 bucketed on column 1, and scan of
    table 20 with columns 4,5 bucketed on column 4; one partition each. *)
Definition scanA : OlapScanOperator :=
  mkOlapScanOperator 10 [1; 2; 3] (mkHashDistributionDesc [1] LOCAL) [100].
Definition scanB : OlapScanOperator :=
  mkOlapScanOperator 20 [4; 5] (mkHashDistributionDesc [4] LOCAL) [200].

Definition noLimit : LogicalOperator := mkLogicalOperator false (-1).
Definition limit10 : LogicalOperator := mkLogicalOperator true 10.

Definition groupA : ChildGroup := mkChildGroup noLimit {[1; 2; 3]}.
Definition groupB : ChildGroup := mkChildGroup noLimit {[4; 5]}.
Definition groupALimit : ChildGroup := mkChildGroup limit10 {[1; 2; 3]}.

Definition joinContext : ExpressionContext := mkExpressionContext [groupA; groupB] false.
Definition limitJoinContext : ExpressionContext :=
  mkExpressionContext [groupALimit; groupB] false.
Definition unaryContext : ExpressionContext := mkExpressionContext [groupA] false.
Definition leafContext : ExpressionContext := mkExpressionContext [] false.

(** No colocation relationship between the tables. *)
Definition env : Environment :=
  mkEnvironment [scanA; scanB] false false 0
                (fun _ => false) (fun _ _ => false) (fun _ => 0) (fun _ => false).

(** Tables 10 and 20 in the same, stable colocation group. *)
Definition colocateEnv : Environment :=
  mkEnvironment [scanA; scanB] false false 0
                (fun _ => true) (fun _ _ => true) (fun _ => 7) (fun _ => false).

(** A.1 = B.4 *)
Definition eqPredicate : ScalarOperator :=
  BinaryPredicateOperator EQ (ColumnRefOperator 1) (ColumnRefOperator 4).

Definition innerJoin : PhysicalHashJoinOperator :=
  mkPhysicalHashJoinOperator JoinOperator.INNER_JOIN None (Some eqPredicate).
Definition leftOuterJoinNoPredicate : PhysicalHashJoinOperator :=
  mkPhysicalHashJoinOperator JoinOperator.LEFT_OUTER_JOIN None None.

(** No scan operator is known to the task context. *)
Definition noScanEnv : Environment :=
  mkEnvironment [] false false 0
                (fun _ => false) (fun _ _ => false) (fun _ => 0) (fun _ => false).

(** The session forces more than one aggregation stage. *)
Definition twoStageEnv : Environment :=
  mkEnvironment [scanA; scanB] false false 2
                (fun _ => false) (fun _ _ => false) (fun _ => 0) (fun _ => false).

Definition singleInstanceContext : ExpressionContext := mkExpressionContext [groupA] true.
Definition limitUnaryContext : ExpressionContext := mkExpressionContext [groupALimit] false.

Definition scalarGlobalAggregate : PhysicalHashAggregateOperator :=
  mkPhysicalHashAggregateOperator AggType.GLOBAL false [].
Definition groupedGlobalAggregate : PhysicalHashAggregateOperator :=
  mkPhysicalHashAggregateOperator AggType.GLOBAL false [1].

Definition sortedRequirement : PhysicalPropertySet :=
  mkPhysicalPropertySet AnyDistributionSpec [mkOrdering 1 true true].

Definition anyRequirement : PhysicalPropertySet := PhysicalPropertySet_EMPTY.
Definition localRequirement (cols : list Z) : PhysicalPropertySet :=
  PhysicalPropertySet_ofDistribution
    (createHashDistributionSpec (mkHashDistributionDesc cols LOCAL)).

End Sample.

(** ** Properties of alternatives *)

(** The requirement a child at position [i] of an alternative must meet. *)
Definition childRequirement (i : nat) (alt : Alternative) : option PhysicalPropertySet :=
  childRequiredProperties alt !! i.

(** What the filtering keeps, in the deriver's terms: a hash distribution of
    source kind LOCAL all of whose columns occur among the required ones. *)
Definition localWithin (required : HashDistributionDesc) (p : PhysicalPropertySet) : Prop :=
  exists desc, getDistributionProperty p = HashDistributionSpec desc
               /\ getSourceType desc = LOCAL
               /\ getColumns desc ⊆ getColumns required.

(** The same in the spec's words: a local hash distribution whose columns
    are a superset of the required ones. *)
Definition localCovering (required : HashDistributionDesc) (p : PhysicalPropertySet) : Prop :=
  exists desc, getDistributionProperty p = HashDistributionSpec desc
               /\ getSourceType desc = LOCAL
               /\ getColumns required ⊆ getColumns desc.

(** The number of children of each operator kind. *)
Definition operatorArity (op : Operator) (context : ExpressionContext) : nat :=
  match op with
  | PhysicalHashJoin _ => 2
  | PhysicalProject | PhysicalHashAggregate _ | PhysicalTopN _ | PhysicalAssertOneRow
  | PhysicalAnalytic _ | PhysicalRepeat | PhysicalFilter | PhysicalTableFunction => 1
  | PhysicalOlapScan _ | PhysicalHiveScan | PhysicalSchemaScan | PhysicalMysqlScan
  | PhysicalEsScan | PhysicalValues | OtherOperator => 0
  | PhysicalUnion | PhysicalExcept | PhysicalIntersect => arity context
  end.

Definition isAnalytic (op : Operator) : bool :=
  match op with PhysicalAnalytic _ => true | _ => false end.

Definition outputIsLocal (alt : Alternative) : bool :=
  isLocal (getDistributionProperty (outputProperty alt)).

(** Where a local output of an alternative may come from when no local
    requirement is active: aggregate and window offer a single-phase local
    alternative, whose child requirement is that same property, and the OLAP
    scan offers its intrinsic distribution. *)
Definition localOutputOrigin (op : Operator) (alt : Alternative) : Prop :=
  outputIsLocal alt = true ->
  match op with
  | PhysicalHashAggregate _ | PhysicalAnalytic _ =>
      childRequiredProperties alt = [outputProperty alt]
  | PhysicalOlapScan node =>
      alt = (PhysicalPropertySet_ofDistribution
               (HashDistributionSpec (getDistributionSpec node)), [])
  | _ => False
  end.

Definition childSortsEmpty (alt : Alternative) : Prop :=
  Forall (fun p => getSortProperty p = SortProperty_EMPTY) (childRequiredProperties alt).

(** The broadcast alternative of a join without limits. *)
Definition broadcastAlternative : Alternative :=
  (PhysicalPropertySet_EMPTY,
   [PhysicalPropertySet_EMPTY; PhysicalPropertySet_ofDistribution ReplicatedDistributionSpec]).

(** The shuffle alternative on the given paired columns. *)
Definition shuffleAlternative (leftCols rightCols : list Z) : Alternative :=
  (PhysicalPropertySet_EMPTY,
   [PhysicalPropertySet_ofDistribution
      (HashDistributionSpec (mkHashDistributionDesc leftCols SHUFFLE_JOIN));
    PhysicalPropertySet_ofDistribution
      (HashDistributionSpec (mkHashDistributionDesc rightCols SHUFFLE_JOIN))]).

(** The scalar-aggregate alternative: full gather on output and child. *)
Definition gatherAlternative : Alternative :=
  (PhysicalPropertySet_ofDistribution (GatherDistributionSpec None),
   [PhysicalPropertySet_ofDistribution (GatherDistributionSpec None)]).

(** The fully unconstrained alternative of a unary operator. *)
Definition unconstrainedAlternative : Alternative :=
  (PhysicalPropertySet_EMPTY, [PhysicalPropertySet_EMPTY]).

(** The alternative that hands the required distribution to the single
    child and promises it as output. *)
Definition propagateAlternative (requirements : PhysicalPropertySet) : Alternative :=
  (distributeRequirements requirements, [distributeRequirements requirements]).

(** The colocate precondition on the catalog: two scans of one colocation
    group are bucketed on the same number of columns. *)
Definition colocateConsistent (env : Environment) : Prop :=
  forall s1 s2,
    s1 ∈ getAllScanOperators env -> s2 ∈ getAllScanOperators env ->
    isSameGroup env (getTableId s1) (getTableId s2) = true ->
    length (getColumns (getDistributionSpec s1)) = length (getColumns (getDistributionSpec s2)).

(** A helper that breaks the pairing contract: one left column, no right
    column.  It exercises the fail-fast path of the shuffle step. *)
Definition MismatchedJoinPredicateUtils : JoinPredicateUtils := {|
  extractConjuncts := specExtractConjuncts;
  getEqConj := specGetEqConj;
  getJoinOnPredicatesColumns := fun _ _ _ => ([1], []);
  isColumnToColumnBinaryPredicate := specIsColumnToColumnBinaryPredicate
|}.

(** [establishes P m]: if every alternative accumulated so far satisfies
    [P], so does every alternative after [m] has returned. *)
Definition establishes {A : Type} (P : Alternative -> Prop) (m : Deriver A) : Prop :=
  forall props a props', Forall P props -> m props = Ok (a, props') -> Forall P props'.

(** [ensures P m]: whatever was accumulated before, the list [m] returns
    with satisfies [P]. *)
Definition ensures {A : Type} (P : list Alternative -> Prop) (m : Deriver A) : Prop :=
  forall props a props', m props = Ok (a, props') -> P props'.

(** What the filtering leaves on the qualifying side [i] of a join, in the
    deriver's terms: the exact requirement (put in place of Any), or a local
    hash distribution within the required columns. *)
Definition keptOnSide (requirements : PhysicalPropertySet) (required : HashDistributionDesc)
    (i : nat) (alt : Alternative) : Prop :=
  exists p, childRequirement i alt = Some p
            /\ (p = distributeRequirements requirements \/ localWithin required p).

(** The same in the spec's words: the exact requirement, or a local hash
    distribution whose columns are a superset of the required ones. *)
Definition coversOnSide (requirements : PhysicalPropertySet) (required : HashDistributionDesc)
    (i : nat) (alt : Alternative) : Prop :=
  exists p, childRequirement i alt = Some p
            /\ (p = distributeRequirements requirements \/ localCovering required p).

(** The outcome of the filtering by where the required columns come from. *)
Definition filteredFor (requirements : PhysicalPropertySet) (required : HashDistributionDesc)
    (leftColumns rightColumns : ColumnRefSet) (l : list Alternative) : Prop :=
  match contains leftColumns (unionAll (getColumns required)),
        contains rightColumns (unionAll (getColumns required)) with
  | true, false => Forall (keptOnSide requirements required 0) l
  | false, true => Forall (keptOnSide requirements required 1) l
  | _, _ => l = []
  end.

(** [appends m]: when [m] returns, the list is the earlier one with
    further alternatives at its end. *)
Definition appends {A : Type} (m : Deriver A) : Prop :=
  forall props a props', m props = Ok (a, props') -> exists more, props' = props ++ more.

(** [returns m]: [m] does not throw, whatever was accumulated before. *)
Definition returns {A : Type} (m : Deriver A) : Prop :=
  forall props, exists a props', m props = Ok (a, props').

Definition hasArity (n : nat) (alt : Alternative) : Prop :=
  length (childRequiredProperties alt) = n.

(** The equality conjuncts of a join between its two children, and the
    paired shuffle columns taken from them, as the join rule computes them. *)
Definition equalOnPredicateOf `{JoinPredicateUtils} (node : PhysicalHashJoinOperator)
    (leftGroup rightGroup : ChildGroup) : list ScalarOperator :=
  getEqConj (outputColumns leftGroup) (outputColumns rightGroup)
            (extractConjuncts (getJoinPredicate node)).

Definition onPredicateColumnsOf `{JoinPredicateUtils} (node : PhysicalHashJoinOperator)
    (leftGroup rightGroup : ChildGroup) : list Z * list Z :=
  getJoinOnPredicatesColumns (equalOnPredicateOf node leftGroup rightGroup)
                             (outputColumns leftGroup) (outputColumns rightGroup).

(** [returnsOn I m]: [m] does not throw when every alternative accumulated
    before satisfies [I]. *)
Definition returnsOn {A : Type} (I : Alternative -> Prop) (m : Deriver A) : Prop :=
  forall props, Forall I props -> exists a props', m props = Ok (a, props').

(** The test that cuts the join rule short after the broadcast alternative. *)
Definition broadcastOnly `{JoinPredicateUtils} (node : PhysicalHashJoinOperator)
    (leftGroup rightGroup : ChildGroup) : bool :=
  JoinOperator.isCrossJoin (getJoinType node)
  || bool_decide (getJoinType node = JoinOperator.NULL_AWARE_LEFT_ANTI_JOIN)
  || (JoinOperator.isInnerJoin (getJoinType node)
      && bool_decide (equalOnPredicateOf node leftGroup rightGroup = []))
  || equalsIgnoreCase "BROADCAST" (getJoinHint node).


(** exactly one alternative with a gather without limit on the output and on
    the single child; *)
Definition oneAlternativeGatherBothSides (l : list Alternative) : Prop :=
  exists p c, l = [(p, [c])]
              /\ getDistributionProperty p = GatherDistributionSpec None
              /\ getDistributionProperty c = GatherDistributionSpec None.

(** no alternative with a local output distribution. *)
Definition noLocalOutput (l : list Alternative) : Prop :=
  Forall (fun alt => outputIsLocal alt = false) l.

(** The invariant of the data model on hash distributions (spec, section 3):
    the column list of a shuffle distribution, of a join or of an aggregate,
    is never empty.  [HashDistributionDesc] lies outside the deriver, whose
    code alone does not say what becomes of an empty list; a list of
    alternatives respects the data model when every property in it keeps
    the invariant. *)
Definition shuffleColumnsNonEmpty (p : PhysicalPropertySet) : bool :=
  match getDistributionProperty p with
  | HashDistributionSpec desc =>
      bool_decide (getSourceType desc = LOCAL) || negb (bool_decide (getColumns desc = []))
  | _ => true
  end.

Definition respectsDataModel (l : list Alternative) : bool :=
  forallb (fun alt => shuffleColumnsNonEmpty (outputProperty alt)
                      && forallb shuffleColumnsNonEmpty (childRequiredProperties alt)) l.

(** ** Further notions of the deriver *)

(** The environment with the global colocate switch turned off; everything
    else is as before. *)
Definition withColocateDisabled (env : Environment) : Environment :=
  mkEnvironment (getAllScanOperators env) true (isDisableColocateJoin env)
                (getNewPlannerAggStage env) (isColocateTable env) (isSameGroup env)
                (getGroup env) (isGroupUnstable env).

(** What a set operation asks of one child. *)
Definition setOperationChildProperty (g : ChildGroup) : PhysicalPropertySet :=
  if hasLimit (childOperator g) then createLimitGatherProperty (getLimit (childOperator g))
  else PhysicalPropertySet_EMPTY.

(** The sort order a window asks for on the given partition columns. *)
Definition windowSort (node : PhysicalWindowOperator) (partitionColumns : list Z)
  : SortProperty :=
  addOrderByElements (map (fun id => mkOrdering id true true) partitionColumns)
                     (getOrderByElements node).

(** The two window alternatives on partition columns: two-phase shuffle and
    single-phase local, each with the same property on output and child. *)
Definition windowAlternative (sourceType : SourceType) (partitionColumns : list Z)
    (sort : SortProperty) : Alternative :=
  (mkPhysicalPropertySet
     (HashDistributionSpec (mkHashDistributionDesc partitionColumns sourceType)) sort,
   [mkPhysicalPropertySet
      (HashDistributionSpec (mkHashDistributionDesc partitionColumns sourceType)) sort]).

(** The two alternatives of a grouped aggregate. *)
Definition aggregateAlternative (sourceType : SourceType) (columns : list Z) : Alternative :=
  (PhysicalPropertySet_ofDistribution
     (HashDistributionSpec (mkHashDistributionDesc columns sourceType)),
   [PhysicalPropertySet_ofDistribution
      (HashDistributionSpec (mkHashDistributionDesc columns sourceType))]).

(** The operator kinds that offer nothing under a local requirement. *)
Definition offersNoLocalAlternative (op : Operator) : bool :=
  match op with
  | PhysicalTopN _ | PhysicalHiveScan | PhysicalSchemaScan | PhysicalMysqlScan
  | PhysicalEsScan | PhysicalAssertOneRow | PhysicalUnion | PhysicalExcept
  | PhysicalIntersect => true
  | _ => false
  end.

(** Whether a scalar operator is a column reference. *)
Definition isColumnRef (e : ScalarOperator) : bool :=
  match e with ColumnRefOperator _ => true | _ => false end.

Module MoreSamples.

(** A window partitioned by columns 1 and 2, ordered by 2 then 3. *)
Definition window : PhysicalWindowOperator :=
  mkPhysicalWindowOperator [ColumnRefOperator 1; ColumnRefOperator 2]
                           [mkOrdering 2 false false; mkOrdering 3 false true].

(** A window whose partition expression is a cast, not a column. *)
Definition castWindow : PhysicalWindowOperator :=
  mkPhysicalWindowOperator [CastOperator (ColumnRefOperator 1)] [].

Definition finalTopN : PhysicalTopNOperator :=
  mkPhysicalTopNOperator SortPhase.FINAL false [mkOrdering 1 true true].

Definition groupBLimit : ChildGroup := mkChildGroup (mkLogicalOperator true 5) {[4; 5]}.

Definition unionContext : ExpressionContext :=
  mkExpressionContext [Sample.groupA; groupBLimit; Sample.groupB] false.

Definition rightLimitJoinContext : ExpressionContext :=
  mkExpressionContext [Sample.groupA; groupBLimit] false.

Definition shuffleHintJoin : PhysicalHashJoinOperator :=
  mkPhysicalHashJoinOperator JoinOperator.INNER_JOIN (Some "shuffle"%string)
                             (Some Sample.eqPredicate).

Definition bucketHintJoin : PhysicalHashJoinOperator :=
  mkPhysicalHashJoinOperator JoinOperator.INNER_JOIN (Some "BUCKET"%string)
                             (Some Sample.eqPredicate).

Definition rightOuterJoin : PhysicalHashJoinOperator :=
  mkPhysicalHashJoinOperator JoinOperator.RIGHT_OUTER_JOIN None (Some Sample.eqPredicate).

(** What the inner join of the two sample scans returns in the sample
    colocation group: broadcast, shuffle, colocate, bucket shuffle. *)
Definition colocateJoinResult : list Alternative :=
  [(PhysicalPropertySet_EMPTY,
    [PhysicalPropertySet_EMPTY; PhysicalPropertySet_ofDistribution ReplicatedDistributionSpec]);
   (PhysicalPropertySet_EMPTY,
    [PhysicalPropertySet_ofDistribution
       (HashDistributionSpec (mkHashDistributionDesc [1] SHUFFLE_JOIN));
     PhysicalPropertySet_ofDistribution
       (HashDistributionSpec (mkHashDistributionDesc [4] SHUFFLE_JOIN))]);
   (PhysicalPropertySet_EMPTY,
    [PhysicalPropertySet_ofDistribution
       (HashDistributionSpec (mkHashDistributionDesc [1] LOCAL));
     PhysicalPropertySet_ofDistribution
       (HashDistributionSpec (mkHashDistributionDesc [4] LOCAL))]);
   (PhysicalPropertySet_EMPTY,
    [PhysicalPropertySet_ofDistribution
       (HashDistributionSpec (mkHashDistributionDesc [1] LOCAL));
     PhysicalPropertySet_ofDistribution
       (HashDistributionSpec (mkHashDistributionDesc [4] SHUFFLE_JOIN))])].

End MoreSamples.

(** An alternative of a join that does not ask to replicate the right
    child. *)
Definition rightNotReplicated (alt : Alternative) : Prop :=
  forall p, childRequirement 1 alt = Some p ->
            isReplicated (getDistributionProperty p) = false.

(** The colocate alternative on the given left and right columns. *)
Definition colocateAlternative (leftCols rightCols : list Z) : Alternative :=
  (PhysicalPropertySet_EMPTY,
   [PhysicalPropertySet_ofDistribution
      (HashDistributionSpec (mkHashDistributionDesc leftCols LOCAL));
    PhysicalPropertySet_ofDistribution
      (HashDistributionSpec (mkHashDistributionDesc rightCols LOCAL))]).

(** The bucket-shuffle alternative: local on the left bucket columns,
    shuffled on the right columns. *)
Definition bucketShuffleAlternative (leftCols rightCols : list Z) : Alternative :=
  (PhysicalPropertySet_EMPTY,
   [PhysicalPropertySet_ofDistribution
      (HashDistributionSpec (mkHashDistributionDesc leftCols LOCAL));
    PhysicalPropertySet_ofDistribution
      (HashDistributionSpec (mkHashDistributionDesc rightCols SHUFFLE_JOIN))]).

(** Two column lists are paired through the join columns: position by
    position, the left and the right column stand at one and the same
    position of the left and right join-column lists. *)
Definition pairedThrough (leftJoin rightJoin leftCols rightCols : list Z) : Prop :=
  length leftCols = length rightCols
  /\ forall (i : nat) l r,
       leftCols !! i = Some l -> rightCols !! i = Some r ->
       exists k : nat, leftJoin !! k = Some l /\ rightJoin !! k = Some r.

(** ** Decimal arithmetic and casts

    [DecimalV3Arithmetics] and [DecimalV3Cast] work on the two's-complement
    integers of 32, 64 and 128 bits that carry a decimal.  The width is a
    parameter; a value of the type is an integer in [inRange], and every
    arithmetic result is brought back into the type by [wrap].  The functions
    are the instances with [check_overflow = false]; as in the source, each
    returns its overflow flag next to the value it stores. *)

Module DecimalV3.

Inductive DecimalRoundRule : Type :=
| ROUND_HALF_UP
| ROUND_HALF_EVEN
| ROUND_FLOOR
| ROUND_CEILING
| ROUND_TRUNCATE.

Section Width.
Variable bits : Z.

(** The least and the greatest value of the integer type. *)
Definition min_value : Z := - 2 ^ (bits - 1).
Definition max_value : Z := 2 ^ (bits - 1) - 1.
Definition inRange (x : Z) : Prop := min_value <= x <= max_value.

(** Conversion to the signed type of the given width, and to the type of the
    operands. *)
Definition wrapTo (w : Z) (x : Z) : Z := (x + 2 ^ (w - 1)) mod 2 ^ w - 2 ^ (w - 1).
Definition wrap (x : Z) : Z := wrapTo bits x.

(** [abs] of the integer type. *)
Definition abs (x : Z) : Z := wrap (Z.abs x).

(** [Type(b)] for a boolean [b]. *)
Definition ofBool (b : bool) : Z := if b then 1 else 0.

(** [DecimalV3Arithmetics::add], [div] and [mod]; [/] and [%] of C++ truncate
    towards zero. *)
Definition add (a b : Z) : bool * Z := (false, wrap (a + b)).
Definition div (a b : Z) : bool * Z := (false, wrap (Z.quot a b)).
Definition mod_ (a b : Z) : bool * Z := (false, wrap (Z.rem a b)).

(** [DecimalV3Arithmetics::div_round]. *)
Definition div_round (a b : Z) : bool * Z :=
  let c := wrap (Z.quot a b) in
  let r := wrap (Z.rem a b) in
  let carry := Z.lor (Z.shiftr (Z.lxor a b) (bits - 1)) 1 in
  let abs_b := abs b in
  let abs_r := abs r in
  let need_carry := bool_decide (wrap (Z.shiftr abs_b 1 + Z.land abs_b 1) <= abs_r) in
  (false, wrap (c + Z.land carry (wrap (- ofBool need_carry)))).

(** [DecimalV3Cast::to_decimal_trivial] into a type of [toBits] bits. *)
Definition to_decimal_trivial (toBits : Z) (value : Z) : bool * Z :=
  (false, wrapTo toBits value).

(** [DecimalV3Cast::round_quotient]: the flag and the quotient it leaves. *)
Definition round_quotient (rule : DecimalRoundRule) (carry quotient divisor remainder : Z)
  : bool * Z :=
  let need_round :=
    match rule with
    | ROUND_HALF_UP | ROUND_HALF_EVEN => bool_decide (Z.shiftr divisor 1 <= abs remainder)
    | ROUND_FLOOR => bool_decide (0 < remainder) && bool_decide (0 < quotient)
    | ROUND_CEILING => bool_decide (remainder < 0) && bool_decide (quotient < 0)
    | ROUND_TRUNCATE => false
    end in
  if need_round then add quotient carry else (false, quotient).

(** [DecimalV3Cast::scale_down_round] into a type of [toBits] bits. *)
Definition scale_down_round (toBits : Z) (rule : DecimalRoundRule) (value scale_factor : Z)
  : bool * Z :=
  if bool_decide (scale_factor = 1) then to_decimal_trivial toBits value
  else
    let carry := Z.lor (Z.shiftr value (bits - 1)) 1 in
    let quotient := wrap (Z.quot value scale_factor) in
    let remainder := wrap (Z.rem value scale_factor) in
    let quotient := (round_quotient rule carry quotient scale_factor remainder).2 in
    (false, wrapTo toBits quotient).

(** [get_scale_factor] and the formatting of an unsigned integer by
    [fmt::format_to] are defined outside this header. *)
Variable get_scale_factor : Z -> Z.
Variable format_unsigned : Z -> string.

(** Conversion to the unsigned type of the same width. *)
Definition unsigned (x : Z) : Z := x mod 2 ^ bits.

(** The binary search of [to_string] for the number of decimal digits of the
    fraction part.  Each turn of the loop takes one unit of fuel; the
    distance between the two bounds shrinks every turn, so [to_string] hands
    over more fuel than the loop can use. *)
Fixpoint fraction_digits (fuel : nat) (low_scale high_scale frac_part : Z) : Z :=
  match fuel with
  | O => low_scale
  | S fuel =>
      if bool_decide (low_scale < high_scale) then
        let mid_scale := Z.shiftr (high_scale + low_scale) 1 in
        let mid_scale_factor := unsigned (get_scale_factor mid_scale) in
        if bool_decide (mid_scale_factor <= frac_part)
        then fraction_digits fuel (mid_scale + 1) high_scale frac_part
        else fraction_digits fuel low_scale mid_scale frac_part
      else low_scale
  end.

Fixpoint zeros (n : nat) : string :=
  match n with
  | O => EmptyString
  | S n => String "0" (zeros n)
  end.

(** [DecimalV3Cast::to_string]. *)
Definition to_string (value : Z) (precision scale : Z) : string :=
  let scale_factor := unsigned (get_scale_factor scale) in
  let abs_value :=
    if bool_decide (value < 0) then unsigned (wrap (- value)) else unsigned value in
  let sign := if bool_decide (value < 0) then "-"%string else EmptyString in
  let int_part := abs_value / scale_factor in
  let frac_part := abs_value mod scale_factor in
  let low_scale := fraction_digits (S (Z.to_nat scale)) 0 scale frac_part in
  (sign ++ format_unsigned int_part
   ++ (if bool_decide (low_scale <> 0)
       then "." ++ zeros (Z.to_nat (scale - low_scale)) ++ format_unsigned frac_part
       else EmptyString))%string.

End Width.

(** Sample parameters: powers of ten as scale factors and a decimal printer
    for unsigned integers. *)
Definition powerOfTen (scale : Z) : Z := 10 ^ scale.

Fixpoint formatDigits (fuel : nat) (n : Z) (acc : string) : string :=
  match fuel with
  | O => acc
  | S fuel =>
      let acc := String (ascii_of_nat (48 + Z.to_nat (n mod 10))) acc in
      if bool_decide (n / 10 = 0) then acc else formatDigits fuel (n / 10) acc
  end.

Definition formatDecimal (n : Z) : string := formatDigits 40 n EmptyString.

End DecimalV3.

(** ** The result buffer manager

    [ResultBufferMgr] keeps one [BufferControlBlock] per query id and a
    timetable of cancellations.  A block is shared between the manager and
    the sender that asked for it, so the blocks live in a heap and the maps
    hold their addresses.  The class of the blocks is defined outside
    result_buffer_mgr.cpp; its constructor and its [cancel] are the
    operations of a type class.  The locks are left out: the functions are
    the critical sections, run one after the other. *)

Module ResultBufferMgr.

Definition TUniqueId : Type := Z * Z.

Inductive Status : Type :=
| OK
| InternalError (msg : string).

(** [TimeoutMap], an ordered map from the time of cancellation to the query
    ids to cancel then: its entries in ascending order of time. *)
Definition TimeoutMap : Type := list (Z * list TUniqueId).

(** [time_t] is a signed integer of 64 bits; a sum of times is taken in
    that type and wraps around at its ends. *)
Definition time_min : Z := - 2 ^ 63.
Definition time_max : Z := 2 ^ 63 - 1.
Definition time_add (a b : Z) : Z := (a + b + 2 ^ 63) mod 2 ^ 64 - 2 ^ 63.

Class BufferControlBlock (Block : Type) : Type := {
  new_BufferControlBlock : TUniqueId -> Z -> Block;
  BufferControlBlock_cancel : Block -> Block
}.

Record Mgr (Block : Type) : Type := mkMgr {
  heap : list Block;
  _buffer_map : gmap TUniqueId nat;
  _timeout_map : TimeoutMap
}.
Arguments mkMgr {Block} _ _ _.
Arguments heap {Block} _.
Arguments _buffer_map {Block} _.
Arguments _timeout_map {Block} _.

Section Manager.
Context {Block : Type} {ops : BufferControlBlock Block}.
Implicit Type mgr : Mgr Block.

(** The manager as constructed. *)
Definition init : Mgr Block := mkMgr [] ∅ [].

Definition find_control_block (query_id : TUniqueId) mgr : option nat :=
  _buffer_map mgr !! query_id.

(** [insert] of the buffer map keeps an entry that is already there. *)
Definition buffer_map_insert (query_id : TUniqueId) (cb : nat) (m : gmap TUniqueId nat)
  : gmap TUniqueId nat :=
  match m !! query_id with
  | Some _ => m
  | None => <[query_id := cb]> m
  end.

(** [create_sender]: the status, the sender stored through the out
    parameter, and the manager afterwards. *)
Definition create_sender (query_id : TUniqueId) (buffer_size : Z) mgr
  : Status * nat * Mgr Block :=
  match find_control_block query_id mgr with
  | Some sender => (OK, sender, mgr)
  | None =>
      let control_block := length (heap mgr) in
      (OK, control_block,
       mkMgr (heap mgr ++ [new_BufferControlBlock query_id buffer_size])
             (buffer_map_insert query_id control_block (_buffer_map mgr))
             (_timeout_map mgr))
  end.

(** [fetch_data]: the error it returns itself, or the block whose
    [get_batch] answers. *)
Definition fetch_data (query_id : TUniqueId) mgr : Status + nat :=
  match find_control_block query_id mgr with
  | None => inl (InternalError "no result for this query.")
  | Some cb => inr cb
  end.

Definition cancel (query_id : TUniqueId) mgr : Status * Mgr Block :=
  match _buffer_map mgr !! query_id with
  | Some cb =>
      (OK, mkMgr (alter BufferControlBlock_cancel cb (heap mgr))
                 (delete query_id (_buffer_map mgr))
                 (_timeout_map mgr))
  | None => (OK, mgr)
  end.

(** [find], [insert] and the [push_back] through the iterator, on the
    timeout map. *)
Fixpoint timeout_find (t : Z) (m : TimeoutMap) : option (list TUniqueId) :=
  match m with
  | [] => None
  | (t', ids) :: rest => if bool_decide (t' = t) then Some ids else timeout_find t rest
  end.

Fixpoint timeout_insert (t : Z) (ids : list TUniqueId) (m : TimeoutMap) : TimeoutMap :=
  match m with
  | [] => [(t, ids)]
  | (t', ids') :: rest =>
      if bool_decide (t < t') then (t, ids) :: m
      else if bool_decide (t = t') then m
      else (t', ids') :: timeout_insert t ids rest
  end.

Fixpoint timeout_push_back (t : Z) (query_id : TUniqueId) (m : TimeoutMap) : TimeoutMap :=
  match m with
  | [] => []
  | (t', ids) :: rest =>
      if bool_decide (t' = t) then (t', ids ++ [query_id]) :: rest
      else (t', ids) :: timeout_push_back t query_id rest
  end.

Definition cancel_at_time (cancel_time : Z) (query_id : TUniqueId) mgr
  : Status * Mgr Block :=
  let m := _timeout_map mgr in
  let m := if bool_decide (timeout_find cancel_time m = None)
           then timeout_insert cancel_time [] m else m in
  (OK, mkMgr (heap mgr) (_buffer_map mgr) (timeout_push_back cancel_time query_id m)).

(** [upper_bound]: the position of the first entry later than [k]. *)
Fixpoint upper_bound (k : Z) (m : TimeoutMap) : nat :=
  match m with
  | [] => O
  | (t, _) :: rest => if bool_decide (k < t) then O else S (upper_bound k rest)
  end.

(** The second loop of [cancel_thread]. *)
Definition cancel_all (query_to_cancel : list TUniqueId) mgr : Mgr Block :=
  foldl (fun mgr query_id => (cancel query_id mgr).2) mgr query_to_cancel.

(** One turn of the loop of [cancel_thread], with the clock reading
    [now_time]. *)
Definition cancel_thread_pass (now_time : Z) mgr : Mgr Block :=
  let end_ := upper_bound (time_add now_time 1) (_timeout_map mgr) in
  let query_to_cancel := mjoin ((take end_ (_timeout_map mgr)).*2) in
  let mgr := mkMgr (heap mgr) (_buffer_map mgr) (drop end_ (_timeout_map mgr)) in
  cancel_all query_to_cancel mgr.

(** [cancel_thread] until it is stopped, given the clock readings of its
    turns. *)
Definition cancel_thread (clock : list Z) mgr : Mgr Block :=
  foldl (fun mgr now_time => cancel_thread_pass now_time mgr) mgr clock.

(** The calls that change a manager, and the state they lead to from the
    manager as constructed. *)
Inductive Call : Type :=
| CreateSender (query_id : TUniqueId) (buffer_size : Z)
| Cancel (query_id : TUniqueId)
| CancelAtTime (cancel_time : Z) (query_id : TUniqueId)
| CancelThreadPass (now_time : Z).

Definition call (c : Call) mgr : Mgr Block :=
  match c with
  | CreateSender query_id buffer_size => (create_sender query_id buffer_size mgr).2
  | Cancel query_id => (cancel query_id mgr).2
  | CancelAtTime cancel_time query_id => (cancel_at_time cancel_time query_id mgr).2
  | CancelThreadPass now_time => cancel_thread_pass now_time mgr
  end.

Definition run (calls : list Call) : Mgr Block := foldl (fun mgr c => call c mgr) init calls.

(** The keys of the timeout map ascend strictly. *)
Fixpoint ascendingKeys (keys : list Z) : bool :=
  match keys with
  | [] => true
  | k :: rest => forallb (fun k' => bool_decide (k < k')) rest && ascendingKeys rest
  end.

Definition ascending (m : TimeoutMap) : bool := ascendingKeys m.*1.

(** Every registered block is allocated, and no block is registered under
    two query ids. *)
Definition blocksOwned mgr : Prop :=
  forall query_id cb, _buffer_map mgr !! query_id = Some cb -> (cb < length (heap mgr))%nat.

Definition blocksDistinct mgr : Prop :=
  forall id1 id2 cb,
    _buffer_map mgr !! id1 = Some cb -> _buffer_map mgr !! id2 = Some cb -> id1 = id2.

Definition consistent mgr : Prop :=
  blocksOwned mgr /\ blocksDistinct mgr /\ ascending (_timeout_map mgr) = true.

End Manager.

(** A block that only records whether it was cancelled, and a manager with
    two queries and two timed cancellations. *)
Definition cancelFlag : BufferControlBlock bool :=
  {| new_BufferControlBlock := fun _ _ => false;
     BufferControlBlock_cancel := fun _ => true |}.

Definition twoQueries : Mgr bool :=
  run (ops := cancelFlag) [CreateSender (0, 1) 1024; CreateSender (0, 2) 1024;
                           CancelAtTime 20 (0, 2); CancelAtTime 10 (0, 1)].

End ResultBufferMgr.

(** ** Reasoning about the visitor monad *)

(** Unfolds the monad operations so that a run of a visitor on a concrete
    accumulator reduces by computation. *)
Ltac deriver_unfold :=
  unfold mbind, mret, fmap, Deriver_bind, Deriver_ret, Result_bind, Result_ret, Result_fmap,
    lift, add, clear, getProps, setProps, visitOperator in *.

Lemma bind_lift_Ok {A B : Type} (a : A) (f : A -> Deriver B) (props : list Alternative) :
  (lift (Ok a) ≫= f) props = f a props.
Proof. reflexivity. Qed.

Lemma bind_lift_Ok_eta {A B : Type} (a : A) (f : A -> Deriver B) :
  lift (Ok a) ≫= f = f a.
Proof. reflexivity. Qed.

Lemma bind_lift_Throw {A B : Type} (e : Exception) (f : A -> Deriver B)
    (props : list Alternative) :
  (lift (Throw e) ≫= f) props = Throw e.
Proof. reflexivity. Qed.

Lemma bind_add {B : Type} (alt : Alternative) (f : unit -> Deriver B)
    (props : list Alternative) :
  (add alt ≫= f) props = f tt (props ++ [alt]).
Proof. reflexivity. Qed.

Lemma bind_clear {B : Type} (f : unit -> Deriver B) (props : list Alternative) :
  (clear ≫= f) props = f tt [].
Proof. reflexivity. Qed.

Lemma bind_ret {A B : Type} (a : A) (f : A -> Deriver B) (props : list Alternative) :
  (mret a ≫= f) props = f a props.
Proof. reflexivity. Qed.

Section Facts.
Context `{U : JoinPredicateUtils}.
Variable requirements : PhysicalPropertySet.
Variable env : Environment.

(** Without a local requirement the filtering steps leave the list as it
    is. *)
Lemma visitJoinRequirements_inactive node context props :
  getRequiredLocalDesc requirements = None ->
  visitJoinRequirements requirements node context props = Ok (tt, props).
Proof. intros Hreq. unfold visitJoinRequirements. rewrite Hreq. reflexivity. Qed.

Lemma visitAggregateRequirements_inactive node context props :
  getRequiredLocalDesc requirements = None ->
  visitAggregateRequirements requirements node context props = Ok (tt, props).
Proof. intros Hreq. unfold visitAggregateRequirements. rewrite Hreq. reflexivity. Qed.

End Facts.

(** ** Hash join under a row limit *)

(** C5: when the left child carries a row limit and no local requirement is
    active, the hash-join derivation returns exactly one alternative: the
    left child must be gathered with that limit and the right child
    replicated; no shuffle, colocate or bucket-shuffle alternative. *)
Theorem join_left_limit_broadcast_only `{U : JoinPredicateUtils}
    (requirements : PhysicalPropertySet) (env : Environment)
    (node : PhysicalHashJoinOperator) (context : ExpressionContext)
    (leftChild rightChild : LogicalOperator) :
  getChildOperator context 0 = Ok leftChild ->
  getChildOperator context 1 = Ok rightChild ->
  hasLimit leftChild = true ->
  getRequiredLocalDesc requirements = None ->
  getOutputInputProps requirements env (PhysicalHashJoin node) context
  = Ok [(PhysicalPropertySet_EMPTY,
         [mkPhysicalPropertySet (GatherDistributionSpec (Some (getLimit leftChild))) [];
          mkPhysicalPropertySet ReplicatedDistributionSpec []])].
Proof.
  intros Hleft Hright Hlimit Hreq.
  unfold getOutputInputProps, accept, visitPhysicalHashJoin.
  rewrite Hleft, Hright, !bind_lift_Ok, Hlimit. cbn [orb].
  rewrite bind_add, visitJoinRequirements_inactive by assumption.
  reflexivity.
Qed.

Lemma join_left_limit_broadcast_only_witness :
  getOutputInputProps (H := SpecJoinPredicateUtils) Sample.anyRequirement Sample.env
    (PhysicalHashJoin Sample.innerJoin) Sample.limitJoinContext
  = Ok [(PhysicalPropertySet_EMPTY,
         [mkPhysicalPropertySet (GatherDistributionSpec (Some 10)) [];
          mkPhysicalPropertySet ReplicatedDistributionSpec []])].
Proof.
  apply (join_left_limit_broadcast_only (U := SpecJoinPredicateUtils)
           Sample.anyRequirement Sample.env Sample.innerJoin Sample.limitJoinContext
           Sample.limit10 Sample.noLimit); reflexivity.
Defined.

(** ** Hash join: reading the two children *)

Lemma listGet_0 {A : Type} (a : A) (l : list A) : listGet (a :: l) 0 = Ok a.
Proof. reflexivity. Qed.

Lemma listGet_1 {A : Type} (a b : A) (l : list A) : listGet (a :: b :: l) 1 = Ok b.
Proof. reflexivity. Qed.


(** ** Scalar aggregation *)

(** As stated, C6 fails: with a scalar aggregate the single-instance
    shortcut asks for nothing, the child-limit shortcut asks for a gather
    with the limit, and an active local requirement filters the gather
    alternative away. *)
Lemma C6_counterexample :
  getOutputInputProps (H := SpecJoinPredicateUtils) Sample.anyRequirement Sample.env
    (PhysicalHashAggregate Sample.scalarGlobalAggregate) Sample.singleInstanceContext
  = Ok [unconstrainedAlternative]
  /\ getOutputInputProps (H := SpecJoinPredicateUtils) Sample.anyRequirement Sample.twoStageEnv
       (PhysicalHashAggregate Sample.scalarGlobalAggregate) Sample.limitUnaryContext
     = Ok [(PhysicalPropertySet_EMPTY,
            [PhysicalPropertySet_ofDistribution (GatherDistributionSpec (Some 10))])]
  /\ getOutputInputProps (H := SpecJoinPredicateUtils) (Sample.localRequirement [1])
       Sample.twoStageEnv
       (PhysicalHashAggregate Sample.scalarGlobalAggregate) Sample.unaryContext
     = Ok []
  /\ ~ oneAlternativeGatherBothSides [unconstrainedAlternative]
  /\ ~ oneAlternativeGatherBothSides
        [(PhysicalPropertySet_EMPTY,
          [PhysicalPropertySet_ofDistribution (GatherDistributionSpec (Some 10))])]
  /\ ~ oneAlternativeGatherBothSides [].
Proof.
  split; [vm_compute; reflexivity |].
  split; [vm_compute; reflexivity |].
  split; [vm_compute; reflexivity |].
  repeat split.
  - intros (p & c & Hl & Hp & _). injection Hl as <- _. discriminate Hp.
  - intros (p & c & Hl & _ & Hc). injection Hl as _ <-. discriminate Hc.
  - intros (p & c & Hl & _). discriminate Hl.
Qed.

(** C6, amended: for a hash aggregate with no grouping column that is not a
    local-stage aggregate, when neither the single-instance shortcut nor the
    child-limit shortcut applies and no local requirement is active, the
    result is exactly one alternative, with a gather distribution without
    limit on the output and on the single child. *)
Theorem scalar_aggregate_gather `{U : JoinPredicateUtils}
    (requirements : PhysicalPropertySet) (env : Environment)
    (node : PhysicalHashAggregateOperator) (context : ExpressionContext)
    (child : LogicalOperator) :
  getPartitionByColumns node = [] ->
  AggType.isLocal (getType node) = false ->
  getChildOperator context 0 = Ok child ->
  bool_decide (getNewPlannerAggStage env = 0) && isExecuteInOneInstance context
    && AggType.isGlobal (getType node) && negb (isSplit node) = false ->
  hasLimit child && (AggType.isGlobal (getType node) && negb (isSplit node)) = false ->
  getRequiredLocalDesc requirements = None ->
  getOutputInputProps requirements env (PhysicalHashAggregate node) context
  = Ok [gatherAlternative]
  /\ oneAlternativeGatherBothSides [gatherAlternative].
Proof.
  intros Hcols Hlocal Hchild Hone Hlimit Hreq.
  split; [| eexists _, _; repeat split; reflexivity].
  unfold getOutputInputProps, accept, visitPhysicalHashAggregate.
  rewrite Hone, Hchild, bind_lift_Ok, Hlimit, Hlocal, Hcols. cbn [negb].
  rewrite bool_decide_eq_true_2 by reflexivity.
  rewrite bind_add, visitAggregateRequirements_inactive by assumption.
  reflexivity.
Qed.

Lemma scalar_aggregate_gather_witness :
  getOutputInputProps (H := SpecJoinPredicateUtils) Sample.anyRequirement Sample.twoStageEnv
    (PhysicalHashAggregate Sample.scalarGlobalAggregate) Sample.unaryContext
  = Ok [gatherAlternative]
  /\ oneAlternativeGatherBothSides [gatherAlternative].
Proof.
  apply (scalar_aggregate_gather (U := SpecJoinPredicateUtils)
           Sample.anyRequirement Sample.twoStageEnv Sample.scalarGlobalAggregate
           Sample.unaryContext Sample.noLimit); reflexivity.
Defined.

(** ** Pass-through operators *)

(** As stated, C7 fails: without a local requirement a filter returns the
    unconstrained alternative alone, not two alternatives. *)
Lemma C7_counterexample :
  getRequiredLocalDesc Sample.sortedRequirement = None
  /\ getOutputInputProps (H := SpecJoinPredicateUtils) Sample.sortedRequirement Sample.env
       PhysicalFilter Sample.unaryContext
     = Ok [unconstrainedAlternative]
  /\ length [unconstrainedAlternative] <> 2%nat.
Proof. repeat split; [vm_compute; reflexivity .. | discriminate]. Qed.

(** C7, amended: under an active local requirement project, filter, repeat
    and table function each return exactly one alternative, which hands the
    required distribution to the output and to the single child.  Without
    one, project returns two alternatives, that one and the unconstrained
    one, while filter, repeat and table function return the unconstrained
    alternative alone. *)
Theorem pass_through_alternatives `{U : JoinPredicateUtils}
    (requirements : PhysicalPropertySet) (env : Environment) (context : ExpressionContext) :
  getOutputInputProps requirements env PhysicalProject context
  = Ok (if bool_decide (is_Some (getRequiredLocalDesc requirements))
        then [propagateAlternative requirements]
        else [propagateAlternative requirements; unconstrainedAlternative])
  /\ getOutputInputProps requirements env PhysicalFilter context
     = Ok (if bool_decide (is_Some (getRequiredLocalDesc requirements))
           then [propagateAlternative requirements] else [unconstrainedAlternative])
  /\ getOutputInputProps requirements env PhysicalRepeat context
     = Ok (if bool_decide (is_Some (getRequiredLocalDesc requirements))
           then [propagateAlternative requirements] else [unconstrainedAlternative])
  /\ getOutputInputProps requirements env PhysicalTableFunction context
     = Ok (if bool_decide (is_Some (getRequiredLocalDesc requirements))
           then [propagateAlternative requirements] else [unconstrainedAlternative]).
Proof.
  unfold getOutputInputProps, accept, visitPhysicalProject, visitPhysicalFilter,
    visitPhysicalRepeat, visitPhysicalTableFunction, visitPassThrough.
  repeat split; rewrite ?bind_add;
    destruct (bool_decide (is_Some (getRequiredLocalDesc requirements))); reflexivity.
Qed.

(** ** Invariants of the returned alternatives *)

Section Establishes.
Context {A B : Type} (P : Alternative -> Prop).

Lemma establishes_ret (a : A) : establishes P (mret a).
Proof. intros props a' props' HP Hrun. inversion Hrun; subst. exact HP. Qed.

Lemma establishes_lift (r : Result A) : establishes P (lift r).
Proof.
  intros props a' props' HP Hrun. destruct r; inversion Hrun; subst. exact HP.
Qed.

Lemma establishes_add (alt : Alternative) : P alt -> establishes P (add alt).
Proof.
  intros Halt props a' props' HP Hrun. inversion Hrun; subst.
  apply Forall_app; split; [exact HP | constructor; [exact Halt | constructor]].
Qed.

Lemma establishes_clear : establishes P clear.
Proof. intros props a' props' HP Hrun. inversion Hrun; subst. constructor. Qed.

Lemma establishes_bind (m : Deriver A) (f : A -> Deriver B) :
  establishes P m -> (forall a, establishes P (f a)) -> establishes P (m ≫= f).
Proof.
  intros Hm Hf props b props'' HP Hrun.
  unfold mbind, Deriver_bind in Hrun.
  destruct (m props) as [[a props'] | e] eqn:Hmrun; [| discriminate].
  eapply Hf; [| exact Hrun]. eapply Hm; [exact HP | exact Hmrun].
Qed.
End Establishes.

Lemma forEachCollect_Forall {A B : Type} (body : A -> Result (option B))
    (Q : A -> Prop) (P : B -> Prop) (l : list A) (r : list B) :
  (forall a b, Q a -> body a = Ok (Some b) -> P b) ->
  Forall Q l -> forEachCollect body l = Ok r -> Forall P r.
Proof.
  intros Hbody HQ. revert r. induction HQ as [| a l Ha HQ IH]; intros r Hrun.
  - inversion Hrun; subst. constructor.
  - cbn in Hrun. destruct (body a) as [o | e] eqn:Hb; [| discriminate].
    destruct (forEachCollect body l) as [rest | e] eqn:Hrest; [| discriminate].
    inversion Hrun; subst. destruct o as [b |].
    + constructor; [eapply Hbody; eassumption | apply IH; reflexivity].
    + apply IH; reflexivity.
Qed.

(** The filtering idiom: read the list, run the loop, assign the result. *)
Lemma establishes_filter (P : Alternative -> Prop)
    (body : Alternative -> Result (option Alternative)) :
  (forall a b, P a -> body a = Ok (Some b) -> P b) ->
  establishes P (outputInputProps ← getProps;
                 result ← lift (forEachCollect body outputInputProps);
                 setProps result;; visitOperator).
Proof.
  intros Hbody props u props' HP Hrun. deriver_unfold.
  destruct (forEachCollect body props) as [r | e] eqn:Hloop; [| discriminate].
  inversion Hrun; subst. eapply forEachCollect_Forall; eassumption.
Qed.

Lemma listGet_Ok_elem_of {A : Type} (l : list A) (i : Z) (a : A) :
  listGet l i = Ok a -> a ∈ l.
Proof.
  unfold listGet. destruct (bool_decide (i < 0)); [discriminate |].
  destruct (l !! Z.to_nat i) as [a' |] eqn:Hlook; [| discriminate].
  intros [= ->]. eapply list_elem_of_lookup_2; exact Hlook.
Qed.

(** Breaks a visitor down along its binds, branches and matches; [leaf]
    closes the obligations on the alternatives that are added. *)
Ltac establish_step leaf :=
  first
    [ apply establishes_ret
    | apply establishes_clear
    | apply establishes_lift
    | apply establishes_add; leaf
    | apply establishes_bind; [| intros ?]
    | match goal with
      | |- establishes _ (if ?c then _ else _) => destruct c
      | |- establishes _ (match ?x with _ => _ end) => destruct x
      end ].

Ltac establish leaf := cbv zeta; repeat establish_step leaf.

Section Invariants.
Context `{U : JoinPredicateUtils}.
Variable requirements : PhysicalPropertySet.
Variable env : Environment.

(** What the three loop bodies keep or build from an alternative. *)
Lemma keepForLeft_cases required a b :
  keepForLeft requirements required a = Ok (Some b) ->
  exists left_ right_,
    listGet a.2 0 = Ok left_ /\ listGet a.2 1 = Ok right_
    /\ ((getDistributionProperty left_ = AnyDistributionSpec
         /\ b = (distributeRequirements requirements,
                 [distributeRequirements requirements; right_]))
        \/ (localWithin required left_
            /\ b = (distributeRequirements requirements, a.2))).
Proof.
  unfold keepForLeft. deriver_unfold.
  destruct (listGet a.2 0) as [left_ | e]; [| discriminate].
  destruct (listGet a.2 1) as [right_ | e]; [| discriminate].
  intros Hb. exists left_, right_. split; [reflexivity | split; [reflexivity |]].
  destruct (getDistributionProperty left_) as [| limit | | desc] eqn:Hd; cbn in Hb;
    try discriminate.
  - left. split; [reflexivity | congruence].
  - right. destruct (bool_decide (getSourceType desc = LOCAL)) eqn:Hsrc; [| discriminate].
    destruct (containsAll (getColumns required) (getColumns desc)) eqn:Hall;
      [| discriminate].
    cbn in Hb. split; [| congruence].
    exists desc. split; [exact Hd |]. split.
    + apply bool_decide_eq_true_1 in Hsrc. exact Hsrc.
    + apply bool_decide_eq_true_1 in Hall. exact Hall.
Qed.

Lemma keepForRight_cases required a b :
  keepForRight requirements required a = Ok (Some b) ->
  exists right_,
    listGet a.2 1 = Ok right_ /\ localWithin required right_
    /\ b = (distributeRequirements requirements, a.2).
Proof.
  unfold keepForRight. deriver_unfold.
  destruct (listGet a.2 1) as [right_ | e]; [| discriminate].
  intros Hb. exists right_. split; [reflexivity |].
  destruct (getDistributionProperty right_) as [| limit | | desc] eqn:Hd; cbn in Hb;
    try discriminate.
  destruct (bool_decide (getSourceType desc = LOCAL)) eqn:Hsrc; [| discriminate].
  destruct (containsAll (getColumns required) (getColumns desc)) eqn:Hall;
    [| discriminate].
  cbn in Hb. split; [| congruence].
  exists desc. split; [exact Hd |]. split.
  - apply bool_decide_eq_true_1 in Hsrc. exact Hsrc.
  - apply bool_decide_eq_true_1 in Hall. exact Hall.
Qed.

Lemma keepForAggregate_cases required a b :
  keepForAggregate requirements required a = Ok (Some b) ->
  b = (distributeRequirements requirements, [distributeRequirements requirements])
  \/ b = (distributeRequirements requirements, a.2).
Proof.
  unfold keepForAggregate. deriver_unfold.
  destruct (listGet a.2 0) as [input | e]; [| discriminate].
  destruct (getDistributionProperty input) as [| limit | | inputDesc]; cbn;
    try discriminate.
  - intros [= <-]. left. reflexivity.
  - destruct (getDistributionProperty a.1) as [| limit | | outputDesc]; try discriminate.
    destruct (_ && _); [| discriminate].
    intros [= <-]. right. reflexivity.
Qed.

(** The filtering steps keep every property of alternatives that the
    rebuilt alternatives have again. *)
Lemma visitJoinRequirements_establishes (P : Alternative -> Prop) node context :
  (forall required a b, P a -> keepForLeft requirements required a = Ok (Some b) -> P b) ->
  (forall required a b, P a -> keepForRight requirements required a = Ok (Some b) -> P b) ->
  establishes P (visitJoinRequirements requirements node context).
Proof.
  intros Hleft Hright. unfold visitJoinRequirements.
  destruct (getRequiredLocalDesc requirements) as [required |];
    [| apply establishes_ret].
  cbv zeta.
  apply establishes_bind; [apply establishes_lift | intros leftChildColumns].
  apply establishes_bind; [apply establishes_lift | intros rightChildColumns].
  destruct (bool_decide _).
  - apply establishes_bind; [apply establishes_clear | intros ?; apply establishes_ret].
  - destruct (contains leftChildColumns _).
    + apply establishes_filter. apply Hleft.
    + apply establishes_filter. apply Hright.
Qed.

Lemma visitAggregateRequirements_establishes (P : Alternative -> Prop) node context :
  (forall required a b, P a -> keepForAggregate requirements required a = Ok (Some b) -> P b) ->
  establishes P (visitAggregateRequirements requirements node context).
Proof.
  intros Hkeep. unfold visitAggregateRequirements.
  destruct (getRequiredLocalDesc requirements) as [required |];
    [| apply establishes_ret].
  apply establishes_filter. apply Hkeep.
Qed.

End Invariants.

Lemma getOutputInputProps_establishes `{U : JoinPredicateUtils}
    (P : Alternative -> Prop) requirements env op context l :
  establishes P (accept requirements env op context) ->
  getOutputInputProps requirements env op context = Ok l ->
  Forall P l.
Proof.
  intros Hest Hrun. unfold getOutputInputProps in Hrun.
  destruct (accept requirements env op context []) as [[u props] | e] eqn:Hacc;
    [| discriminate].
  cbn in Hrun. inversion Hrun; subst.
  eapply Hest; [constructor | exact Hacc].
Qed.

(** ** Arity preservation *)

Section Arity.
Context `{U : JoinPredicateUtils}.
Variable requirements : PhysicalPropertySet.
Variable env : Environment.

Lemma visitJoinRequirements_arity node context :
  establishes (hasArity 2) (visitJoinRequirements requirements node context).
Proof.
  apply visitJoinRequirements_establishes; intros required a b Ha Hb.
  - apply keepForLeft_cases in Hb as (left_ & right_ & _ & _ & [[_ ->] | [_ ->]]);
      [reflexivity | exact Ha].
  - apply keepForRight_cases in Hb as (right_ & _ & _ & ->). exact Ha.
Qed.

Lemma visitPhysicalHashJoin_arity node context :
  establishes (hasArity 2) (visitPhysicalHashJoin requirements env node context).
Proof.
  unfold visitPhysicalHashJoin, tryColocate, tryBucketShuffle.
  establish ltac:(exact eq_refl); apply visitJoinRequirements_arity.
Qed.

Lemma visitAggregateRequirements_arity node context :
  establishes (hasArity 1) (visitAggregateRequirements requirements node context).
Proof.
  apply visitAggregateRequirements_establishes; intros required a b Ha Hb.
  apply keepForAggregate_cases in Hb as [-> | ->]; [reflexivity | exact Ha].
Qed.

Lemma processSetOperationChildProperty_arity context :
  establishes (hasArity (arity context))
              (processSetOperationChildProperty requirements context).
Proof.
  unfold processSetOperationChildProperty.
  establish ltac:(unfold hasArity, childRequiredProperties, arity; cbn; apply length_map).
Qed.

Lemma accept_arity op context :
  establishes (hasArity (operatorArity op context)) (accept requirements env op context).
Proof.
  destruct op; cbn [accept operatorArity].
  - apply visitPhysicalHashJoin_arity.
  - unfold visitPhysicalProject. establish ltac:(exact eq_refl).
  - unfold visitPhysicalHashAggregate.
    establish ltac:(exact eq_refl); apply visitAggregateRequirements_arity.
  - unfold visitPhysicalOlapScan. establish ltac:(exact eq_refl).
  - unfold visitPhysicalTopN. establish ltac:(exact eq_refl).
  - unfold visitPhysicalHiveScan, visitExternalScan. establish ltac:(exact eq_refl).
  - unfold visitPhysicalSchemaScan, visitExternalScan. establish ltac:(exact eq_refl).
  - unfold visitPhysicalMysqlScan, visitExternalScan. establish ltac:(exact eq_refl).
  - unfold visitPhysicalEsScan, visitExternalScan. establish ltac:(exact eq_refl).
  - unfold visitPhysicalAssertOneRow. establish ltac:(exact eq_refl).
  - unfold visitPhysicalAnalytic. establish ltac:(exact eq_refl).
  - unfold visitPhysicalUnion.
    establish ltac:(fail). apply processSetOperationChildProperty_arity.
  - unfold visitPhysicalExcept.
    establish ltac:(fail). apply processSetOperationChildProperty_arity.
  - unfold visitPhysicalIntersect.
    establish ltac:(fail). apply processSetOperationChildProperty_arity.
  - unfold visitPhysicalValues. establish ltac:(exact eq_refl).
  - unfold visitPhysicalRepeat, visitPassThrough. establish ltac:(exact eq_refl).
  - unfold visitPhysicalFilter, visitPassThrough. establish ltac:(exact eq_refl).
  - unfold visitPhysicalTableFunction, visitPassThrough. establish ltac:(exact eq_refl).
  - apply establishes_ret.
Qed.

End Arity.

(** C9: every alternative of the returned list asks of as many children as
    the operator has: two for a hash join; one for aggregate, top-N, window,
    assert-one-row and the pass-through operators; none for scans and
    values; the operator's arity for union, except and intersect. *)
Theorem arity_preserved `{U : JoinPredicateUtils}
    (requirements : PhysicalPropertySet) (env : Environment)
    (op : Operator) (context : ExpressionContext) (l : list Alternative) :
  getOutputInputProps requirements env op context = Ok l ->
  Forall (fun alt => length (childRequiredProperties alt) = operatorArity op context) l.
Proof.
  intros Hrun.
  eapply (getOutputInputProps_establishes (hasArity (operatorArity op context)));
    [apply accept_arity | exact Hrun].
Qed.

Lemma arity_preserved_witness :
  Forall (fun alt => length (childRequiredProperties alt) = 2%nat)
         [broadcastAlternative; shuffleAlternative [1] [4]].
Proof.
  apply (arity_preserved (U := SpecJoinPredicateUtils) Sample.anyRequirement Sample.noScanEnv
           (PhysicalHashJoin Sample.innerJoin) Sample.joinContext).
  vm_compute. reflexivity.
Defined.

(** ** The required sort order stays with the parent *)

Section Sort.
Context `{U : JoinPredicateUtils}.
Variable requirements : PhysicalPropertySet.
Variable env : Environment.

Lemma childSortsEmpty_elem alt p : childSortsEmpty alt -> p ∈ alt.2 -> getSortProperty p = [].
Proof. intros Halt Hp. unfold childSortsEmpty in Halt. rewrite Forall_forall in Halt. auto. Qed.

Lemma visitJoinRequirements_sort node context :
  establishes childSortsEmpty (visitJoinRequirements requirements node context).
Proof.
  apply visitJoinRequirements_establishes; intros required a b Ha Hb.
  - apply keepForLeft_cases in Hb as (left_ & right_ & _ & Hright & [[_ ->] | [_ ->]]);
      [| exact Ha].
    apply listGet_Ok_elem_of in Hright.
    repeat constructor. eapply childSortsEmpty_elem; eassumption.
  - apply keepForRight_cases in Hb as (right_ & _ & _ & ->). exact Ha.
Qed.

Lemma visitAggregateRequirements_sort node context :
  establishes childSortsEmpty (visitAggregateRequirements requirements node context).
Proof.
  apply visitAggregateRequirements_establishes; intros required a b Ha Hb.
  apply keepForAggregate_cases in Hb as [-> | ->]; [repeat constructor | exact Ha].
Qed.

Lemma processSetOperationChildProperty_sort context :
  establishes childSortsEmpty (processSetOperationChildProperty requirements context).
Proof.
  unfold processSetOperationChildProperty.
  establish ltac:(unfold childSortsEmpty, childRequiredProperties; cbn;
                  apply Forall_map, Forall_true; intros g; cbn;
                  destruct (hasLimit (childOperator g)); reflexivity).
Qed.

Lemma accept_sort op context :
  isAnalytic op = false ->
  establishes childSortsEmpty (accept requirements env op context).
Proof.
  destruct op; cbn [accept isAnalytic]; intros Hop; try discriminate.
  - unfold visitPhysicalHashJoin, tryColocate, tryBucketShuffle.
    establish ltac:(repeat constructor); apply visitJoinRequirements_sort.
  - unfold visitPhysicalProject. establish ltac:(repeat constructor).
  - unfold visitPhysicalHashAggregate.
    establish ltac:(repeat constructor); apply visitAggregateRequirements_sort.
  - unfold visitPhysicalOlapScan. establish ltac:(repeat constructor).
  - unfold visitPhysicalTopN. establish ltac:(repeat constructor).
  - unfold visitPhysicalHiveScan, visitExternalScan. establish ltac:(repeat constructor).
  - unfold visitPhysicalSchemaScan, visitExternalScan. establish ltac:(repeat constructor).
  - unfold visitPhysicalMysqlScan, visitExternalScan. establish ltac:(repeat constructor).
  - unfold visitPhysicalEsScan, visitExternalScan. establish ltac:(repeat constructor).
  - unfold visitPhysicalAssertOneRow. establish ltac:(repeat constructor).
  - unfold visitPhysicalUnion.
    establish ltac:(fail). apply processSetOperationChildProperty_sort.
  - unfold visitPhysicalExcept.
    establish ltac:(fail). apply processSetOperationChildProperty_sort.
  - unfold visitPhysicalIntersect.
    establish ltac:(fail). apply processSetOperationChildProperty_sort.
  - unfold visitPhysicalValues. establish ltac:(repeat constructor).
  - unfold visitPhysicalRepeat, visitPassThrough. establish ltac:(repeat constructor).
  - unfold visitPhysicalFilter, visitPassThrough. establish ltac:(repeat constructor).
  - unfold visitPhysicalTableFunction, visitPassThrough. establish ltac:(repeat constructor).
  - apply establishes_ret.
Qed.

End Sort.

(** C10: for every operator kind other than window, every child requirement
    of every returned alternative has an empty sort property; what is handed
    down of the parent's requirement is its distribution alone, so the
    propagating alternatives of the pass-through operators drop any required
    sort order. *)
Theorem required_sort_not_passed_on `{U : JoinPredicateUtils}
    (requirements : PhysicalPropertySet) (env : Environment)
    (op : Operator) (context : ExpressionContext) (l : list Alternative) :
  isAnalytic op = false ->
  getOutputInputProps requirements env op context = Ok l ->
  Forall (fun alt =>
            Forall (fun p => getSortProperty p = SortProperty_EMPTY)
                   (childRequiredProperties alt)) l
  /\ getSortProperty (distributeRequirements requirements) = SortProperty_EMPTY
  /\ getDistributionProperty (distributeRequirements requirements)
     = getDistributionProperty requirements.
Proof.
  intros Hop Hrun. split; [| split; reflexivity].
  eapply (getOutputInputProps_establishes childSortsEmpty);
    [apply accept_sort; exact Hop | exact Hrun].
Qed.

Lemma required_sort_not_passed_on_witness :
  Forall (fun alt =>
            Forall (fun p => getSortProperty p = SortProperty_EMPTY)
                   (childRequiredProperties alt))
         [propagateAlternative Sample.sortedRequirement; unconstrainedAlternative]
  /\ getSortProperty (distributeRequirements Sample.sortedRequirement) = SortProperty_EMPTY
  /\ getDistributionProperty (distributeRequirements Sample.sortedRequirement)
     = getDistributionProperty Sample.sortedRequirement.
Proof.
  apply (required_sort_not_passed_on (U := SpecJoinPredicateUtils)
           Sample.sortedRequirement Sample.env PhysicalProject Sample.unaryContext).
  - reflexivity.
  - vm_compute. reflexivity.
Defined.

(** ** Local output distributions *)

Lemma ensures_bind {A B : Type} (P : list Alternative -> Prop)
    (m : Deriver A) (f : A -> Deriver B) :
  (forall a, ensures P (f a)) -> ensures P (m ≫= f).
Proof.
  intros Hf props b props'' Hrun. unfold mbind, Deriver_bind in Hrun.
  destruct (m props) as [[a props'] | e]; [| discriminate].
  eapply Hf; exact Hrun.
Qed.

Lemma getOutputInputProps_ensures `{U : JoinPredicateUtils}
    (P : list Alternative -> Prop) requirements env op context l :
  ensures P (accept requirements env op context) ->
  getOutputInputProps requirements env op context = Ok l ->
  P l.
Proof.
  intros Hens Hrun. unfold getOutputInputProps in Hrun.
  destruct (accept requirements env op context []) as [[u props] | e] eqn:Hacc;
    [| discriminate].
  cbn in Hrun. inversion Hrun; subst. eapply Hens; exact Hacc.
Qed.

Lemma ensures_filter (P : Alternative -> Prop)
    (body : Alternative -> Result (option Alternative)) :
  (forall a b, body a = Ok (Some b) -> P b) ->
  ensures (Forall P) (outputInputProps ← getProps;
                      result ← lift (forEachCollect body outputInputProps);
                      setProps result;; visitOperator).
Proof.
  intros Hbody props u props' Hrun. deriver_unfold.
  destruct (forEachCollect body props) as [r | e] eqn:Hloop; [| discriminate].
  inversion Hrun; subst.
  eapply (forEachCollect_Forall _ (fun _ => True)); [| apply Forall_true; auto | exact Hloop].
  intros a b _. apply Hbody.
Qed.

Lemma ensures_clear {B : Type} (P : list Alternative -> Prop) (f : unit -> Deriver B) :
  (forall b props', f tt [] = Ok (b, props') -> P props') ->
  ensures P (clear ≫= f).
Proof. intros Hf props b props' Hrun. eapply Hf. exact Hrun. Qed.

(** Every path through the join rule ends in the filtering step. *)
Ltac ensure_last final :=
  cbv zeta;
  repeat first
    [ apply final
    | apply ensures_bind; intros ?
    | match goal with
      | |- ensures _ (if ?c then _ else _) => destruct c
      end ].


(** As stated, C2 fails: the single-phase alternative of a grouped
    aggregate has a local hash distribution as its output property. *)
Lemma C2_counterexample :
  getOutputInputProps (H := SpecJoinPredicateUtils) Sample.anyRequirement Sample.twoStageEnv
    (PhysicalHashAggregate Sample.groupedGlobalAggregate) Sample.unaryContext
  = Ok [(PhysicalPropertySet_ofDistribution
           (HashDistributionSpec (mkHashDistributionDesc [1] SHUFFLE_AGG)),
         [PhysicalPropertySet_ofDistribution
            (HashDistributionSpec (mkHashDistributionDesc [1] SHUFFLE_AGG))]);
        (PhysicalPropertySet_ofDistribution
           (HashDistributionSpec (mkHashDistributionDesc [1] LOCAL)),
         [PhysicalPropertySet_ofDistribution
            (HashDistributionSpec (mkHashDistributionDesc [1] LOCAL))])]
  /\ ~ noLocalOutput
        [(PhysicalPropertySet_ofDistribution
            (HashDistributionSpec (mkHashDistributionDesc [1] SHUFFLE_AGG)),
          [PhysicalPropertySet_ofDistribution
             (HashDistributionSpec (mkHashDistributionDesc [1] SHUFFLE_AGG))]);
         (PhysicalPropertySet_ofDistribution
            (HashDistributionSpec (mkHashDistributionDesc [1] LOCAL)),
          [PhysicalPropertySet_ofDistribution
             (HashDistributionSpec (mkHashDistributionDesc [1] LOCAL))])].
Proof.
  split; [vm_compute; reflexivity |].
  intros Hall. inversion Hall as [| a1 l1 _ Hrest]; subst.
  inversion Hrest as [| a2 l2 Hlocal _]; subst. discriminate Hlocal.
Qed.

Section LocalOutput.
Context `{U : JoinPredicateUtils}.
Variable requirements : PhysicalPropertySet.
Variable env : Environment.
Hypothesis inactive : getRequiredLocalDesc requirements = None.

Lemma distributeRequirements_not_local (children : list PhysicalPropertySet) :
  outputIsLocal (distributeRequirements requirements, children) = false.
Proof.
  unfold outputIsLocal, outputProperty, distributeRequirements. cbn.
  unfold getRequiredLocalDesc in inactive.
  destruct (getDistributionProperty requirements) as [| limit | | desc]; try reflexivity.
  cbn. destruct (bool_decide (getSourceType desc = LOCAL)); [discriminate | reflexivity].
Qed.

Lemma visitJoinRequirements_idle (P : Alternative -> Prop) node context :
  establishes P (visitJoinRequirements requirements node context).
Proof. unfold visitJoinRequirements. rewrite inactive. apply establishes_ret. Qed.

Lemma visitAggregateRequirements_idle (P : Alternative -> Prop) node context :
  establishes P (visitAggregateRequirements requirements node context).
Proof. unfold visitAggregateRequirements. rewrite inactive. apply establishes_ret. Qed.

(** Closes [localOutputOrigin op alt] for an alternative just added. *)
Ltac origin_leaf :=
  let Hloc := fresh "Hloc" in
  repeat match goal with
         | |- context [if ?c then _ else _] => destruct c
         end;
  intros Hloc;
  first [ discriminate Hloc
        | exact eq_refl
        | rewrite distributeRequirements_not_local in Hloc; discriminate Hloc ].

Lemma accept_local_output_origin op context :
  establishes (localOutputOrigin op) (accept requirements env op context).
Proof.
  destruct op; cbn [accept].
  - unfold visitPhysicalHashJoin, tryColocate, tryBucketShuffle.
    establish origin_leaf; apply visitJoinRequirements_idle.
  - unfold visitPhysicalProject. establish origin_leaf.
  - unfold visitPhysicalHashAggregate.
    establish origin_leaf; apply visitAggregateRequirements_idle.
  - unfold visitPhysicalOlapScan. rewrite inactive. establish origin_leaf.
  - unfold visitPhysicalTopN. establish origin_leaf.
  - unfold visitPhysicalHiveScan, visitExternalScan. establish origin_leaf.
  - unfold visitPhysicalSchemaScan, visitExternalScan. establish origin_leaf.
  - unfold visitPhysicalMysqlScan, visitExternalScan. establish origin_leaf.
  - unfold visitPhysicalEsScan, visitExternalScan. establish origin_leaf.
  - unfold visitPhysicalAssertOneRow. establish origin_leaf.
  - unfold visitPhysicalAnalytic. establish origin_leaf.
  - unfold visitPhysicalUnion, processSetOperationChildProperty. establish origin_leaf.
  - unfold visitPhysicalExcept, processSetOperationChildProperty. establish origin_leaf.
  - unfold visitPhysicalIntersect, processSetOperationChildProperty. establish origin_leaf.
  - unfold visitPhysicalValues. establish origin_leaf.
  - unfold visitPhysicalRepeat, visitPassThrough. establish origin_leaf.
  - unfold visitPhysicalFilter, visitPassThrough. establish origin_leaf.
  - unfold visitPhysicalTableFunction, visitPassThrough. establish origin_leaf.
  - apply establishes_ret.
Qed.

End LocalOutput.

Section PropagatedOutput.
Context `{U : JoinPredicateUtils}.
Variable requirements : PhysicalPropertySet.
Variable env : Environment.
Variable required : HashDistributionDesc.
Hypothesis active : getRequiredLocalDesc requirements = Some required.

Lemma distributeRequirements_local (children : list PhysicalPropertySet) :
  outputIsLocal (distributeRequirements requirements, children) = true.
Proof.
  unfold outputIsLocal, outputProperty, distributeRequirements. cbn.
  unfold getRequiredLocalDesc in active.
  destruct (getDistributionProperty requirements) as [| limit | | desc]; try discriminate.
  cbn. destruct (bool_decide (getSourceType desc = LOCAL)); [reflexivity | discriminate].
Qed.

Lemma visitJoinRequirements_propagates node context :
  ensures (Forall (fun alt => outputIsLocal alt = true))
          (visitJoinRequirements requirements node context).
Proof.
  unfold visitJoinRequirements. rewrite active. cbv zeta.
  apply ensures_bind; intros leftChildColumns.
  apply ensures_bind; intros rightChildColumns.
  destruct (bool_decide _).
  - apply ensures_clear. intros b props' [= _ <-]. constructor.
  - destruct (contains leftChildColumns _); apply ensures_filter; intros a b Hb.
    + apply keepForLeft_cases in Hb as (left_ & right_ & _ & _ & [[_ ->] | [_ ->]]);
        apply distributeRequirements_local.
    + apply keepForRight_cases in Hb as (right_ & _ & _ & ->).
      apply distributeRequirements_local.
Qed.

Lemma visitAggregateRequirements_propagates node context :
  ensures (Forall (fun alt => outputIsLocal alt = true))
          (visitAggregateRequirements requirements node context).
Proof.
  unfold visitAggregateRequirements. rewrite active.
  apply ensures_filter; intros a b Hb.
  apply keepForAggregate_cases in Hb as [-> | ->]; apply distributeRequirements_local.
Qed.

Lemma visitPhysicalOlapScan_propagates node context :
  ensures (Forall (fun alt => outputIsLocal alt = true))
          (visitPhysicalOlapScan requirements env node context).
Proof.
  unfold visitPhysicalOlapScan. rewrite active. cbv zeta.
  apply ensures_bind; intros _. apply ensures_clear.
  intros b props'. destruct (containsAll _ _); intros [= _ <-].
  - repeat constructor. apply distributeRequirements_local.
  - constructor.
Qed.

Lemma accept_propagates op context l :
  getOutputInputProps requirements env op context = Ok l ->
  Forall (fun alt => outputIsLocal alt = true) l.
Proof.
  pose proof distributeRequirements_local as Hlocal.
  destruct op; intros Hrun.
  1, 3, 4:
    eapply (getOutputInputProps_ensures (Forall (fun alt => outputIsLocal alt = true)));
    [| exact Hrun]; cbn [accept].
  - unfold visitPhysicalHashJoin. ensure_last (visitJoinRequirements_propagates node context).
  - unfold visitPhysicalHashAggregate.
    ensure_last (visitAggregateRequirements_propagates node context).
  - apply visitPhysicalOlapScan_propagates.
  - revert Hrun. apply getOutputInputProps_establishes. cbn [accept].
    unfold visitPhysicalProject. rewrite active.
    establish ltac:(first [apply Hlocal | exact eq_refl]).
  - revert Hrun. apply getOutputInputProps_establishes. cbn [accept].
    unfold visitPhysicalTopN. rewrite active. establish ltac:(fail).
  - revert Hrun. apply getOutputInputProps_establishes. cbn [accept].
    unfold visitPhysicalHiveScan, visitExternalScan. rewrite active. establish ltac:(fail).
  - revert Hrun. apply getOutputInputProps_establishes. cbn [accept].
    unfold visitPhysicalSchemaScan, visitExternalScan. rewrite active. establish ltac:(fail).
  - revert Hrun. apply getOutputInputProps_establishes. cbn [accept].
    unfold visitPhysicalMysqlScan, visitExternalScan. rewrite active. establish ltac:(fail).
  - revert Hrun. apply getOutputInputProps_establishes. cbn [accept].
    unfold visitPhysicalEsScan, visitExternalScan. rewrite active. establish ltac:(fail).
  - revert Hrun. apply getOutputInputProps_establishes. cbn [accept].
    unfold visitPhysicalAssertOneRow. rewrite active. establish ltac:(fail).
  - revert Hrun. apply getOutputInputProps_establishes. cbn [accept].
    unfold visitPhysicalAnalytic. rewrite active. establish ltac:(exact eq_refl).
  - revert Hrun. apply getOutputInputProps_establishes. cbn [accept].
    unfold visitPhysicalUnion, processSetOperationChildProperty. rewrite active.
    establish ltac:(fail).
  - revert Hrun. apply getOutputInputProps_establishes. cbn [accept].
    unfold visitPhysicalExcept, processSetOperationChildProperty. rewrite active.
    establish ltac:(fail).
  - revert Hrun. apply getOutputInputProps_establishes. cbn [accept].
    unfold visitPhysicalIntersect, processSetOperationChildProperty. rewrite active.
    establish ltac:(fail).
  - revert Hrun. apply getOutputInputProps_establishes. cbn [accept].
    unfold visitPhysicalValues. establish ltac:(apply Hlocal).
  - revert Hrun. apply getOutputInputProps_establishes. cbn [accept].
    unfold visitPhysicalRepeat, visitPassThrough. rewrite active.
    establish ltac:(apply Hlocal).
  - revert Hrun. apply getOutputInputProps_establishes. cbn [accept].
    unfold visitPhysicalFilter, visitPassThrough. rewrite active.
    establish ltac:(apply Hlocal).
  - revert Hrun. apply getOutputInputProps_establishes. cbn [accept].
    unfold visitPhysicalTableFunction, visitPassThrough. rewrite active.
    establish ltac:(apply Hlocal).
  - revert Hrun. apply getOutputInputProps_establishes. apply establishes_ret.
Qed.

End PropagatedOutput.

(** C2, amended: when no local requirement is active, a returned alternative
    has a local hash distribution as its output property only where the
    operator offers one of its own: the single-phase local alternative of a
    hash aggregate or a window, whose child requirement is that same
    property, and the intrinsic bucket distribution of an OLAP scan; no
    alternative of any other operator kind has a local output then.  When a
    local requirement is active, every returned alternative has a local
    output: the propagated requirement, or for a window the local
    distribution on its partition columns. *)
Theorem local_output_origin `{U : JoinPredicateUtils}
    (requirements : PhysicalPropertySet) (env : Environment)
    (op : Operator) (context : ExpressionContext) (l : list Alternative) :
  getOutputInputProps requirements env op context = Ok l ->
  match getRequiredLocalDesc requirements with
  | None =>
      Forall (fun alt =>
                outputIsLocal alt = true ->
                match op with
                | PhysicalHashAggregate _ | PhysicalAnalytic _ =>
                    childRequiredProperties alt = [outputProperty alt]
                | PhysicalOlapScan node =>
                    alt = (PhysicalPropertySet_ofDistribution
                             (HashDistributionSpec (getDistributionSpec node)), [])
                | _ => False
                end) l
  | Some _ => Forall (fun alt => outputIsLocal alt = true) l
  end.
Proof.
  intros Hrun.
  destruct (getRequiredLocalDesc requirements) as [required |] eqn:Hreq.
  - eapply accept_propagates; eassumption.
  - eapply (getOutputInputProps_establishes (localOutputOrigin op));
      [apply accept_local_output_origin; exact Hreq | exact Hrun].
Qed.

Lemma local_output_origin_witness :
  Forall (fun alt => outputIsLocal alt = true -> False)
         [broadcastAlternative; shuffleAlternative [1] [4]].
Proof.
  apply (local_output_origin (U := SpecJoinPredicateUtils) Sample.anyRequirement
           Sample.noScanEnv (PhysicalHashJoin Sample.innerJoin) Sample.joinContext).
  vm_compute. reflexivity.
Defined.

(** ** Local-requirement filtering on a join *)

(** [unionAll] collects exactly the listed columns, so the containment test
    of the filtering step says that every required column is an output
    column of the child. *)
Lemma elem_of_unionAll (cols : list Z) (c : Z) : c ∈ unionAll cols <-> c ∈ cols.
Proof.
  unfold unionAll.
  assert (forall acc : gset Z,
             c ∈ foldl (fun acc c => acc ∪ {[c]}) acc cols <-> c ∈ acc \/ c ∈ cols) as Hgen.
  { induction cols as [| x cols IH]; intros acc; cbn [foldl].
    - split; [auto | intros [H | H]; [exact H | inversion H]].
    - rewrite IH, elem_of_union, elem_of_singleton, elem_of_cons. tauto. }
  rewrite Hgen, elem_of_empty. tauto.
Qed.

Lemma contains_unionAll (s : gset Z) (cols : list Z) :
  contains s (unionAll cols) = true <-> forall c, c ∈ cols -> c ∈ s.
Proof.
  unfold contains. rewrite bool_decide_eq_true. split.
  - intros Hsub c Hc. apply Hsub, elem_of_unionAll, Hc.
  - intros Hall c Hc. apply Hall, elem_of_unionAll, Hc.
Qed.

Lemma listGet_lookup {A : Type} (l : list A) (i : Z) (a : A) :
  listGet l i = Ok a -> l !! Z.to_nat i = Some a.
Proof.
  unfold listGet. destruct (bool_decide (i < 0)); [discriminate |].
  destruct (l !! Z.to_nat i); [congruence | discriminate].
Qed.

Lemma listGet_lookup_0 {A : Type} (l : list A) (a : A) : listGet l 0 = Ok a -> l !! 0%nat = Some a.
Proof. apply (listGet_lookup l 0). Qed.

Lemma listGet_lookup_1 {A : Type} (l : list A) (a : A) : listGet l 1 = Ok a -> l !! 1%nat = Some a.
Proof. apply (listGet_lookup l 1). Qed.

Section JoinFiltering.
Context `{U : JoinPredicateUtils}.
Variable requirements : PhysicalPropertySet.
Variable env : Environment.

Lemma visitPhysicalHashJoin_ends_filtering (P : list Alternative -> Prop) node context :
  ensures P (visitJoinRequirements requirements node context) ->
  ensures P (visitPhysicalHashJoin requirements env node context).
Proof.
  intros Hfinal. unfold visitPhysicalHashJoin. ensure_last Hfinal.
Qed.

Lemma visitJoinRequirements_filteredFor node context required leftGroup rightGroup :
  getRequiredLocalDesc requirements = Some required ->
  children context = [leftGroup; rightGroup] ->
  ensures (filteredFor requirements required
                       (outputColumns leftGroup) (outputColumns rightGroup))
          (visitJoinRequirements requirements node context).
Proof.
  intros Hreq Hchildren props u props' Hrun.
  unfold visitJoinRequirements, getChildOutputColumns in Hrun.
  rewrite Hreq, Hchildren, listGet_0, listGet_1 in Hrun.
  cbn [fmap Result_fmap] in Hrun. cbv zeta in Hrun.
  rewrite !bind_lift_Ok in Hrun.
  unfold filteredFor.
  destruct (contains (outputColumns leftGroup) _), (contains (outputColumns rightGroup) _);
    [ rewrite bool_decide_eq_true_2 in Hrun by reflexivity
    | rewrite bool_decide_eq_false_2 in Hrun by discriminate
    | rewrite bool_decide_eq_false_2 in Hrun by discriminate
    | rewrite bool_decide_eq_true_2 in Hrun by reflexivity ];
    deriver_unfold.
  - inversion Hrun; subst. reflexivity.
  - destruct (forEachCollect _ props) as [r | e] eqn:Hloop; [| discriminate].
    inversion Hrun; subst.
    eapply (forEachCollect_Forall _ (fun _ => True)); [| apply Forall_true; auto | exact Hloop].
    intros a b _ Hb.
    apply keepForLeft_cases in Hb as (left_ & right_ & Hl & _ & [[_ ->] | [Hwithin ->]]).
    + exists (distributeRequirements requirements). split; [reflexivity | left; reflexivity].
    + exists left_. split; [apply listGet_lookup_0; exact Hl | right; exact Hwithin].
  - destruct (forEachCollect _ props) as [r | e] eqn:Hloop; [| discriminate].
    inversion Hrun; subst.
    eapply (forEachCollect_Forall _ (fun _ => True)); [| apply Forall_true; auto | exact Hloop].
    intros a b _ Hb.
    apply keepForRight_cases in Hb as (right_ & Hr & Hwithin & ->).
    exists right_. split; [apply listGet_lookup_1; exact Hr | right; exact Hwithin].
  - inversion Hrun; subst. reflexivity.
Qed.

End JoinFiltering.

(** As stated, C1 fails: required local on columns 1 and 2, which only the
    left child outputs, the bucket-shuffle alternative survives with a left
    requirement that is local on column 1 alone: a subset of the required
    columns, not a superset. *)
Lemma C1_counterexample :
  getOutputInputProps (H := SpecJoinPredicateUtils) (Sample.localRequirement [1; 2]) Sample.env
    (PhysicalHashJoin Sample.innerJoin) Sample.joinContext
  = Ok [(Sample.localRequirement [1; 2],
         [Sample.localRequirement [1; 2];
          PhysicalPropertySet_ofDistribution ReplicatedDistributionSpec]);
        (Sample.localRequirement [1; 2],
         [Sample.localRequirement [1];
          PhysicalPropertySet_ofDistribution
            (HashDistributionSpec (mkHashDistributionDesc [4] SHUFFLE_JOIN))])]
  /\ contains {[1; 2; 3]} (unionAll [1; 2]) = true
  /\ contains {[4; 5]} (unionAll [1; 2]) = false
  /\ ~ Forall (coversOnSide (Sample.localRequirement [1; 2])
                            (mkHashDistributionDesc [1; 2] LOCAL) 0)
        [(Sample.localRequirement [1; 2],
          [Sample.localRequirement [1; 2];
           PhysicalPropertySet_ofDistribution ReplicatedDistributionSpec]);
         (Sample.localRequirement [1; 2],
          [Sample.localRequirement [1];
           PhysicalPropertySet_ofDistribution
             (HashDistributionSpec (mkHashDistributionDesc [4] SHUFFLE_JOIN))])].
Proof.
  split; [vm_compute; reflexivity |].
  split; [vm_compute; reflexivity |].
  split; [vm_compute; reflexivity |].
  intros Hall. inversion Hall as [| a1 l1 _ Hrest]; subst.
  inversion Hrest as [| a2 l2 Hcovers _]; subst.
  destruct Hcovers as (p & Hp & Hcase). cbn in Hp. injection Hp as <-.
  destruct Hcase as [Hexact | (desc & Hdesc & _ & Hsub)].
  - discriminate Hexact.
  - cbn in Hdesc. injection Hdesc as <-. cbn in Hsub.
    assert (2 ∈ [1]) as Hin by (apply Hsub; set_solver).
    inversion Hin as [| ? ? ? Hin']; inversion Hin'.
Qed.

(** C1, amended: under a requirement Hash(Local, R) on a hash join with two
    children, if R lies within the output columns of exactly one child,
    every returned alternative asks of that child either the exact
    requirement (where the alternative asked Any of the left child) or a
    local hash distribution all of whose columns are among R, that is a
    column subset of R; if R lies within both children's outputs or within
    neither, the returned list is empty. *)
Theorem join_local_requirement_filter `{U : JoinPredicateUtils}
    (requirements : PhysicalPropertySet) (env : Environment)
    (node : PhysicalHashJoinOperator) (context : ExpressionContext)
    (required : HashDistributionDesc) (leftGroup rightGroup : ChildGroup)
    (l : list Alternative) :
  getRequiredLocalDesc requirements = Some required ->
  children context = [leftGroup; rightGroup] ->
  getOutputInputProps requirements env (PhysicalHashJoin node) context = Ok l ->
  match contains (outputColumns leftGroup) (unionAll (getColumns required)),
        contains (outputColumns rightGroup) (unionAll (getColumns required)) with
  | true, false => Forall (keptOnSide requirements required 0) l
  | false, true => Forall (keptOnSide requirements required 1) l
  | _, _ => l = []
  end.
Proof.
  intros Hreq Hchildren Hrun.
  eapply (getOutputInputProps_ensures
            (filteredFor requirements required
                         (outputColumns leftGroup) (outputColumns rightGroup)));
    [| exact Hrun].
  cbn [accept]. apply visitPhysicalHashJoin_ends_filtering.
  apply visitJoinRequirements_filteredFor; assumption.
Qed.

Lemma join_local_requirement_filter_witness :
  Forall (keptOnSide (Sample.localRequirement [1; 2]) (mkHashDistributionDesc [1; 2] LOCAL) 0)
    [(Sample.localRequirement [1; 2],
      [Sample.localRequirement [1; 2];
       PhysicalPropertySet_ofDistribution ReplicatedDistributionSpec]);
     (Sample.localRequirement [1; 2],
      [Sample.localRequirement [1];
       PhysicalPropertySet_ofDistribution
         (HashDistributionSpec (mkHashDistributionDesc [4] SHUFFLE_JOIN))])].
Proof.
  apply (join_local_requirement_filter (U := SpecJoinPredicateUtils)
           (Sample.localRequirement [1; 2]) Sample.env Sample.innerJoin Sample.joinContext
           (mkHashDistributionDesc [1; 2] LOCAL) Sample.groupA Sample.groupB).
  - reflexivity.
  - reflexivity.
  - vm_compute. reflexivity.
Defined.

(** ** Hash join: broadcast first, shuffle next *)

Lemma indexOf_range (l : list Z) (x : Z) :
  x ∈ l -> 0 <= indexOf l x < Z.of_nat (length l).
Proof.
  induction l as [| y l IH]; intros Hin.
  - inversion Hin.
  - cbn [indexOf length]. destruct (bool_decide (y = x)) eqn:Hyx; [lia |].
    apply bool_decide_eq_false_1 in Hyx.
    assert (x ∈ l) as Hin' by (inversion Hin; subst; [congruence | assumption]).
    specialize (IH Hin').
    destruct (bool_decide (indexOf l x = -1)) eqn:Hneg.
    + apply bool_decide_eq_true_1 in Hneg. lia.
    + lia.
Qed.

Lemma listGet_in_range {A : Type} (l : list A) (i : Z) :
  0 <= i < Z.of_nat (length l) -> exists a, listGet l i = Ok a.
Proof.
  intros Hi. unfold listGet.
  rewrite bool_decide_eq_false_2 by lia.
  destruct (l !! Z.to_nat i) as [a |] eqn:Hlook; [eauto |].
  apply lookup_ge_None_1 in Hlook. lia.
Qed.

Lemma forEachCollect_returns {A B : Type} (body : A -> Result (option B)) (l : list A) :
  (forall a, a ∈ l -> exists o, body a = Ok o) ->
  exists r, forEachCollect body l = Ok r.
Proof.
  induction l as [| a l IH]; intros Hbody; [eexists; reflexivity |].
  destruct (Hbody a) as [o Ho]; [left |].
  destruct IH as [r Hr]; [intros a' Ha'; apply Hbody; right; exact Ha' |].
  cbn. rewrite Ho, Hr. eexists; reflexivity.
Qed.

Section Appends.
Context {A B : Type}.

Lemma appends_ret (a : A) : appends (mret a).
Proof. intros props a' props' [= _ <-]. exists []. symmetry. apply app_nil_r. Qed.

Lemma appends_add (alt : Alternative) : appends (add alt).
Proof. intros props a' props' [= _ <-]. eexists. reflexivity. Qed.

Lemma appends_lift (r : Result A) : appends (lift r).
Proof.
  intros props a' props' Hrun. destruct r; inversion Hrun; subst.
  exists []. symmetry. apply app_nil_r.
Qed.

Lemma appends_bind (m : Deriver A) (f : A -> Deriver B) :
  appends m -> (forall a, appends (f a)) -> appends (m ≫= f).
Proof.
  intros Hm Hf props b props'' Hrun. unfold mbind, Deriver_bind in Hrun.
  destruct (m props) as [[a props'] | e] eqn:Hmrun; [| discriminate].
  apply Hm in Hmrun as [more1 ->]. apply Hf in Hrun as [more2 ->].
  exists (more1 ++ more2). symmetry. apply app_assoc.
Qed.

Lemma returns_bind (m : Deriver A) (f : A -> Deriver B) :
  returns m -> (forall a, returns (f a)) -> returns (m ≫= f).
Proof.
  intros Hm Hf props. destruct (Hm props) as (a & props' & Hmrun).
  destruct (Hf a props') as (b & props'' & Hfrun).
  exists b, props''. unfold mbind, Deriver_bind. rewrite Hmrun. exact Hfrun.
Qed.

Lemma returns_ret (a : A) : returns (mret a).
Proof. intros props. eexists _, _. reflexivity. Qed.

Lemma returns_add (alt : Alternative) : returns (add alt).
Proof. intros props. eexists _, _. reflexivity. Qed.

Lemma returns_lift_Ok (a : A) : returns (lift (Ok a)).
Proof. intros props. eexists _, _. reflexivity. Qed.
End Appends.

Ltac appends_step :=
  first
    [ apply appends_ret
    | apply appends_lift
    | apply appends_add
    | apply appends_bind; [| intros ?]
    | match goal with
      | |- appends (if ?c then _ else _) => destruct c
      | |- appends (match ?x with _ => _ end) => destruct x
      end ].

Section ShuffleStep.
Context `{U : JoinPredicateUtils}.
Variable requirements : PhysicalPropertySet.
Variable env : Environment.

Lemma tryColocate_appends leftShuffle rightShuffle :
  appends (tryColocate env leftShuffle rightShuffle).
Proof. unfold tryColocate. cbv zeta. repeat appends_step. Qed.

Lemma tryBucketShuffle_appends node leftShuffle rightShuffle :
  appends (tryBucketShuffle env node leftShuffle rightShuffle).
Proof. unfold tryBucketShuffle. cbv zeta. repeat appends_step. Qed.

Lemma findLogicalOlapScanOperator_elem distributionSpec scan :
  findLogicalOlapScanOperator env distributionSpec = Some scan ->
  scan ∈ getAllScanOperators env.
Proof.
  unfold findLogicalOlapScanOperator. intros Hfind.
  apply find_some in Hfind as [Hin _]. apply list_elem_of_In. exact Hin.
Qed.

Lemma tryColocate_returns leftShuffle rightShuffle :
  colocateConsistent env -> returns (tryColocate env leftShuffle rightShuffle).
Proof.
  intros Hconsistent. unfold tryColocate. cbv zeta.
  destruct (_ || _); [apply returns_ret |].
  destruct (findLogicalOlapScanOperator env leftShuffle) as [left_ |] eqn:Hl;
    [| apply returns_ret].
  destruct (findLogicalOlapScanOperator env rightShuffle) as [right_ |] eqn:Hr;
    [| apply returns_ret].
  destruct (_ && _).
  - destruct (_ || _); [apply returns_ret | apply returns_add].
  - destruct (isSameGroup env (getTableId left_) (getTableId right_)) eqn:Hsame;
      cbn [negb]; [| apply returns_ret].
    destruct (isGroupUnstable env _); [apply returns_ret |].
    rewrite bool_decide_eq_true_2.
    + apply returns_bind; [apply returns_lift_Ok | intros _].
      repeat match goal with
             | |- returns (if ?c then _ else _) => destruct c
             end; first [apply returns_ret | apply returns_add].
    + apply Hconsistent; [eapply findLogicalOlapScanOperator_elem; eassumption .. | exact Hsame].
Qed.

Lemma tryBucketShuffle_returns node leftShuffle rightShuffle :
  length (getShuffleColumns leftShuffle) = length (getShuffleColumns rightShuffle) ->
  returns (tryBucketShuffle env node leftShuffle rightShuffle).
Proof.
  intros Hlen. unfold tryBucketShuffle. cbv zeta.
  destruct (JoinOperator.isCrossJoin _); [apply returns_ret |].
  destruct (findLogicalOlapScanOperator env leftShuffle) as [left_ |];
    [| apply returns_ret].
  destruct (negb (bool_decide (length _ = 1%nat))); [apply returns_ret |].
  destruct (containsAll _ _) eqn:Hall; cbn [negb]; [| apply returns_ret].
  apply bool_decide_eq_true_1 in Hall.
  destruct (forEachCollect_returns
              (fun leftScanColumn =>
                 Some <$> listGet (getShuffleColumns rightShuffle)
                                  (indexOf (getShuffleColumns leftShuffle) leftScanColumn))
              (getShuffleColumns (getDistributionSpec left_))) as [r Hr].
  { intros c Hc. apply Hall in Hc. apply indexOf_range in Hc. rewrite Hlen in Hc.
    apply listGet_in_range in Hc as [a Ha]. rewrite Ha. eexists; reflexivity. }
  rewrite Hr. apply returns_bind; [apply returns_lift_Ok | intros ?; apply returns_add].
Qed.

End ShuffleStep.

(** C4: for an inner join with at least one equality conjunct between the
    two sides, no hint, no child limits and no active local requirement, the
    returned list starts with the broadcast alternative (left Any, right
    replicated), followed by the shuffle alternative on the paired
    left and right columns, which are equally many; further alternatives may
    follow.  The derivation returns whenever the predicate helper pairs the
    columns one to one and the catalog is consistent. *)
Theorem inner_equi_join_broadcast_then_shuffle `{U : JoinPredicateUtils}
    (requirements : PhysicalPropertySet) (env : Environment)
    (node : PhysicalHashJoinOperator) (context : ExpressionContext)
    (leftGroup rightGroup : ChildGroup) :
  children context = [leftGroup; rightGroup] ->
  hasLimit (childOperator leftGroup) = false ->
  hasLimit (childOperator rightGroup) = false ->
  getRequiredLocalDesc requirements = None ->
  getJoinType node = JoinOperator.INNER_JOIN ->
  getJoinHint node = None ->
  equalOnPredicateOf node leftGroup rightGroup <> [] ->
  (forall l,
     getOutputInputProps requirements env (PhysicalHashJoin node) context = Ok l ->
     length (onPredicateColumnsOf node leftGroup rightGroup).1
     = length (onPredicateColumnsOf node leftGroup rightGroup).2
     /\ exists rest,
          l = broadcastAlternative
              :: shuffleAlternative (onPredicateColumnsOf node leftGroup rightGroup).1
                                    (onPredicateColumnsOf node leftGroup rightGroup).2
              :: rest)
  /\ (length (onPredicateColumnsOf node leftGroup rightGroup).1
      = length (onPredicateColumnsOf node leftGroup rightGroup).2 ->
      colocateConsistent env ->
      exists l, getOutputInputProps requirements env (PhysicalHashJoin node) context = Ok l).
Proof.
  intros Hchildren Hl Hr Hreq Hjt Hhint Hne.
  unfold getOutputInputProps, accept, visitPhysicalHashJoin.
  unfold getChildOperator, getChildOutputColumns.
  rewrite Hchildren, listGet_0, listGet_1. cbn [fmap Result_fmap].
  rewrite !bind_lift_Ok, Hl, Hr. cbn [orb].
  rewrite bind_add, !bind_lift_Ok. cbv zeta.
  fold (equalOnPredicateOf node leftGroup rightGroup).
  fold (onPredicateColumnsOf node leftGroup rightGroup).
  rewrite Hjt, Hhint.
  rewrite (bool_decide_eq_false_2 (equalOnPredicateOf node leftGroup rightGroup = []))
    by exact Hne.
  match goal with
  | |- context [if ?c then _ else _] => change c with false
  end.
  cbv iota.
  match goal with
  | |- context [if ?c then clear else _] => change c with false
  end.
  cbv iota. rewrite bind_ret.
  set (cols := onPredicateColumnsOf node leftGroup rightGroup).
  destruct (bool_decide (length cols.1 = length cols.2)) eqn:Hlen; cbn [checkState].
  2: { rewrite bind_lift_Throw. apply bool_decide_eq_false_1 in Hlen.
       split; [intros l Hrun; discriminate Hrun | intros Hlen'; contradiction]. }
  apply bool_decide_eq_true_1 in Hlen.
  rewrite bind_lift_Ok, bind_add.
  change (equalsIgnoreCase "SHUFFLE" None) with false.
  change (equalsIgnoreCase "BUCKET" None) with false.
  cbv iota. cbn [negb app].
  destruct (existsb _ _).
  { rewrite visitJoinRequirements_inactive by exact Hreq. cbn.
    split.
    - intros l [= <-]. split; [exact Hlen | exists []; reflexivity].
    - intros _ _. eexists; reflexivity. }
  split.
  - intros l Hrun. split; [exact Hlen |].
    unfold mbind, Deriver_bind in Hrun.
    destruct (tryColocate _ _ _ _) as [[u1 props1] | e] eqn:Hcolocate; [| discriminate].
    destruct (tryBucketShuffle _ _ _ _ _) as [[u2 props2] | e] eqn:Hbucket; [| discriminate].
    rewrite visitJoinRequirements_inactive in Hrun by exact Hreq.
    cbn in Hrun. injection Hrun as <-.
    apply tryColocate_appends in Hcolocate as [more1 ->].
    apply tryBucketShuffle_appends in Hbucket as [more2 ->].
    exists (more1 ++ more2). reflexivity.
  - intros _ Hconsistent.
    unfold mbind, Deriver_bind.
    match goal with
    | |- context [tryColocate env ?a ?b ?p] =>
        destruct (tryColocate_returns env a b Hconsistent p) as (u1 & props1 & ->)
    end.
    match goal with
    | |- context [tryBucketShuffle env node ?a ?b ?p] =>
        destruct (tryBucketShuffle_returns env node a b Hlen p) as (u2 & props2 & ->)
    end.
    rewrite visitJoinRequirements_inactive by exact Hreq.
    eexists; reflexivity.
Qed.

(** ** The pairing assertion of the shuffle step *)

Section ReturnsOn.
Context {A B : Type} (I : Alternative -> Prop).

Lemma returnsOn_ret (a : A) : returnsOn I (mret a).
Proof. intros props _. eexists _, _. reflexivity. Qed.

Lemma returnsOn_add (alt : Alternative) : returnsOn I (add alt).
Proof. intros props _. eexists _, _. reflexivity. Qed.

Lemma returnsOn_clear : returnsOn I clear.
Proof. intros props _. eexists _, _. reflexivity. Qed.

Lemma returnsOn_lift_Ok (a : A) : returnsOn I (lift (Ok a)).
Proof. intros props _. eexists _, _. reflexivity. Qed.

Lemma returns_returnsOn (m : Deriver A) : returns m -> returnsOn I m.
Proof. intros Hm props _. apply Hm. Qed.

Lemma returnsOn_bind (m : Deriver A) (f : A -> Deriver B) :
  returnsOn I m -> establishes I m -> (forall a, returnsOn I (f a)) ->
  returnsOn I (m ≫= f).
Proof.
  intros Hm Hest Hf props HI. destruct (Hm props HI) as (a & props' & Hmrun).
  destruct (Hf a props') as (b & props'' & Hfrun).
  { eapply Hest; eassumption. }
  exists b, props''. unfold mbind, Deriver_bind. rewrite Hmrun. exact Hfrun.
Qed.
End ReturnsOn.

Lemma specGetJoinOnPredicatesColumns_paired equalOnPredicates leftColumns rightColumns :
  length (specGetJoinOnPredicatesColumns equalOnPredicates leftColumns rightColumns).1
  = length (specGetJoinOnPredicatesColumns equalOnPredicates leftColumns rightColumns).2.
Proof. unfold specGetJoinOnPredicatesColumns. cbn. rewrite !length_fmap. reflexivity. Qed.

Section PairingAssertion.
Context `{U : JoinPredicateUtils}.
Variable requirements : PhysicalPropertySet.
Variable env : Environment.

Lemma keepForLeft_returns required a :
  hasArity 2 a -> exists o, keepForLeft requirements required a = Ok o.
Proof.
  destruct a as [out [| x [| y [| z rest]]]]; intros Ha; try discriminate Ha.
  unfold keepForLeft. cbn [snd]. rewrite listGet_0, listGet_1. deriver_unfold.
  destruct (isAny _); [eexists; reflexivity |].
  destruct (getDistributionProperty x); try (eexists; reflexivity).
  destruct (_ && _); eexists; reflexivity.
Qed.

Lemma keepForRight_returns required a :
  hasArity 2 a -> exists o, keepForRight requirements required a = Ok o.
Proof.
  destruct a as [out [| x [| y [| z rest]]]]; intros Ha; try discriminate Ha.
  unfold keepForRight. cbn [snd]. rewrite listGet_1. deriver_unfold.
  destruct (getDistributionProperty y); try (eexists; reflexivity).
  destruct (_ && _); eexists; reflexivity.
Qed.

Lemma visitJoinRequirements_returns node context leftGroup rightGroup :
  children context = [leftGroup; rightGroup] ->
  returnsOn (hasArity 2) (visitJoinRequirements requirements node context).
Proof.
  intros Hchildren props Harity.
  unfold visitJoinRequirements, getChildOutputColumns.
  destruct (getRequiredLocalDesc requirements) as [required |];
    [| eexists _, _; reflexivity].
  rewrite Hchildren, listGet_0, listGet_1. cbn [fmap Result_fmap]. cbv zeta.
  rewrite !bind_lift_Ok.
  destruct (bool_decide _); [eexists _, _; reflexivity |].
  destruct (contains (outputColumns leftGroup) _).
  - destruct (forEachCollect_returns (keepForLeft requirements required) props) as [r Hr].
    { intros a Ha. apply keepForLeft_returns.
      rewrite Forall_forall in Harity. apply Harity. exact Ha. }
    deriver_unfold. rewrite Hr. eexists _, _; reflexivity.
  - destruct (forEachCollect_returns (keepForRight requirements required) props) as [r Hr].
    { intros a Ha. apply keepForRight_returns.
      rewrite Forall_forall in Harity. apply Harity. exact Ha. }
    deriver_unfold. rewrite Hr. eexists _, _; reflexivity.
Qed.

Lemma tryColocate_arity leftShuffle rightShuffle :
  establishes (hasArity 2) (tryColocate env leftShuffle rightShuffle).
Proof. unfold tryColocate. establish ltac:(exact eq_refl). Qed.

Lemma tryBucketShuffle_arity node leftShuffle rightShuffle :
  establishes (hasArity 2) (tryBucketShuffle env node leftShuffle rightShuffle).
Proof. unfold tryBucketShuffle. establish ltac:(exact eq_refl). Qed.

Ltac returns_step Hfilter Hconsistent Hlen :=
  first
    [ exact Hfilter
    | apply returnsOn_ret
    | apply returnsOn_add
    | apply returnsOn_clear
    | apply returnsOn_lift_Ok
    | apply returns_returnsOn, tryColocate_returns; exact Hconsistent
    | apply returns_returnsOn, tryBucketShuffle_returns; exact Hlen
    | apply returnsOn_bind;
      [ | establish ltac:(exact eq_refl);
          first [ apply tryColocate_arity | apply tryBucketShuffle_arity ]
        | intros ? ]
    | match goal with
      | |- returnsOn _ (if ?c then _ else _) => destruct c
      end ].

(** The join rule returns when the helper pairs the columns one to one and
    the catalog is consistent. *)
Lemma visitPhysicalHashJoin_returns node context leftGroup rightGroup :
  children context = [leftGroup; rightGroup] ->
  length (onPredicateColumnsOf node leftGroup rightGroup).1
  = length (onPredicateColumnsOf node leftGroup rightGroup).2 ->
  colocateConsistent env ->
  returnsOn (hasArity 2) (visitPhysicalHashJoin requirements env node context).
Proof.
  intros Hchildren Hlen Hconsistent.
  pose proof (visitJoinRequirements_returns node context _ _ Hchildren) as Hfilter.
  unfold visitPhysicalHashJoin, getChildOperator, getChildOutputColumns.
  rewrite Hchildren, listGet_0, listGet_1. cbn [fmap Result_fmap]. cbv zeta.
  rewrite !bind_lift_Ok_eta.
  destruct (_ || _); [repeat returns_step Hfilter Hconsistent Hlen |].
  apply returnsOn_bind;
    [apply returnsOn_add | establish ltac:(exact eq_refl) | intros _].
  rewrite ?bind_lift_Ok_eta.
  fold (equalOnPredicateOf node leftGroup rightGroup).
  fold (onPredicateColumnsOf node leftGroup rightGroup).
  rewrite (bool_decide_eq_true_2 _ Hlen). cbn [checkState].
  repeat returns_step Hfilter Hconsistent Hlen.
Qed.


End PairingAssertion.

(** C8: in the shuffle step the left and right column lists taken from the
    equality conjuncts must be equally long.  A helper that pairs the
    columns by predicate position, one left and one right column per
    conjunct, always meets this, and then, on a consistent catalog, the join
    rule returns without throwing.  When a join reaches the shuffle step
    with lists of different lengths, the derivation throws
    [IllegalStateException] whatever the requirement: the mismatch is fatal
    and no list of alternatives is returned. *)
Theorem shuffle_pairing_assertion `{U : JoinPredicateUtils}
    (requirements : PhysicalPropertySet) (env : Environment)
    (node : PhysicalHashJoinOperator) (context : ExpressionContext)
    (leftGroup rightGroup : ChildGroup) :
  children context = [leftGroup; rightGroup] ->
  (length (onPredicateColumnsOf node leftGroup rightGroup).1
   = length (onPredicateColumnsOf node leftGroup rightGroup).2 ->
   colocateConsistent env ->
   exists l, getOutputInputProps requirements env (PhysicalHashJoin node) context = Ok l)
  /\ (hasLimit (childOperator leftGroup) = false ->
      hasLimit (childOperator rightGroup) = false ->
      broadcastOnly node leftGroup rightGroup = false ->
      length (onPredicateColumnsOf node leftGroup rightGroup).1
      <> length (onPredicateColumnsOf node leftGroup rightGroup).2 ->
      getOutputInputProps requirements env (PhysicalHashJoin node) context
      = Throw IllegalStateException)
  /\ (forall equalOnPredicates leftColumns rightColumns,
        length (specGetJoinOnPredicatesColumns equalOnPredicates leftColumns rightColumns).1
        = length (specGetJoinOnPredicatesColumns equalOnPredicates leftColumns rightColumns).2).
Proof.
  intros Hchildren. split; [| split].
  - intros Hlen Hconsistent.
    destruct (visitPhysicalHashJoin_returns requirements env node context _ _
                Hchildren Hlen Hconsistent []) as (u & props & Hrun); [constructor |].
    exists props. unfold getOutputInputProps, accept. rewrite Hrun. reflexivity.
  - intros Hl Hr Hshort Hlen.
    unfold getOutputInputProps, accept, visitPhysicalHashJoin.
    unfold getChildOperator, getChildOutputColumns.
    rewrite Hchildren, listGet_0, listGet_1. cbn [fmap Result_fmap].
    rewrite !bind_lift_Ok, Hl, Hr. cbn [orb].
    rewrite bind_add, !bind_lift_Ok. cbv zeta.
    fold (equalOnPredicateOf node leftGroup rightGroup).
    fold (onPredicateColumnsOf node leftGroup rightGroup).
    fold (broadcastOnly node leftGroup rightGroup). rewrite Hshort.
    rewrite (bool_decide_eq_false_2 _ Hlen). cbn [checkState].
    destruct (_ || _); [rewrite bind_clear | rewrite bind_ret];
      rewrite bind_lift_Throw; reflexivity.
  - apply specGetJoinOnPredicatesColumns_paired.
Qed.

Lemma shuffle_pairing_assertion_witness :
  (exists l,
     getOutputInputProps (H := SpecJoinPredicateUtils) Sample.anyRequirement Sample.env
       (PhysicalHashJoin Sample.innerJoin) Sample.joinContext = Ok l)
  /\ getOutputInputProps (H := MismatchedJoinPredicateUtils) Sample.anyRequirement Sample.env
       (PhysicalHashJoin Sample.innerJoin) Sample.joinContext
     = Throw IllegalStateException.
Proof.
  split.
  - apply (shuffle_pairing_assertion (U := SpecJoinPredicateUtils)
             Sample.anyRequirement Sample.env Sample.innerJoin Sample.joinContext
             Sample.groupA Sample.groupB eq_refl).
    + vm_compute. reflexivity.
    + intros s1 s2 _ _ Hsame. discriminate Hsame.
  - apply (shuffle_pairing_assertion (U := MismatchedJoinPredicateUtils)
             Sample.anyRequirement Sample.env Sample.innerJoin Sample.joinContext
             Sample.groupA Sample.groupB eq_refl).
    + reflexivity.
    + reflexivity.
    + vm_compute. reflexivity.
    + vm_compute. discriminate.
Defined.

Lemma inner_equi_join_broadcast_then_shuffle_witness :
  exists rest,
    getOutputInputProps (H := SpecJoinPredicateUtils) Sample.anyRequirement Sample.env
      (PhysicalHashJoin Sample.innerJoin) Sample.joinContext
    = Ok (broadcastAlternative :: shuffleAlternative [1] [4] :: rest).
Proof.
  destruct (inner_equi_join_broadcast_then_shuffle (U := SpecJoinPredicateUtils)
              Sample.anyRequirement Sample.env Sample.innerJoin Sample.joinContext
              Sample.groupA Sample.groupB) as [Hshape Hreturns].
  - reflexivity.
  - reflexivity.
  - reflexivity.
  - reflexivity.
  - reflexivity.
  - reflexivity.
  - vm_compute. discriminate.
  - destruct Hreturns as [l Hl].
    + vm_compute. reflexivity.
    + intros s1 s2 _ _ Hsame. discriminate Hsame.
    + destruct (Hshape l Hl) as [_ [rest ->]]. exists rest. exact Hl.
Defined.

(** ** Hash join: the broadcast-only cases *)

(** The join rule from the shuffle step on, for a join without child limits
    that is not cut short after the broadcast alternative. *)
Lemma visitPhysicalHashJoin_shuffle_step `{U : JoinPredicateUtils}
    (requirements : PhysicalPropertySet) (env : Environment)
    (node : PhysicalHashJoinOperator) (context : ExpressionContext)
    (leftGroup rightGroup : ChildGroup) :
  children context = [leftGroup; rightGroup] ->
  hasLimit (childOperator leftGroup) = false ->
  hasLimit (childOperator rightGroup) = false ->
  broadcastOnly node leftGroup rightGroup = false ->
  length (onPredicateColumnsOf node leftGroup rightGroup).1
  = length (onPredicateColumnsOf node leftGroup rightGroup).2 ->
  visitPhysicalHashJoin requirements env node context []
  = (let leftDistribution :=
       mkHashDistributionDesc (onPredicateColumnsOf node leftGroup rightGroup).1
                              SHUFFLE_JOIN in
     let rightDistribution :=
       mkHashDistributionDesc (onPredicateColumnsOf node leftGroup rightGroup).2
                              SHUFFLE_JOIN in
     if equalsIgnoreCase "SHUFFLE" (getJoinHint node)
     then visitJoinRequirements requirements node context
     else if existsb (fun p => negb (isColumnToColumnBinaryPredicate p))
                     (equalOnPredicateOf node leftGroup rightGroup)
     then visitJoinRequirements requirements node context
     else (if negb (equalsIgnoreCase "BUCKET" (getJoinHint node))
           then tryColocate env leftDistribution rightDistribution else mret tt);;
          tryBucketShuffle env node leftDistribution rightDistribution;;
          visitJoinRequirements requirements node context)
      ((if JoinOperator.isRightJoin (getJoinType node)
           || JoinOperator.isFullOuterJoin (getJoinType node)
           || equalsIgnoreCase "SHUFFLE" (getJoinHint node)
        then [] else [broadcastAlternative])
       ++ [shuffleAlternative (onPredicateColumnsOf node leftGroup rightGroup).1
                              (onPredicateColumnsOf node leftGroup rightGroup).2]).
Proof.
  intros Hchildren Hl Hr Hshort Hlen.
  unfold visitPhysicalHashJoin, getChildOperator, getChildOutputColumns.
  rewrite Hchildren, listGet_0, listGet_1. cbn [fmap Result_fmap].
  rewrite !bind_lift_Ok, Hl, Hr. cbn [orb].
  rewrite bind_add, !bind_lift_Ok. cbv zeta.
  fold (equalOnPredicateOf node leftGroup rightGroup).
  fold (onPredicateColumnsOf node leftGroup rightGroup).
  fold (broadcastOnly node leftGroup rightGroup). rewrite Hshort.
  rewrite (bool_decide_eq_true_2 _ Hlen). cbn [checkState].
  destruct (_ || _); [rewrite bind_clear | rewrite bind_ret];
    rewrite bind_lift_Ok, bind_add; reflexivity.
Qed.



(** In the model a [HashDistributionDesc] is built from any column list.  A
    left outer join without equality conjunct, hint and limits then goes on
    to the shuffle step, which adds an alternative on empty column lists:
    the list returned lies outside the data model. *)
Remark join_without_conjuncts_leaves_data_model :
  getOutputInputProps (H := SpecJoinPredicateUtils) Sample.anyRequirement Sample.noScanEnv
    (PhysicalHashJoin Sample.leftOuterJoinNoPredicate) Sample.joinContext
  = Ok [broadcastAlternative; shuffleAlternative [] []]
  /\ respectsDataModel [broadcastAlternative; shuffleAlternative [] []] = false.
Proof. split; vm_compute; reflexivity. Qed.



(** * Further properties of the deriver *)

(** ** The requirement is used through its distribution alone *)

(** X1: the derivation reads the required property only through its
    distribution: two requirements with the same distribution, whatever
    their sort orders, give the same result for every operator. *)
Theorem required_sort_ignored `{U : JoinPredicateUtils}
    (r1 r2 : PhysicalPropertySet) (env : Environment)
    (op : Operator) (context : ExpressionContext) :
  getDistributionProperty r1 = getDistributionProperty r2 ->
  getOutputInputProps r1 env op context = getOutputInputProps r2 env op context.
Proof.
  destruct r1 as [d1 s1], r2 as [d2 s2]. cbn. intros ->.
  destruct op; reflexivity.
Qed.

Lemma required_sort_ignored_witness :
  getOutputInputProps (H := SpecJoinPredicateUtils) Sample.sortedRequirement Sample.env
    (PhysicalHashJoin Sample.innerJoin) Sample.joinContext
  = getOutputInputProps (H := SpecJoinPredicateUtils) Sample.anyRequirement Sample.env
      (PhysicalHashJoin Sample.innerJoin) Sample.joinContext.
Proof.
  apply (required_sort_ignored (U := SpecJoinPredicateUtils)
           Sample.sortedRequirement Sample.anyRequirement).
  reflexivity.
Defined.

(** ** Leaf and unary operators *)

Lemma bool_decide_is_Some_None {A : Type} : bool_decide (is_Some (@None A)) = false.
Proof. reflexivity. Qed.

Lemma bool_decide_is_Some_Some {A : Type} (a : A) : bool_decide (is_Some (Some a)) = true.
Proof. reflexivity. Qed.

(** X2: an OLAP scan returns at most one alternative, without children.
    Without a local requirement it is unconstrained when more than one
    partition is selected and the table is not a colocate table, and the
    intrinsic bucket distribution otherwise.  Under a local requirement the
    selected partitions and the colocation play no part: if every intrinsic
    bucket column is among the required columns the one alternative promises
    the requirement, else the result is empty. *)
Theorem olap_scan_alternatives `{U : JoinPredicateUtils}
    (requirements : PhysicalPropertySet) (env : Environment)
    (node : OlapScanOperator) (context : ExpressionContext) :
  getOutputInputProps requirements env (PhysicalOlapScan node) context
  = Ok (match getRequiredLocalDesc requirements with
        | None =>
            [(if bool_decide (1 < length (getSelectedPartitionId node))%nat
                 && negb (isColocateTable env (getTableId node))
              then PhysicalPropertySet_EMPTY
              else PhysicalPropertySet_ofDistribution
                     (HashDistributionSpec (getDistributionSpec node)), [])]
        | Some required =>
            if containsAll (getColumns required) (getColumns (getDistributionSpec node))
            then [(distributeRequirements requirements, [])] else []
        end).
Proof.
  unfold getOutputInputProps, accept, visitPhysicalOlapScan.
  destruct (getRequiredLocalDesc requirements) as [required |]; cbv zeta;
    unfold getShuffleColumns.
  - destruct (_ && _); rewrite bind_add, bind_clear;
      destruct (containsAll _ _); reflexivity.
  - destruct (_ && _); reflexivity.
Qed.

(** X3: top-N, the four external scans, assert-one-row and the set
    operations offer nothing under a local requirement: the result is the
    empty list, whatever the context. *)
Theorem local_requirement_not_offered `{U : JoinPredicateUtils}
    (requirements : PhysicalPropertySet) (env : Environment)
    (op : Operator) (context : ExpressionContext) (required : HashDistributionDesc) :
  getRequiredLocalDesc requirements = Some required ->
  offersNoLocalAlternative op = true ->
  getOutputInputProps requirements env op context = Ok [].
Proof.
  intros Hreq Hop.
  destruct op; try discriminate Hop;
    unfold getOutputInputProps, accept, visitPhysicalTopN, visitPhysicalHiveScan,
      visitPhysicalSchemaScan, visitPhysicalMysqlScan, visitPhysicalEsScan,
      visitExternalScan, visitPhysicalAssertOneRow, visitPhysicalUnion,
      visitPhysicalExcept, visitPhysicalIntersect, processSetOperationChildProperty;
    rewrite Hreq; reflexivity.
Qed.

Lemma local_requirement_not_offered_witness :
  getOutputInputProps (H := SpecJoinPredicateUtils) (Sample.localRequirement [1]) Sample.env
    (PhysicalTopN MoreSamples.finalTopN) Sample.leafContext = Ok [].
Proof.
  apply (local_requirement_not_offered (U := SpecJoinPredicateUtils)
           (Sample.localRequirement [1]) Sample.env (PhysicalTopN MoreSamples.finalTopN)
           Sample.leafContext (mkHashDistributionDesc [1] LOCAL)); reflexivity.
Defined.

(** X4: without a local requirement a top-N returns exactly one alternative.
    Its output carries the order of the top-N in the final phase and none in
    the partial phase, and is gathered exactly in the split final phase; the
    child is asked to gather with its limit exactly when it has a limit and
    the top-N is final and not split.  So output and child are never both
    gathered. *)
Theorem topN_alternative `{U : JoinPredicateUtils}
    (requirements : PhysicalPropertySet) (env : Environment)
    (topN : PhysicalTopNOperator) (context : ExpressionContext) (child : LogicalOperator) :
  getRequiredLocalDesc requirements = None ->
  getChildOperator context 0 = Ok child ->
  exists out c,
    getOutputInputProps requirements env (PhysicalTopN topN) context = Ok [(out, [c])]
    /\ getSortProperty out
       = (if SortPhase.isFinal (getSortPhase topN) then getOrderSpec topN else [])
    /\ getDistributionProperty out
       = (if SortPhase.isFinal (getSortPhase topN) && topNIsSplit topN
          then GatherDistributionSpec None else AnyDistributionSpec)
    /\ c = (if hasLimit child && (SortPhase.isFinal (getSortPhase topN)
                                  && negb (topNIsSplit topN))
            then createLimitGatherProperty (getLimit child)
            else PhysicalPropertySet_EMPTY)
    /\ isGather (getDistributionProperty out) && isGather (getDistributionProperty c) = false.
Proof.
  intros Hreq Hchild.
  unfold getOutputInputProps, accept, visitPhysicalTopN.
  rewrite Hreq, Hchild, bool_decide_is_Some_None. cbv zeta. rewrite bind_lift_Ok.
  destruct (SortPhase.isFinal (getSortPhase topN)), (topNIsSplit topN), (hasLimit child);
    (eexists _, _; split; [reflexivity |]; repeat (split; [reflexivity |]); reflexivity).
Qed.

Lemma topN_alternative_witness :
  exists out c,
    getOutputInputProps (H := SpecJoinPredicateUtils) Sample.anyRequirement Sample.env
      (PhysicalTopN MoreSamples.finalTopN) Sample.limitUnaryContext = Ok [(out, [c])]
    /\ getSortProperty out = [mkOrdering 1 true true]
    /\ getDistributionProperty out = AnyDistributionSpec
    /\ c = createLimitGatherProperty 10
    /\ isGather (getDistributionProperty out) && isGather (getDistributionProperty c) = false.
Proof.
  apply (topN_alternative (U := SpecJoinPredicateUtils) Sample.anyRequirement Sample.env
           MoreSamples.finalTopN Sample.limitUnaryContext Sample.limit10); reflexivity.
Defined.

(** X5: without a local requirement union, except and intersect return the
    same single alternative: no output requirement, and of each child a
    gather with the child's limit if the child has one, nothing otherwise,
    child by child in order. *)
Theorem set_operation_children `{U : JoinPredicateUtils}
    (requirements : PhysicalPropertySet) (env : Environment) (context : ExpressionContext) :
  getRequiredLocalDesc requirements = None ->
  getOutputInputProps requirements env PhysicalUnion context
  = Ok [(PhysicalPropertySet_EMPTY, map setOperationChildProperty (children context))]
  /\ getOutputInputProps requirements env PhysicalExcept context
     = getOutputInputProps requirements env PhysicalUnion context
  /\ getOutputInputProps requirements env PhysicalIntersect context
     = getOutputInputProps requirements env PhysicalUnion context
  /\ (forall (i : nat) g,
        children context !! i = Some g ->
        map setOperationChildProperty (children context) !! i
        = Some (if hasLimit (childOperator g)
                then mkPhysicalPropertySet
                       (GatherDistributionSpec (Some (getLimit (childOperator g)))) []
                else PhysicalPropertySet_EMPTY)).
Proof.
  intros Hreq. repeat split.
  - unfold getOutputInputProps, accept, visitPhysicalUnion, processSetOperationChildProperty.
    rewrite Hreq. reflexivity.
  - intros i g Hg. rewrite list_lookup_fmap, Hg. reflexivity.
Qed.

Lemma set_operation_children_witness :
  getOutputInputProps (H := SpecJoinPredicateUtils) Sample.anyRequirement Sample.env
    PhysicalUnion MoreSamples.unionContext
  = Ok [(PhysicalPropertySet_EMPTY,
         [PhysicalPropertySet_EMPTY; createLimitGatherProperty 5; PhysicalPropertySet_EMPTY])].
Proof.
  apply (set_operation_children (U := SpecJoinPredicateUtils) Sample.anyRequirement Sample.env
           MoreSamples.unionContext).
  reflexivity.
Defined.

(** ** Window *)

Lemma forEachCollect_partitionColumn (cols : list Z) :
  forEachCollect partitionColumn (map ColumnRefOperator cols) = Ok cols.
Proof.
  induction cols as [| c cols IH]; [reflexivity |].
  cbn. cbn in IH. rewrite IH. reflexivity.
Qed.

Lemma forEachCollect_partitionColumn_throws (es : list ScalarOperator) :
  (exists e, e ∈ es /\ isColumnRef e = false) ->
  forEachCollect partitionColumn es = Throw ClassCastException.
Proof.
  induction es as [| e es IH]; intros (bad & Hin & Hbad).
  - inversion Hin.
  - cbn [forEachCollect]. destruct e; try reflexivity.
    cbn [partitionColumn]. rewrite IH; [reflexivity |].
    exists bad. split; [| exact Hbad].
    inversion Hin; subst; [discriminate Hbad | assumption].
Qed.

(** X6: a window whose partition expressions are all column references
    never throws, and every alternative asks of the child exactly the
    property it promises as output, with the same sort order throughout.
    Under a local requirement there is one alternative, local on the
    partition columns, if these are not empty and all among the required
    columns, and none otherwise.  Without one there is a single gathered
    alternative when there is no partition column, else the two-phase
    shuffle alternative followed by the single-phase local one. *)
Theorem window_alternatives `{U : JoinPredicateUtils}
    (requirements : PhysicalPropertySet) (env : Environment)
    (node : PhysicalWindowOperator) (context : ExpressionContext) (cols : list Z) :
  getPartitionExpressions node = map ColumnRefOperator cols ->
  getOutputInputProps requirements env (PhysicalAnalytic node) context
  = Ok (match getRequiredLocalDesc requirements with
        | Some required =>
            if negb (bool_decide (cols = [])) && containsAll (getColumns required) cols
            then [windowAlternative LOCAL cols (windowSort node cols)]
            else []
        | None =>
            if bool_decide (cols = [])
            then [(mkPhysicalPropertySet (GatherDistributionSpec None) (windowSort node cols),
                   [mkPhysicalPropertySet (GatherDistributionSpec None)
                                          (windowSort node cols)])]
            else [windowAlternative SHUFFLE_AGG cols (windowSort node cols);
                  windowAlternative LOCAL cols (windowSort node cols)]
        end).
Proof.
  intros Hexprs. unfold getOutputInputProps, accept, visitPhysicalAnalytic.
  rewrite Hexprs, forEachCollect_partitionColumn, bind_lift_Ok. cbv zeta.
  destruct (getRequiredLocalDesc requirements) as [required |].
  - destruct (_ && _); reflexivity.
  - destruct (bool_decide (cols = [])); reflexivity.
Qed.

Lemma window_alternatives_witness :
  getOutputInputProps (H := SpecJoinPredicateUtils) Sample.anyRequirement Sample.env
    (PhysicalAnalytic MoreSamples.window) Sample.unaryContext
  = Ok [windowAlternative SHUFFLE_AGG [1; 2]
          [mkOrdering 1 true true; mkOrdering 2 true true; mkOrdering 3 false true];
        windowAlternative LOCAL [1; 2]
          [mkOrdering 1 true true; mkOrdering 2 true true; mkOrdering 3 false true]].
Proof.
  apply (window_alternatives (U := SpecJoinPredicateUtils) Sample.anyRequirement Sample.env
           MoreSamples.window Sample.unaryContext [1; 2]).
  reflexivity.
Defined.

(** X7: a window with a partition expression that is not a column reference
    throws [ClassCastException], whatever the requirement and the other
    expressions. *)
Theorem window_partition_cast_fails `{U : JoinPredicateUtils}
    (requirements : PhysicalPropertySet) (env : Environment)
    (node : PhysicalWindowOperator) (context : ExpressionContext) (e : ScalarOperator) :
  e ∈ getPartitionExpressions node ->
  isColumnRef e = false ->
  getOutputInputProps requirements env (PhysicalAnalytic node) context
  = Throw ClassCastException.
Proof.
  intros Hin Hbad. unfold getOutputInputProps, accept, visitPhysicalAnalytic.
  rewrite forEachCollect_partitionColumn_throws by eauto.
  reflexivity.
Qed.

Lemma window_partition_cast_fails_witness :
  getOutputInputProps (H := SpecJoinPredicateUtils) Sample.anyRequirement Sample.env
    (PhysicalAnalytic MoreSamples.castWindow) Sample.unaryContext
  = Throw ClassCastException.
Proof.
  apply (window_partition_cast_fails (U := SpecJoinPredicateUtils) Sample.anyRequirement
           Sample.env MoreSamples.castWindow Sample.unaryContext
           (CastOperator (ColumnRefOperator 1))).
  - left.
  - reflexivity.
Defined.

Lemma covered_iff (acc : list Ordering) (o : Ordering) :
  forallb (fun ordering => negb (bool_decide (getColumnRef ordering = getColumnRef o))) acc
  = true
  <-> getColumnRef o ∉ getColumnRef <$> acc.
Proof.
  induction acc as [| a acc IH]; cbn [forallb fmap list_fmap].
  - split; [intros _ Hin; inversion Hin | reflexivity].
  - rewrite andb_true_iff, IH, negb_true_iff, bool_decide_eq_false, not_elem_of_cons.
    split; intros [H1 H2]; split; auto.
Qed.

(** X8: the sort order of a window starts with the orderings given (the
    partition columns) and goes on with a selection of the order-by
    elements in their order: those whose column no earlier ordering has.
    The columns of the added elements are pairwise different and different
    from the given ones, and every order-by column occurs in the result. *)
Theorem window_sort_order (orderings orderBy : list Ordering) :
  exists more,
    addOrderByElements orderings orderBy = orderings ++ more
    /\ sublist more orderBy
    /\ NoDup (getColumnRef <$> more)
    /\ (forall o, o ∈ more -> getColumnRef o ∉ getColumnRef <$> orderings)
    /\ (forall o, o ∈ orderBy ->
                  getColumnRef o ∈ getColumnRef <$> addOrderByElements orderings orderBy).
Proof.
  unfold addOrderByElements. revert orderings.
  induction orderBy as [| o orderBy IH]; intros orderings.
  - exists []. cbn. rewrite app_nil_r.
    repeat split; [constructor | constructor | intros o Ho; inversion Ho
                  | intros o Ho; inversion Ho].
  - cbn [foldl].
    destruct (forallb _ orderings) eqn:Hcov.
    + apply covered_iff in Hcov.
      destruct (IH (orderings ++ [o])) as (more & Heq & Hsub & Hnd & Hdisj & Hall).
      exists (o :: more). rewrite Heq, <- app_assoc. cbn [app].
      split; [reflexivity |]. split; [apply sublist_skip; exact Hsub |].
      split; [| split].
      * cbn. constructor; [| exact Hnd].
        intros Hin. apply list_elem_of_fmap in Hin as (o' & Hcol & Ho').
        apply (Hdisj o' Ho'). rewrite fmap_app, elem_of_app. right.
        rewrite <- Hcol. cbn. left.
      * intros o' Ho'. apply elem_of_cons in Ho' as [-> | Ho']; [exact Hcov |].
        intros Hin. apply (Hdisj o' Ho'). rewrite fmap_app, elem_of_app. left. exact Hin.
      * intros o' Ho'. apply elem_of_cons in Ho' as [-> | Ho'].
        -- rewrite fmap_app, elem_of_app. right. cbn. left.
        -- specialize (Hall o' Ho'). rewrite Heq, <- app_assoc in Hall. exact Hall.
    + destruct (IH orderings) as (more & Heq & Hsub & Hnd & Hdisj & Hall).
      exists more. split; [exact Heq |]. split; [apply sublist_cons; exact Hsub |].
      split; [exact Hnd |]. split; [exact Hdisj |].
      intros o' Ho'. apply elem_of_cons in Ho' as [-> | Ho']; [| apply Hall; exact Ho'].
      rewrite Heq, fmap_app, elem_of_app. left.
      destruct (decide (getColumnRef o ∈ getColumnRef <$> orderings)) as [Hin | Hnin];
        [exact Hin |].
      apply covered_iff in Hnin. rewrite Hnin in Hcov. discriminate Hcov.
Qed.

(** ** Hash aggregate *)

(** X9: a grouped aggregate that is not a local-stage aggregate and that
    neither shortcut applies to returns, without a local requirement, the
    two-phase shuffle alternative followed by the single-phase local one,
    both on the grouping columns.  Under a local requirement the shuffle
    alternative is dropped, and the local one is kept, with the requirement
    as its output, exactly when every grouping column is among the required
    columns. *)
Theorem grouped_aggregate_alternatives `{U : JoinPredicateUtils}
    (requirements : PhysicalPropertySet) (env : Environment)
    (node : PhysicalHashAggregateOperator) (context : ExpressionContext)
    (child : LogicalOperator) :
  getPartitionByColumns node <> [] ->
  AggType.isLocal (getType node) = false ->
  getChildOperator context 0 = Ok child ->
  bool_decide (getNewPlannerAggStage env = 0) && isExecuteInOneInstance context
    && AggType.isGlobal (getType node) && negb (isSplit node) = false ->
  hasLimit child && (AggType.isGlobal (getType node) && negb (isSplit node)) = false ->
  getOutputInputProps requirements env (PhysicalHashAggregate node) context
  = Ok (match getRequiredLocalDesc requirements with
        | None => [aggregateAlternative SHUFFLE_AGG (getPartitionByColumns node);
                   aggregateAlternative LOCAL (getPartitionByColumns node)]
        | Some required =>
            if containsAll (getColumns required) (getPartitionByColumns node)
            then [(distributeRequirements requirements,
                   [PhysicalPropertySet_ofDistribution
                      (HashDistributionSpec
                         (mkHashDistributionDesc (getPartitionByColumns node) LOCAL))])]
            else []
        end).
Proof.
  intros Hcols Hlocal Hchild Hone Hlimit.
  unfold getOutputInputProps, accept, visitPhysicalHashAggregate.
  rewrite Hone, Hchild, bind_lift_Ok, Hlimit, Hlocal. cbn [negb]. cbv zeta.
  rewrite (bool_decide_eq_false_2 _ Hcols), !bind_add.
  unfold visitAggregateRequirements.
  destruct (getRequiredLocalDesc requirements) as [required |]; [| reflexivity].
  deriver_unfold. cbn [forEachCollect app]. unfold keepForAggregate. cbn [fst snd].
  rewrite !listGet_0. deriver_unfold. cbn.
  destruct (containsAll _ _); reflexivity.
Qed.

Lemma grouped_aggregate_alternatives_witness :
  getOutputInputProps (H := SpecJoinPredicateUtils) (Sample.localRequirement [1; 2])
    Sample.twoStageEnv (PhysicalHashAggregate Sample.groupedGlobalAggregate)
    Sample.unaryContext
  = Ok [(Sample.localRequirement [1; 2], [Sample.localRequirement [1]])].
Proof.
  apply (grouped_aggregate_alternatives (U := SpecJoinPredicateUtils)
           (Sample.localRequirement [1; 2]) Sample.twoStageEnv
           Sample.groupedGlobalAggregate Sample.unaryContext Sample.noLimit);
    try reflexivity.
  discriminate.
Defined.

(** X10: the aggregate rule never throws once the context has a child: the
    cast of the output distribution in the filtering step is safe, since
    every alternative the rule builds with a hash distribution on the child
    has one on the output.  Without any child it throws unless the
    single-instance shortcut applies. *)
Theorem aggregate_returns `{U : JoinPredicateUtils}
    (requirements : PhysicalPropertySet) (env : Environment)
    (node : PhysicalHashAggregateOperator) (context : ExpressionContext) :
  (children context <> [] ->
   exists l, getOutputInputProps requirements env (PhysicalHashAggregate node) context = Ok l)
  /\ (children context = [] ->
      bool_decide (getNewPlannerAggStage env = 0) && isExecuteInOneInstance context
        && AggType.isGlobal (getType node) && negb (isSplit node) = false ->
      getOutputInputProps requirements env (PhysicalHashAggregate node) context
      = Throw IndexOutOfBoundsException).
Proof.
  split.
  - intros Hchildren.
    unfold getOutputInputProps, accept, visitPhysicalHashAggregate, getChildOperator.
    destruct (children context) as [| g rest]; [contradiction |].
    rewrite listGet_0. cbn [fmap Result_fmap]. cbv zeta.
    unfold visitAggregateRequirements.
    repeat first
      [ rewrite bind_lift_Ok
      | rewrite bind_add
      | match goal with
        | |- context [if ?c then _ else _] => destruct c
        end ];
      (destruct (getRequiredLocalDesc requirements) as [required |];
       [| eexists; reflexivity]);
      deriver_unfold; cbn [forEachCollect app]; unfold keepForAggregate; cbn [fst snd];
      rewrite ?listGet_0; deriver_unfold; cbn;
      repeat match goal with
             | |- context [if ?c then _ else _] => destruct c
             end;
      eexists; reflexivity.
  - intros Hchildren Hone.
    unfold getOutputInputProps, accept, visitPhysicalHashAggregate, getChildOperator.
    rewrite Hone, Hchildren. reflexivity.
Qed.

Lemma aggregate_returns_witness :
  exists l,
    getOutputInputProps (H := SpecJoinPredicateUtils) (Sample.localRequirement [1])
      Sample.twoStageEnv (PhysicalHashAggregate Sample.groupedGlobalAggregate)
      Sample.limitUnaryContext = Ok l.
Proof.
  apply (aggregate_returns (U := SpecJoinPredicateUtils) (Sample.localRequirement [1])
           Sample.twoStageEnv Sample.groupedGlobalAggregate Sample.limitUnaryContext).
  discriminate.
Defined.

(** ** Hash join: limits, hints and join types *)

(** X11: when a child of a hash join has a row limit, broadcast is the only
    strategy, whatever the join type, the hint and the predicate: the right
    child is replicated and the left child gathered with its limit, or left
    alone if only the right child has a limit.  Under a local requirement
    this alternative survives, with the requirement handed to the left
    child, only if the left child has no limit and the required columns come
    from the left child and not from the right one; otherwise the result is
    empty. *)
Theorem join_child_limit_broadcast_only `{U : JoinPredicateUtils}
    (requirements : PhysicalPropertySet) (env : Environment)
    (node : PhysicalHashJoinOperator) (context : ExpressionContext)
    (leftGroup rightGroup : ChildGroup) :
  children context = [leftGroup; rightGroup] ->
  hasLimit (childOperator leftGroup) || hasLimit (childOperator rightGroup) = true ->
  getOutputInputProps requirements env (PhysicalHashJoin node) context
  = Ok (match getRequiredLocalDesc requirements with
        | None =>
            [(PhysicalPropertySet_EMPTY,
              [if hasLimit (childOperator leftGroup)
               then createLimitGatherProperty (getLimit (childOperator leftGroup))
               else PhysicalPropertySet_EMPTY;
               PhysicalPropertySet_ofDistribution ReplicatedDistributionSpec])]
        | Some required =>
            if contains (outputColumns leftGroup) (unionAll (getColumns required))
               && negb (contains (outputColumns rightGroup) (unionAll (getColumns required)))
               && negb (hasLimit (childOperator leftGroup))
            then [(distributeRequirements requirements,
                   [distributeRequirements requirements;
                    PhysicalPropertySet_ofDistribution ReplicatedDistributionSpec])]
            else []
        end).
Proof.
  intros Hchildren Hlimit.
  unfold getOutputInputProps, accept, visitPhysicalHashJoin.
  unfold getChildOperator, getChildOutputColumns.
  rewrite Hchildren, listGet_0, listGet_1. cbn [fmap Result_fmap].
  rewrite !bind_lift_Ok, Hlimit.
  unfold visitJoinRequirements, getChildOutputColumns.
  rewrite Hchildren, listGet_0, listGet_1. cbn [fmap Result_fmap].
  destruct (getRequiredLocalDesc requirements) as [required |].
  - cbv zeta.
    destruct (hasLimit (childOperator leftGroup));
      rewrite bind_add, !bind_lift_Ok;
      destruct (contains (outputColumns leftGroup) _),
               (contains (outputColumns rightGroup) _); reflexivity.
  - destruct (hasLimit (childOperator leftGroup)); reflexivity.
Qed.

Lemma join_child_limit_broadcast_only_witness :
  getOutputInputProps (H := SpecJoinPredicateUtils) (Sample.localRequirement [1]) Sample.env
    (PhysicalHashJoin MoreSamples.rightOuterJoin) MoreSamples.rightLimitJoinContext
  = Ok [(Sample.localRequirement [1],
         [Sample.localRequirement [1];
          PhysicalPropertySet_ofDistribution ReplicatedDistributionSpec])].
Proof.
  apply (join_child_limit_broadcast_only (U := SpecJoinPredicateUtils)
           (Sample.localRequirement [1]) Sample.env MoreSamples.rightOuterJoin
           MoreSamples.rightLimitJoinContext Sample.groupA MoreSamples.groupBLimit);
    reflexivity.
Defined.

(** X12: with a shuffle hint, on a join without child limits that is not
    cut short after broadcast, and without a local requirement, the result
    is the shuffle alternative alone: the broadcast alternative is
    discarded and colocate and bucket shuffle are not tried. *)
Theorem join_shuffle_hint_shuffle_only `{U : JoinPredicateUtils}
    (requirements : PhysicalPropertySet) (env : Environment)
    (node : PhysicalHashJoinOperator) (context : ExpressionContext)
    (leftGroup rightGroup : ChildGroup) :
  children context = [leftGroup; rightGroup] ->
  hasLimit (childOperator leftGroup) = false ->
  hasLimit (childOperator rightGroup) = false ->
  broadcastOnly node leftGroup rightGroup = false ->
  equalsIgnoreCase "SHUFFLE" (getJoinHint node) = true ->
  length (onPredicateColumnsOf node leftGroup rightGroup).1
  = length (onPredicateColumnsOf node leftGroup rightGroup).2 ->
  getRequiredLocalDesc requirements = None ->
  getOutputInputProps requirements env (PhysicalHashJoin node) context
  = Ok [shuffleAlternative (onPredicateColumnsOf node leftGroup rightGroup).1
                           (onPredicateColumnsOf node leftGroup rightGroup).2].
Proof.
  intros Hchildren Hl Hr Hshort Hhint Hlen Hreq.
  unfold getOutputInputProps, accept.
  rewrite (visitPhysicalHashJoin_shuffle_step _ _ _ _ _ _ Hchildren Hl Hr Hshort Hlen).
  cbv zeta. rewrite Hhint, orb_true_r.
  rewrite visitJoinRequirements_inactive by exact Hreq. reflexivity.
Qed.

Lemma join_shuffle_hint_shuffle_only_witness :
  getOutputInputProps (H := SpecJoinPredicateUtils) Sample.anyRequirement Sample.colocateEnv
    (PhysicalHashJoin MoreSamples.shuffleHintJoin) Sample.joinContext
  = Ok [shuffleAlternative [1] [4]].
Proof.
  apply (join_shuffle_hint_shuffle_only (U := SpecJoinPredicateUtils)
           Sample.anyRequirement Sample.colocateEnv MoreSamples.shuffleHintJoin
           Sample.joinContext Sample.groupA Sample.groupB);
    first [reflexivity | vm_compute; reflexivity].
Defined.

(** X13: a join hinted for bucket shuffle does not try the colocate
    strategy: its result is the one it has with the colocate switch off. *)
Theorem join_bucket_hint_skips_colocate `{U : JoinPredicateUtils}
    (requirements : PhysicalPropertySet) (env : Environment)
    (node : PhysicalHashJoinOperator) (context : ExpressionContext) :
  equalsIgnoreCase "BUCKET" (getJoinHint node) = true ->
  getOutputInputProps requirements env (PhysicalHashJoin node) context
  = getOutputInputProps requirements (withColocateDisabled env) (PhysicalHashJoin node)
                        context.
Proof.
  intros Hhint. unfold getOutputInputProps, accept, visitPhysicalHashJoin.
  rewrite Hhint. reflexivity.
Qed.

Lemma join_bucket_hint_skips_colocate_witness :
  getOutputInputProps (H := SpecJoinPredicateUtils) Sample.anyRequirement Sample.colocateEnv
    (PhysicalHashJoin MoreSamples.bucketHintJoin) Sample.joinContext
  = getOutputInputProps (H := SpecJoinPredicateUtils) Sample.anyRequirement
      (withColocateDisabled Sample.colocateEnv)
      (PhysicalHashJoin MoreSamples.bucketHintJoin) Sample.joinContext.
Proof.
  apply (join_bucket_hint_skips_colocate (U := SpecJoinPredicateUtils)
           Sample.anyRequirement Sample.colocateEnv MoreSamples.bucketHintJoin
           Sample.joinContext).
  reflexivity.
Defined.

Lemma visitPhysicalHashJoin_mismatch `{U : JoinPredicateUtils}
    (requirements : PhysicalPropertySet) (env : Environment)
    (node : PhysicalHashJoinOperator) (context : ExpressionContext)
    (leftGroup rightGroup : ChildGroup) :
  children context = [leftGroup; rightGroup] ->
  hasLimit (childOperator leftGroup) = false ->
  hasLimit (childOperator rightGroup) = false ->
  broadcastOnly node leftGroup rightGroup = false ->
  length (onPredicateColumnsOf node leftGroup rightGroup).1
  <> length (onPredicateColumnsOf node leftGroup rightGroup).2 ->
  visitPhysicalHashJoin requirements env node context [] = Throw IllegalStateException.
Proof.
  intros Hchildren Hl Hr Hshort Hlen.
  unfold visitPhysicalHashJoin, getChildOperator, getChildOutputColumns.
  rewrite Hchildren, listGet_0, listGet_1. cbn [fmap Result_fmap].
  rewrite !bind_lift_Ok, Hl, Hr. cbn [orb].
  rewrite bind_add, !bind_lift_Ok. cbv zeta.
  fold (equalOnPredicateOf node leftGroup rightGroup).
  fold (onPredicateColumnsOf node leftGroup rightGroup).
  fold (broadcastOnly node leftGroup rightGroup). rewrite Hshort.
  rewrite (bool_decide_eq_false_2 _ Hlen). cbn [checkState].
  destruct (_ || _); [rewrite bind_clear | rewrite bind_ret];
    rewrite bind_lift_Throw; reflexivity.
Qed.

Lemma visitJoinRequirements_rightNotReplicated `{U : JoinPredicateUtils}
    (requirements : PhysicalPropertySet) node context :
  establishes rightNotReplicated (visitJoinRequirements requirements node context).
Proof.
  apply visitJoinRequirements_establishes; intros required a b Ha Hb.
  - apply keepForLeft_cases in Hb as (left_ & right_ & _ & Hright & [[_ ->] | [_ ->]]);
      [| exact Ha].
    intros p Hp. cbn in Hp. injection Hp as <-.
    apply Ha. apply listGet_lookup_1. exact Hright.
  - apply keepForRight_cases in Hb as (right_ & _ & _ & ->). exact Ha.
Qed.

(** X14: a right join, a full outer join or a join hinted for shuffle, when
    it has no child limits and is not cut short after broadcast, never
    returns an alternative that replicates the right child, whatever the
    requirement; without a local requirement its first alternative is the
    shuffle alternative. *)
Theorem join_outer_never_broadcast `{U : JoinPredicateUtils}
    (requirements : PhysicalPropertySet) (env : Environment)
    (node : PhysicalHashJoinOperator) (context : ExpressionContext)
    (leftGroup rightGroup : ChildGroup) (l : list Alternative) :
  children context = [leftGroup; rightGroup] ->
  hasLimit (childOperator leftGroup) = false ->
  hasLimit (childOperator rightGroup) = false ->
  broadcastOnly node leftGroup rightGroup = false ->
  JoinOperator.isRightJoin (getJoinType node)
  || JoinOperator.isFullOuterJoin (getJoinType node)
  || equalsIgnoreCase "SHUFFLE" (getJoinHint node) = true ->
  getOutputInputProps requirements env (PhysicalHashJoin node) context = Ok l ->
  Forall rightNotReplicated l
  /\ (getRequiredLocalDesc requirements = None ->
      exists rest,
        l = shuffleAlternative (onPredicateColumnsOf node leftGroup rightGroup).1
                               (onPredicateColumnsOf node leftGroup rightGroup).2
            :: rest).
Proof.
  intros Hchildren Hl Hr Hshort Hclear Hrun.
  unfold getOutputInputProps, accept in Hrun.
  destruct (decide (length (onPredicateColumnsOf node leftGroup rightGroup).1
                    = length (onPredicateColumnsOf node leftGroup rightGroup).2))
    as [Hlen | Hlen].
  2: { rewrite (visitPhysicalHashJoin_mismatch _ _ _ _ _ _ Hchildren Hl Hr Hshort Hlen)
         in Hrun. discriminate Hrun. }
  rewrite (visitPhysicalHashJoin_shuffle_step _ _ _ _ _ _ Hchildren Hl Hr Hshort Hlen)
    in Hrun.
  rewrite Hclear in Hrun. cbn [app] in Hrun. cbv zeta in Hrun.
  match type of Hrun with
  | snd <$> ?m ?s = _ => destruct (m s) as [[u props] | e] eqn:Hm; [| discriminate Hrun]
  end.
  cbn in Hrun. injection Hrun as ->.
  split.
  - revert Hm.
    match goal with
    | |- ?m ?s = _ -> _ =>
        assert (establishes rightNotReplicated m) as Hest
    end.
    { unfold tryColocate, tryBucketShuffle.
      establish ltac:(intros p Hp; cbn in Hp; injection Hp as <-; reflexivity);
        apply visitJoinRequirements_rightNotReplicated. }
    intros Hm. eapply Hest; [| exact Hm].
    repeat constructor. intros p Hp. cbn in Hp. injection Hp as <-. reflexivity.
  - intros Hreq. revert Hm.
    match goal with
    | |- ?m ?s = _ -> _ => assert (appends m) as Happ
    end.
    { repeat first
        [ apply tryColocate_appends
        | apply tryBucketShuffle_appends
        | appends_step ];
      intros ? ? ? Hvjr;
      rewrite (visitJoinRequirements_inactive requirements) in Hvjr by exact Hreq;
      injection Hvjr as _ <-; exists []; symmetry; apply app_nil_r. }
    intros Hm. apply Happ in Hm as [more ->]. exists more. reflexivity.
Qed.

Lemma join_outer_never_broadcast_witness :
  Forall rightNotReplicated
    [shuffleAlternative [1] [4]; bucketShuffleAlternative [1] [4]]
  /\ (getRequiredLocalDesc Sample.anyRequirement = None ->
      exists rest,
        [shuffleAlternative [1] [4]; bucketShuffleAlternative [1] [4]]
        = shuffleAlternative [1] [4] :: rest).
Proof.
  apply (join_outer_never_broadcast (U := SpecJoinPredicateUtils) Sample.anyRequirement
           Sample.env MoreSamples.rightOuterJoin Sample.joinContext Sample.groupA
           Sample.groupB); first [reflexivity | vm_compute; reflexivity].
Defined.

(** ** Colocate and bucket shuffle *)

Lemma indexOf_lookup (l : list Z) (x : Z) :
  x ∈ l -> l !! Z.to_nat (indexOf l x) = Some x.
Proof.
  induction l as [| y l IH]; intros Hin; [inversion Hin |].
  cbn [indexOf]. destruct (bool_decide (y = x)) eqn:Hyx.
  - apply bool_decide_eq_true_1 in Hyx. subst. reflexivity.
  - apply bool_decide_eq_false_1 in Hyx.
    assert (x ∈ l) as Hin' by (inversion Hin; subst; [congruence | assumption]).
    pose proof (indexOf_range l x Hin') as Hrange.
    rewrite bool_decide_eq_false_2 by lia.
    replace (Z.to_nat (indexOf l x + 1)) with (S (Z.to_nat (indexOf l x))) by lia.
    cbn. apply IH. exact Hin'.
Qed.

Lemma forEachCollect_Some_Forall2 {A B : Type} (g : A -> Result B) (l : list A) (r : list B) :
  forEachCollect (fun x => Some <$> g x) l = Ok r ->
  Forall2 (fun x y => g x = Ok y) l r.
Proof.
  revert r. induction l as [| a l IH]; intros r Hrun.
  - injection Hrun as <-. constructor.
  - cbn in Hrun. destruct (g a) as [y | e] eqn:Hg; cbn in Hrun; [| discriminate].
    destruct (forEachCollect _ l) as [rest | e]; [| discriminate].
    injection Hrun as <-. constructor; [exact Hg | apply IH; reflexivity].
Qed.

(** What [tryBucketShuffle] does to the list, whatever the list is. *)
Lemma tryBucketShuffle_cases env node leftShuffle rightShuffle props u props' :
  tryBucketShuffle env node leftShuffle rightShuffle props = Ok (u, props') ->
  (props' = props
   /\ forall other, tryBucketShuffle env node leftShuffle rightShuffle other = Ok (tt, other))
  \/ exists left_ rightCols,
       findLogicalOlapScanOperator env leftShuffle = Some left_
       /\ JoinOperator.isCrossJoin (getJoinType node) = false
       /\ length (getSelectedPartitionId left_) = 1%nat
       /\ getColumns (getDistributionSpec left_) ⊆ getColumns leftShuffle
       /\ Forall2 (fun leftScanColumn rightColumn =>
                     listGet (getColumns rightShuffle)
                             (indexOf (getColumns leftShuffle) leftScanColumn)
                     = Ok rightColumn)
                  (getColumns (getDistributionSpec left_)) rightCols
       /\ props' = props ++ [bucketShuffleAlternative
                               (getColumns (getDistributionSpec left_)) rightCols]
       /\ forall other,
            tryBucketShuffle env node leftShuffle rightShuffle other
            = Ok (tt, other ++ [bucketShuffleAlternative
                                  (getColumns (getDistributionSpec left_)) rightCols]).
Proof.
  unfold tryBucketShuffle. cbv zeta. unfold getShuffleColumns.
  destruct (JoinOperator.isCrossJoin _) eqn:Hcross.
  { intros [= _ <-]. left. split; reflexivity. }
  destruct (findLogicalOlapScanOperator env leftShuffle) as [left_ |] eqn:Hfind.
  2: { intros [= _ <-]. left. split; reflexivity. }
  destruct (bool_decide (length (getSelectedPartitionId left_) = 1%nat)) eqn:Hone;
    cbn [negb].
  2: { intros [= _ <-]. left. split; reflexivity. }
  destruct (containsAll _ _) eqn:Hall; cbn [negb].
  2: { intros [= _ <-]. left. split; reflexivity. }
  destruct (forEachCollect _ _) as [rightCols | e] eqn:Hloop.
  2: { rewrite bind_lift_Throw. discriminate. }
  rewrite bind_lift_Ok. intros [= _ <-]. right.
  exists left_, rightCols.
  apply bool_decide_eq_true_1 in Hone. apply bool_decide_eq_true_1 in Hall.
  apply forEachCollect_Some_Forall2 in Hloop.
  repeat split; try assumption; reflexivity.
Qed.

Lemma Forall2_pairedThrough (leftJoin rightJoin leftCols rightCols : list Z) :
  leftCols ⊆ leftJoin ->
  Forall2 (fun l r => listGet rightJoin (indexOf leftJoin l) = Ok r) leftCols rightCols ->
  pairedThrough leftJoin rightJoin leftCols rightCols.
Proof.
  intros Hsub Hpairs. split; [eapply Forall2_length; exact Hpairs |].
  intros i l r Hl Hr.
  pose proof (Forall2_lookup_lr _ _ _ _ _ _ Hpairs Hl Hr) as Hget.
  exists (Z.to_nat (indexOf leftJoin l)). split.
  - apply indexOf_lookup, Hsub. eapply list_elem_of_lookup_2; exact Hl.
  - apply listGet_lookup. exact Hget.
Qed.

(** X15: when the bucket-shuffle step adds an alternative, the left side is
    a scan with exactly one selected partition and the join is no cross
    join; the alternative asks the left child to be local on the scan's
    bucket columns and the right child to be shuffled on as many columns,
    where position by position the right column is the one that the join
    equates with the left bucket column.  Otherwise the step leaves the
    list as it is. *)
Theorem bucket_shuffle_pairs_columns (env : Environment) (node : PhysicalHashJoinOperator)
    (leftShuffle rightShuffle : HashDistributionDesc)
    (props : list Alternative) (u : unit) (props' : list Alternative) :
  tryBucketShuffle env node leftShuffle rightShuffle props = Ok (u, props') ->
  props' = props
  \/ exists left_ rightCols,
       findLogicalOlapScanOperator env leftShuffle = Some left_
       /\ JoinOperator.isCrossJoin (getJoinType node) = false
       /\ length (getSelectedPartitionId left_) = 1%nat
       /\ props' = props ++ [bucketShuffleAlternative
                               (getColumns (getDistributionSpec left_)) rightCols]
       /\ pairedThrough (getColumns leftShuffle) (getColumns rightShuffle)
                        (getColumns (getDistributionSpec left_)) rightCols.
Proof.
  intros Hrun.
  apply tryBucketShuffle_cases in Hrun
    as [[-> _] | (left_ & rightCols & Hfind & Hcross & Hone & Hsub & Hpairs & -> & _)].
  - left. reflexivity.
  - right. exists left_, rightCols. repeat split; try assumption.
    + eapply Forall2_length; exact Hpairs.
    + apply Forall2_pairedThrough; assumption.
Qed.

Lemma bucket_shuffle_pairs_columns_witness :
  [shuffleAlternative [1] [4]; bucketShuffleAlternative [1] [4]]
  = [shuffleAlternative [1] [4]]
  \/ exists left_ rightCols,
       findLogicalOlapScanOperator Sample.env (mkHashDistributionDesc [1] SHUFFLE_JOIN)
       = Some left_
       /\ JoinOperator.isCrossJoin (getJoinType Sample.innerJoin) = false
       /\ length (getSelectedPartitionId left_) = 1%nat
       /\ [shuffleAlternative [1] [4]; bucketShuffleAlternative [1] [4]]
          = [shuffleAlternative [1] [4]]
            ++ [bucketShuffleAlternative (getColumns (getDistributionSpec left_)) rightCols]
       /\ pairedThrough [1] [4] (getColumns (getDistributionSpec left_)) rightCols.
Proof.
  apply (bucket_shuffle_pairs_columns Sample.env Sample.innerJoin
           (mkHashDistributionDesc [1] SHUFFLE_JOIN) (mkHashDistributionDesc [4] SHUFFLE_JOIN)
           [shuffleAlternative [1] [4]] tt).
  vm_compute. reflexivity.
Defined.

(** What [tryColocate] does to the list, whatever the list is. *)
Lemma tryColocate_cases env leftShuffle rightShuffle props u props' :
  tryColocate env leftShuffle rightShuffle props = Ok (u, props') ->
  props' = props
  \/ (disable_colocate_join env = false /\ isDisableColocateJoin env = false
      /\ exists left_ right_,
           findLogicalOlapScanOperator env leftShuffle = Some left_
           /\ findLogicalOlapScanOperator env rightShuffle = Some right_
           /\ ((getTableId left_ = getTableId right_
                /\ isSameGroup env (getTableId left_) (getTableId right_) = false
                /\ getSelectedPartitionId left_ = getSelectedPartitionId right_
                /\ (length (getSelectedPartitionId left_) <= 1)%nat
                /\ props' = props ++ [colocateAlternative (getColumns leftShuffle)
                                                          (getColumns rightShuffle)])
               \/ (isSameGroup env (getTableId left_) (getTableId right_) = true
                   /\ isGroupUnstable env (getGroup env (getTableId left_)) = false
                   /\ getColumns (getDistributionSpec left_) ⊆ getColumns leftShuffle
                   /\ getColumns (getDistributionSpec right_) ⊆ getColumns rightShuffle
                   /\ length (getColumns (getDistributionSpec left_))
                      = length (getColumns (getDistributionSpec right_))
                   /\ Forall (fun p : Z * Z =>
                                indexOf (getColumns leftShuffle) p.1
                                = indexOf (getColumns rightShuffle) p.2)
                             (zip (getColumns (getDistributionSpec left_))
                                  (getColumns (getDistributionSpec right_)))
                   /\ props' = props ++ [colocateAlternative
                                           (getColumns (getDistributionSpec left_))
                                           (getColumns (getDistributionSpec right_))]))).
Proof.
  unfold tryColocate. cbv zeta. unfold getShuffleColumns.
  destruct (disable_colocate_join env) eqn:Hconfig; cbn [orb].
  { intros [= _ <-]. left. reflexivity. }
  destruct (isDisableColocateJoin env) eqn:Hsession.
  { intros [= _ <-]. left. reflexivity. }
  destruct (findLogicalOlapScanOperator env leftShuffle) as [left_ |] eqn:Hleft.
  2: { intros [= _ <-]. left. reflexivity. }
  destruct (findLogicalOlapScanOperator env rightShuffle) as [right_ |] eqn:Hright.
  2: { intros [= _ <-]. left. reflexivity. }
  destruct (bool_decide (getTableId left_ = getTableId right_)
            && negb (isSameGroup env (getTableId left_) (getTableId right_))) eqn:Hself.
  - apply andb_true_iff in Hself as [Htable Hgroup].
    apply bool_decide_eq_true_1 in Htable. apply negb_true_iff in Hgroup.
    destruct (bool_decide (getSelectedPartitionId left_ = getSelectedPartitionId right_))
      eqn:Hparts; cbn [negb orb].
    2: { intros [= _ <-]. left. reflexivity. }
    destruct (bool_decide (1 < length (getSelectedPartitionId left_))%nat) eqn:Hmany.
    { intros [= _ <-]. left. reflexivity. }
    intros [= _ <-]. right. split; [reflexivity |]. split; [reflexivity |].
    exists left_, right_. split; [reflexivity |]. split; [reflexivity |]. left.
    apply bool_decide_eq_true_1 in Hparts. apply bool_decide_eq_false_1 in Hmany.
    repeat split; try assumption; try reflexivity. lia.
  - destruct (isSameGroup env (getTableId left_) (getTableId right_)) eqn:Hgroup;
      cbn [negb].
    2: { intros [= _ <-]. left. reflexivity. }
    destruct (isGroupUnstable env _) eqn:Hstable.
    { intros [= _ <-]. left. reflexivity. }
    destruct (bool_decide (length _ = length _)) eqn:Hlen; cbn [checkState].
    2: { rewrite bind_lift_Throw. discriminate. }
    rewrite bind_lift_Ok.
    destruct (containsAll (getColumns leftShuffle) _) eqn:Hcl; cbn [negb].
    2: { intros [= _ <-]. left. reflexivity. }
    destruct (containsAll (getColumns rightShuffle) _) eqn:Hcr; cbn [negb].
    2: { intros [= _ <-]. left. reflexivity. }
    destruct (forallb _ _) eqn:Hidx; cbn [negb].
    2: { intros [= _ <-]. left. reflexivity. }
    intros [= _ <-]. right. split; [reflexivity |]. split; [reflexivity |].
    exists left_, right_. split; [reflexivity |]. split; [reflexivity |]. right.
    apply bool_decide_eq_true_1 in Hlen, Hcl, Hcr.
    repeat split; try assumption; try reflexivity.
    apply Forall_forall. intros p Hp.
    rewrite forallb_forall in Hidx. apply list_elem_of_In in Hp.
    apply Hidx in Hp. apply bool_decide_eq_true_1 in Hp. exact Hp.
Qed.

(** X16: the colocate step adds an alternative only when colocate join is
    switched off neither globally nor in the session and both sides resolve
    to a scan, and then only in two cases.  For one table joined to itself
    outside a colocation group, the two scans select the same partitions,
    at most one, and the two sides are asked to be local on the join
    columns.  For two scans of one colocation group that is not unstable,
    the two sides are asked to be local on the scans' bucket columns, which
    are equally many and, position by position, equated by the join.
    Otherwise the list stays as it is. *)
Theorem colocate_offered_only_when_legal (env : Environment)
    (leftShuffle rightShuffle : HashDistributionDesc)
    (props : list Alternative) (u : unit) (props' : list Alternative) :
  tryColocate env leftShuffle rightShuffle props = Ok (u, props') ->
  props' = props
  \/ (disable_colocate_join env = false /\ isDisableColocateJoin env = false
      /\ exists left_ right_,
           findLogicalOlapScanOperator env leftShuffle = Some left_
           /\ findLogicalOlapScanOperator env rightShuffle = Some right_
           /\ ((getTableId left_ = getTableId right_
                /\ isSameGroup env (getTableId left_) (getTableId right_) = false
                /\ getSelectedPartitionId left_ = getSelectedPartitionId right_
                /\ (length (getSelectedPartitionId left_) <= 1)%nat
                /\ props' = props ++ [colocateAlternative (getColumns leftShuffle)
                                                          (getColumns rightShuffle)])
               \/ (isSameGroup env (getTableId left_) (getTableId right_) = true
                   /\ isGroupUnstable env (getGroup env (getTableId left_)) = false
                   /\ props' = props ++ [colocateAlternative
                                           (getColumns (getDistributionSpec left_))
                                           (getColumns (getDistributionSpec right_))]
                   /\ pairedThrough (getColumns leftShuffle) (getColumns rightShuffle)
                                    (getColumns (getDistributionSpec left_))
                                    (getColumns (getDistributionSpec right_))))).
Proof.
  intros Hrun.
  apply tryColocate_cases in Hrun
    as [-> | (Hconfig & Hsession & left_ & right_ & Hleft & Hright & Hcase)];
    [left; reflexivity | right].
  split; [exact Hconfig |]. split; [exact Hsession |].
  exists left_, right_. split; [exact Hleft |]. split; [exact Hright |].
  destruct Hcase as [Hself | (Hgroup & Hstable & Hcl & Hcr & Hlen & Hidx & ->)];
    [left; exact Hself | right].
  repeat split; try assumption.
  intros i l r Hl Hr.
  assert ((l, r) ∈ zip (getColumns (getDistributionSpec left_))
                       (getColumns (getDistributionSpec right_))) as Hin.
  { apply (list_elem_of_lookup_2 _ i). rewrite lookup_zip_with, Hl, Hr. reflexivity. }
  rewrite Forall_forall in Hidx. specialize (Hidx _ Hin). cbn in Hidx.
  exists (Z.to_nat (indexOf (getColumns leftShuffle) l)). split.
  - apply indexOf_lookup, Hcl. eapply list_elem_of_lookup_2; exact Hl.
  - rewrite Hidx. apply indexOf_lookup, Hcr. eapply list_elem_of_lookup_2; exact Hr.
Qed.

Lemma colocate_offered_only_when_legal_witness :
  [shuffleAlternative [1] [4]; colocateAlternative [1] [4]] = [shuffleAlternative [1] [4]]
  \/ (disable_colocate_join Sample.colocateEnv = false
      /\ isDisableColocateJoin Sample.colocateEnv = false
      /\ exists left_ right_,
           findLogicalOlapScanOperator Sample.colocateEnv
             (mkHashDistributionDesc [1] SHUFFLE_JOIN) = Some left_
           /\ findLogicalOlapScanOperator Sample.colocateEnv
                (mkHashDistributionDesc [4] SHUFFLE_JOIN) = Some right_
           /\ ((getTableId left_ = getTableId right_
                /\ isSameGroup Sample.colocateEnv (getTableId left_) (getTableId right_)
                   = false
                /\ getSelectedPartitionId left_ = getSelectedPartitionId right_
                /\ (length (getSelectedPartitionId left_) <= 1)%nat
                /\ [shuffleAlternative [1] [4]; colocateAlternative [1] [4]]
                   = [shuffleAlternative [1] [4]] ++ [colocateAlternative [1] [4]])
               \/ (isSameGroup Sample.colocateEnv (getTableId left_) (getTableId right_)
                   = true
                   /\ isGroupUnstable Sample.colocateEnv
                        (getGroup Sample.colocateEnv (getTableId left_)) = false
                   /\ [shuffleAlternative [1] [4]; colocateAlternative [1] [4]]
                      = [shuffleAlternative [1] [4]]
                        ++ [colocateAlternative (getColumns (getDistributionSpec left_))
                                                (getColumns (getDistributionSpec right_))]
                   /\ pairedThrough [1] [4]
                                    (getColumns (getDistributionSpec left_))
                                    (getColumns (getDistributionSpec right_))))).
Proof.
  apply (colocate_offered_only_when_legal Sample.colocateEnv
           (mkHashDistributionDesc [1] SHUFFLE_JOIN) (mkHashDistributionDesc [4] SHUFFLE_JOIN)
           [shuffleAlternative [1] [4]] tt).
  vm_compute. reflexivity.
Defined.

Lemma forEachCollect_app {A B : Type} (body : A -> Result (option B)) (l1 l2 : list A) :
  forEachCollect body (l1 ++ l2)
  = match forEachCollect body l1 with
    | Throw e => Throw e
    | Ok r1 =>
        match forEachCollect body l2 with
        | Throw e => Throw e
        | Ok r2 => Ok (r1 ++ r2)
        end
    end.
Proof.
  induction l1 as [| a l1 IH]; cbn [app forEachCollect].
  - destruct (forEachCollect body l2); reflexivity.
  - destruct (body a) as [o | e]; [| reflexivity].
    rewrite IH. destruct (forEachCollect body l1) as [r1 | e]; [| reflexivity].
    destruct (forEachCollect body l2) as [r2 | e]; [| reflexivity].
    destruct o; reflexivity.
Qed.

Lemma forEachCollect_length {A B : Type} (body : A -> Result (option B))
    (l : list A) (r : list B) :
  forEachCollect body l = Ok r -> (length r <= length l)%nat.
Proof.
  revert r. induction l as [| a l IH]; intros r Hrun.
  - injection Hrun as <-. reflexivity.
  - cbn in Hrun. destruct (body a) as [o | e]; [| discriminate].
    destruct (forEachCollect body l) as [rest | e]; [| discriminate].
    specialize (IH rest eq_refl). injection Hrun as <-.
    destruct o; cbn; lia.
Qed.

(** Filtering a list without some middle part gives the filtered list
    without the part filtered. *)
Lemma filter_idiom_sublist (body : Alternative -> Result (option Alternative))
    (before middle after l : list Alternative) (u : unit) :
  (outputInputProps ← getProps;
   result ← lift (forEachCollect body outputInputProps);
   setProps result;; visitOperator) (before ++ middle ++ after) = Ok (u, l) ->
  exists l',
    (outputInputProps ← getProps;
     result ← lift (forEachCollect body outputInputProps);
     setProps result;; visitOperator) (before ++ after) = Ok (tt, l')
    /\ sublist l' l /\ (length l <= length l' + length middle)%nat.
Proof.
  deriver_unfold. rewrite !forEachCollect_app.
  destruct (forEachCollect body before) as [r1 | e]; [| discriminate].
  destruct (forEachCollect body middle) as [r2 | e] eqn:Hmiddle; [| discriminate].
  destruct (forEachCollect body after) as [r3 | e]; [| discriminate].
  intros [= _ <-]. exists (r1 ++ r3). split; [reflexivity |].
  apply forEachCollect_length in Hmiddle. split.
  - apply sublist_app; [reflexivity | apply sublist_inserts_l; reflexivity].
  - rewrite !length_app. lia.
Qed.

Lemma visitJoinRequirements_sublist `{U : JoinPredicateUtils}
    (requirements : PhysicalPropertySet) node context
    (before middle after l : list Alternative) (u : unit) :
  visitJoinRequirements requirements node context (before ++ middle ++ after) = Ok (u, l) ->
  exists l',
    visitJoinRequirements requirements node context (before ++ after) = Ok (tt, l')
    /\ sublist l' l /\ (length l <= length l' + length middle)%nat.
Proof.
  unfold visitJoinRequirements.
  destruct (getRequiredLocalDesc requirements) as [required |].
  2: { intros [= _ <-]. exists (before ++ after). split; [reflexivity |]. split.
       - apply sublist_app; [reflexivity | apply sublist_inserts_l; reflexivity].
       - rewrite !length_app. lia. }
  cbv zeta.
  destruct (getChildOutputColumns context 0) as [leftChildColumns | e];
    [| rewrite bind_lift_Throw; discriminate].
  rewrite !bind_lift_Ok.
  destruct (getChildOutputColumns context 1) as [rightChildColumns | e];
    [| rewrite bind_lift_Throw; discriminate].
  rewrite !bind_lift_Ok.
  destruct (bool_decide _).
  { intros [= _ <-]. exists []. split; [reflexivity |]. split; [reflexivity | cbn; lia]. }
  destruct (contains leftChildColumns _); apply filter_idiom_sublist.
Qed.

Lemma colocate_step_sublist `{U : JoinPredicateUtils}
    (requirements : PhysicalPropertySet) (env : Environment)
    (node : PhysicalHashJoinOperator) (context : ExpressionContext)
    (leftShuffle rightShuffle : HashDistributionDesc)
    (props : list Alternative) (u : unit) (l : list Alternative) :
  (tryColocate env leftShuffle rightShuffle;;
   tryBucketShuffle env node leftShuffle rightShuffle;;
   visitJoinRequirements requirements node context) props = Ok (u, l) ->
  exists l',
    (mret tt;;
     tryBucketShuffle env node leftShuffle rightShuffle;;
     visitJoinRequirements requirements node context) props = Ok (tt, l')
    /\ sublist l' l /\ (length l <= S (length l'))%nat.
Proof.
  intros Hrun. rewrite bind_ret.
  unfold mbind, Deriver_bind in Hrun |- *.
  destruct (tryColocate env leftShuffle rightShuffle props)
    as [[u1 props1] | e] eqn:Hcolocate; [| discriminate].
  destruct (tryBucketShuffle env node leftShuffle rightShuffle props1)
    as [[u2 props2] | e] eqn:Hbucket; [| discriminate].
  assert (exists middle, props1 = props ++ middle /\ (length middle <= 1)%nat)
    as (middle & -> & Hmiddle).
  { apply tryColocate_cases in Hcolocate
      as [-> | (_ & _ & left_ & right_ & _ & _ & [(_ & _ & _ & _ & ->)
                                                 | (_ & _ & _ & _ & _ & _ & ->)])].
    - exists []. rewrite app_nil_r. split; [reflexivity | cbn; lia].
    - eexists [_]. split; [reflexivity | cbn; lia].
    - eexists [_]. split; [reflexivity | cbn; lia]. }
  apply tryBucketShuffle_cases in Hbucket
    as [[-> Hother] | (left_ & rightCols & _ & _ & _ & _ & _ & -> & Hother)];
    rewrite Hother.
  - rewrite <- (app_nil_r (props ++ middle)), <- app_assoc in Hrun.
    apply visitJoinRequirements_sublist in Hrun as (l' & Hrun' & Hsub & Hlen).
    rewrite app_nil_r in Hrun'. exists l'.
    split; [exact Hrun' | split; [exact Hsub | lia]].
  - rewrite <- app_assoc in Hrun.
    apply visitJoinRequirements_sublist in Hrun as (l' & Hrun' & Hsub & Hlen).
    exists l'. split; [exact Hrun' | split; [exact Hsub | lia]].
Qed.

Lemma visitPhysicalHashJoin_colocate_switch `{U : JoinPredicateUtils}
    (requirements : PhysicalPropertySet) (env : Environment)
    (node : PhysicalHashJoinOperator) (context : ExpressionContext)
    (props : list Alternative) (u : unit) (l : list Alternative) :
  visitPhysicalHashJoin requirements env node context props = Ok (u, l) ->
  exists l',
    visitPhysicalHashJoin requirements (withColocateDisabled env) node context props
    = Ok (tt, l')
    /\ sublist l' l /\ (length l <= S (length l'))%nat.
Proof.
  unfold visitPhysicalHashJoin.
  change (tryColocate (withColocateDisabled env))
    with (fun _ _ : HashDistributionDesc => (mret tt : Deriver unit)).
  change (tryBucketShuffle (withColocateDisabled env)) with (tryBucketShuffle env).
  cbv zeta. cbv beta.
  assert (forall (m : Deriver unit) (s : list Alternative) (u' : unit) l0,
             m s = Ok (u', l0) ->
             exists l', m s = Ok (tt, l') /\ sublist l' l0 /\ (length l0 <= S (length l'))%nat)
    as Hsame.
  { intros m s [] l0 Hm. exists l0. split; [exact Hm |]. split; [reflexivity | lia]. }
  destruct (getChildOperator context 0) as [leftChild | e];
    [| rewrite bind_lift_Throw; discriminate].
  rewrite !bind_lift_Ok.
  destruct (getChildOperator context 1) as [rightChild | e];
    [| rewrite bind_lift_Throw; discriminate].
  rewrite !bind_lift_Ok.
  destruct (hasLimit leftChild || hasLimit rightChild); [apply Hsame |].
  rewrite !bind_add.
  destruct (getChildOutputColumns context 0) as [leftChildColumns | e];
    [| rewrite bind_lift_Throw; discriminate].
  rewrite !bind_lift_Ok.
  destruct (getChildOutputColumns context 1) as [rightChildColumns | e];
    [| rewrite bind_lift_Throw; discriminate].
  rewrite !bind_lift_Ok.
  match goal with
  | |- context [if ?c then visitJoinRequirements _ _ _ else _] => destruct c
  end; [apply Hsame |].
  match goal with
  | |- context [if ?c then clear else _] => destruct c
  end; rewrite ?bind_clear, ?bind_ret;
    (destruct (bool_decide (length _ = length _)); cbn [checkState];
     [| rewrite bind_lift_Throw; discriminate]);
    rewrite !bind_lift_Ok, !bind_add;
    (destruct (equalsIgnoreCase "SHUFFLE" (getJoinHint node)); [apply Hsame |]);
    (destruct (existsb _ _); [apply Hsame |]);
    (destruct (negb (equalsIgnoreCase "BUCKET" (getJoinHint node))); [| apply Hsame]);
    apply colocate_step_sublist.
Qed.

(** X17: turning the colocate switch off never adds an alternative and
    removes at most one: if the join rule returns a list with the switch
    on, it returns with the switch off a sublist of it that is shorter by
    at most one alternative. *)
Theorem colocate_switch_removes_at_most_one `{U : JoinPredicateUtils}
    (requirements : PhysicalPropertySet) (env : Environment)
    (node : PhysicalHashJoinOperator) (context : ExpressionContext)
    (l : list Alternative) :
  getOutputInputProps requirements env (PhysicalHashJoin node) context = Ok l ->
  exists l',
    getOutputInputProps requirements (withColocateDisabled env) (PhysicalHashJoin node)
                        context = Ok l'
    /\ sublist l' l /\ (length l <= S (length l'))%nat.
Proof.
  unfold getOutputInputProps, accept. intros Hrun.
  destruct (visitPhysicalHashJoin requirements env node context [])
    as [[u props] | e] eqn:Hjoin; [| discriminate Hrun].
  cbn in Hrun. injection Hrun as ->.
  apply visitPhysicalHashJoin_colocate_switch in Hjoin as (l' & Hrun' & Hsub & Hlen).
  exists l'. rewrite Hrun'. split; [reflexivity | split; assumption].
Qed.

Lemma colocate_switch_removes_at_most_one_witness :
  exists l',
    getOutputInputProps (H := SpecJoinPredicateUtils) Sample.anyRequirement
      (withColocateDisabled Sample.colocateEnv) (PhysicalHashJoin Sample.innerJoin)
      Sample.joinContext = Ok l'
    /\ sublist l' MoreSamples.colocateJoinResult
    /\ (length MoreSamples.colocateJoinResult <= S (length l'))%nat.
Proof.
  apply (colocate_switch_removes_at_most_one (U := SpecJoinPredicateUtils)
           Sample.anyRequirement Sample.colocateEnv Sample.innerJoin Sample.joinContext).
  vm_compute. reflexivity.
Defined.

(** ** What a join promises *)

Lemma visitJoinRequirements_output `{U : JoinPredicateUtils}
    (requirements : PhysicalPropertySet) (required : HashDistributionDesc) node context :
  getRequiredLocalDesc requirements = Some required ->
  ensures (Forall (fun alt => outputProperty alt = distributeRequirements requirements))
          (visitJoinRequirements requirements node context).
Proof.
  intros Hreq. unfold visitJoinRequirements. rewrite Hreq. cbv zeta.
  apply ensures_bind; intros leftChildColumns.
  apply ensures_bind; intros rightChildColumns.
  destruct (bool_decide _).
  - apply ensures_clear. intros b props' [= _ <-]. constructor.
  - destruct (contains leftChildColumns _); apply ensures_filter; intros a b Hb.
    + apply keepForLeft_cases in Hb as (left_ & right_ & _ & _ & [[_ ->] | [_ ->]]);
        reflexivity.
    + apply keepForRight_cases in Hb as (right_ & _ & _ & ->). reflexivity.
Qed.

(** X18: a hash join promises no distribution or order of its own.  Without
    a local requirement the output property of every returned alternative
    is the empty property (any distribution, no sort); under a local
    requirement it is the required distribution, without sort. *)
Theorem join_output_property `{U : JoinPredicateUtils}
    (requirements : PhysicalPropertySet) (env : Environment)
    (node : PhysicalHashJoinOperator) (context : ExpressionContext)
    (l : list Alternative) :
  getOutputInputProps requirements env (PhysicalHashJoin node) context = Ok l ->
  Forall (fun alt =>
            outputProperty alt
            = match getRequiredLocalDesc requirements with
              | None => PhysicalPropertySet_EMPTY
              | Some _ => distributeRequirements requirements
              end) l.
Proof.
  intros Hrun. destruct (getRequiredLocalDesc requirements) as [required |] eqn:Hreq.
  - eapply (getOutputInputProps_ensures
              (Forall (fun alt => outputProperty alt = distributeRequirements requirements)));
      [| exact Hrun].
    cbn [accept]. apply visitPhysicalHashJoin_ends_filtering.
    eapply visitJoinRequirements_output. exact Hreq.
  - eapply (getOutputInputProps_establishes
              (fun alt => outputProperty alt = PhysicalPropertySet_EMPTY));
      [| exact Hrun].
    cbn [accept]. unfold visitPhysicalHashJoin, tryColocate, tryBucketShuffle.
    establish ltac:(exact eq_refl); apply visitJoinRequirements_idle; exact Hreq.
Qed.

Lemma join_output_property_witness :
  Forall (fun alt => outputProperty alt = Sample.localRequirement [1; 2])
    [(Sample.localRequirement [1; 2],
      [Sample.localRequirement [1; 2];
       PhysicalPropertySet_ofDistribution ReplicatedDistributionSpec]);
     (Sample.localRequirement [1; 2],
      [Sample.localRequirement [1];
       PhysicalPropertySet_ofDistribution
         (HashDistributionSpec (mkHashDistributionDesc [4] SHUFFLE_JOIN))])].
Proof.
  apply (join_output_property (U := SpecJoinPredicateUtils) (Sample.localRequirement [1; 2])
           Sample.env Sample.innerJoin Sample.joinContext).
  vm_compute. reflexivity.
Defined.

(** ** Decimal arithmetic and casts *)

Section DecimalProofs.
Import DecimalV3.
Variable bits : Z.
Hypothesis Hbits : 8 <= bits.

Lemma pow_bits : 2 ^ bits = 2 * 2 ^ (bits - 1).
Proof. rewrite <- Z.pow_succ_r by lia. f_equal. lia. Qed.

Lemma pow_half_large : 128 <= 2 ^ (bits - 1).
Proof. change 128 with (2 ^ 7). apply Z.pow_le_mono_r; lia. Qed.

Lemma wrap_inRange x : inRange bits x -> wrap bits x = x.
Proof.
  unfold inRange, min_value, max_value, wrap, wrapTo. intros Hx.
  rewrite Z.mod_small; [lia |]. rewrite pow_bits. lia.
Qed.

Lemma sign_shift a :
  inRange bits a -> Z.shiftr a (bits - 1) = if bool_decide (a < 0) then -1 else 0.
Proof.
  unfold inRange, min_value, max_value. intros Ha.
  rewrite Z.shiftr_div_pow2 by lia.
  pose proof pow_half_large as Hp.
  case_bool_decide.
  - symmetry. apply (Z.div_unique a _ (-1) (a + 2 ^ (bits - 1))); lia.
  - apply Z.div_small. lia.
Qed.

Lemma carry_sign a b :
  inRange bits a -> inRange bits b ->
  Z.lor (Z.shiftr (Z.lxor a b) (bits - 1)) 1
  = if xorb (bool_decide (a < 0)) (bool_decide (b < 0)) then -1 else 1.
Proof.
  intros Ha Hb. rewrite Z.shiftr_lxor, !sign_shift by assumption.
  destruct (bool_decide (a < 0)), (bool_decide (b < 0)); reflexivity.
Qed.

Lemma half_up (x : Z) : 0 <= x -> Z.shiftr x 1 + Z.land x 1 = (x + 1) / 2.
Proof.
  intros Hx. rewrite Z.shiftr_div_pow2 by lia.
  change 1 with (Z.ones 1) at 2. rewrite Z.land_ones by lia.
  change (2 ^ 1) with 2. Z.to_euclidean_division_equations. lia.
Qed.

Lemma quot_rem_facts (a b : Z) :
  b <> 0 ->
  a = b * Z.quot a b + Z.rem a b
  /\ Z.abs (Z.rem a b) < Z.abs b
  /\ 0 <= Z.rem a b * a
  /\ Z.abs (Z.quot a b) <= Z.abs a.
Proof.
  intros Hb. split; [apply Z.quot_rem' |]. split; [apply Z.rem_bound_abs; exact Hb |].
  split; [apply Z.rem_sign_mul; exact Hb |].
  rewrite <- Z.quot_abs by exact Hb. rewrite Z.quot_div_nonneg by lia.
  apply Z.div_le_upper_bound; nia.
Qed.

Lemma quot_rem_signs (a b : Z) :
  b <> 0 ->
  (0 <= a -> 0 <= Z.rem a b <= a) /\ (a <= 0 -> a <= Z.rem a b <= 0).
Proof.
  intros Hb. destruct (quot_rem_facts a b Hb) as (Hdiv & Hrem & Hsign & Hquot).
  split; intros Ha.
  - pose proof (Z.rem_nonneg a b Hb Ha). split; [lia |].
    destruct (Z.eq_dec a 0) as [-> | Hne]; [rewrite Z.rem_0_l in * by exact Hb; lia |].
    destruct (Z_lt_le_dec 0 b); [apply Z.rem_le; lia |].
    rewrite <- Z.rem_opp_r by exact Hb. apply Z.rem_le; lia.
  - pose proof (Z.rem_nonpos a b Hb Ha). split; [| lia].
    assert (0 <= - a) as Hneg by lia.
    destruct (Z_lt_le_dec 0 b).
    + pose proof (Z.rem_le (- a) b Hneg ltac:(lia)) as Hle.
      rewrite Z.rem_opp_l in Hle by exact Hb. lia.
    + pose proof (Z.rem_le (- a) (- b) Hneg ltac:(lia)) as Hle.
      rewrite Z.rem_opp_opp in Hle by exact Hb. lia.
Qed.

(** X19: [div_round] rounds the exact quotient to the nearest integer and a
    tie away from zero.  For operands of the type, a divisor that is neither
    zero nor the least value, and not the one quotient that leaves the type,
    the result stays in the type, lies within half a divisor of the exact
    quotient, and where it lies exactly half a divisor away it is the one of
    greater magnitude. *)
Theorem div_round_nearest (a b : Z) :
  inRange bits a -> inRange bits b -> b <> 0 -> b <> min_value bits ->
  ~ (a = min_value bits /\ b = -1) ->
  let c := (div_round bits a b).2 in
  inRange bits c
  /\ 2 * Z.abs (a - c * b) <= Z.abs b
  /\ (2 * Z.abs (a - c * b) = Z.abs b -> Z.abs a < Z.abs (c * b)).
Proof.
  intros Ha Hb Hb0 Hbmin Hover. cbv zeta. unfold div_round. cbn [snd].
  rewrite carry_sign by assumption.
  pose proof pow_half_large as Hp.
  destruct (quot_rem_facts a b Hb0) as (Hdiv & Hrem & _ & Hquot).
  destruct (quot_rem_signs a b Hb0) as (Hpos & Hneg).
  unfold inRange, min_value, max_value in *.
  set (q := Z.quot a b) in *. set (r := Z.rem a b) in *. set (P := 2 ^ (bits - 1)) in *.
  assert (Hq : - P <= q <= P - 1).
  { split; [lia |]. destruct (Z.eq_dec q P) as [HqP | ?]; [| lia].
    exfalso. apply Hover. assert (a = - P) as HaP by lia. split; [exact HaP |].
    rewrite HqP in Hdiv.
    assert (b <= -2 \/ b = -1 \/ 1 <= b) as [? | [? | ?]] by lia; [nia | assumption | nia]. }
  assert (Hr : - P <= r <= P - 1) by lia.
  rewrite (wrap_inRange q), (wrap_inRange r) by exact Hq || exact Hr.
  unfold abs.
  rewrite (wrap_inRange (Z.abs b)) by (unfold inRange, min_value, max_value; lia).
  rewrite (wrap_inRange (Z.abs r)) by (unfold inRange, min_value, max_value; lia).
  rewrite half_up by lia.
  assert (Hhalf : 2 * ((Z.abs b + 1) / 2) = Z.abs b \/ 2 * ((Z.abs b + 1) / 2) = Z.abs b + 1)
    by (Z.to_euclidean_division_equations; lia).
  set (h := (Z.abs b + 1) / 2) in *.
  rewrite (wrap_inRange h) by (unfold inRange, min_value, max_value; lia).
  set (m := b * q) in *.
  destruct (bool_decide (h <= Z.abs r)) eqn:Hneed; cbn [ofBool];
    [apply bool_decide_eq_true_1 in Hneed | apply bool_decide_eq_false_1 in Hneed].
  - change (Z.opp 1) with (Z.neg 1).
    rewrite (wrap_inRange (Z.neg 1)) by (unfold inRange, min_value, max_value; lia).
    rewrite Z.land_m1_r.
    assert (Hb2 : 2 <= Z.abs b) by lia.
    assert (Hq2 : 2 * Z.abs q <= Z.abs a) by (subst m; nia).
    set (s := if xorb (bool_decide (a < 0)) (bool_decide (b < 0)) then -1 else 1).
    assert (Hs : s = 1 \/ s = -1) by (subst s; destruct (xorb _ _); auto).
    assert (Hc : - P <= q + s <= P - 1) by lia.
    rewrite (wrap_inRange _ Hc). split; [exact Hc |].
    replace (a - (q + s) * b) with (r - s * b) by (subst m; lia).
    replace ((q + s) * b) with (m + s * b) by (subst m; lia).
    subst s. do 2 case_bool_decide; cbn [xorb]; lia.
  - change (Z.opp 0) with 0.
    rewrite (wrap_inRange 0) by (unfold inRange, min_value, max_value; lia).
    rewrite Z.land_0_r, Z.add_0_r, (wrap_inRange q Hq). split; [exact Hq |].
    replace (a - q * b) with r by (subst m; lia). lia.
Qed.

Lemma wrapTo_inRange (toBits x : Z) :
  bits <= toBits -> inRange bits x -> wrapTo toBits x = x.
Proof.
  intros Hto Hx. unfold inRange, min_value, max_value in Hx. unfold wrapTo.
  assert (2 ^ (bits - 1) <= 2 ^ (toBits - 1)) by (apply Z.pow_le_mono_r; lia).
  assert (2 ^ toBits = 2 * 2 ^ (toBits - 1))
    by (rewrite <- Z.pow_succ_r by lia; f_equal; lia).
  rewrite Z.mod_small; lia.
Qed.

(** X20: [scale_down_round] under [ROUND_HALF_UP] and under
    [ROUND_HALF_EVEN] alike rounds to the nearest multiple of the scale
    factor and a tie away from zero, when the scale factor is one or even and
    the target type is no narrower than the source type. *)
Theorem scale_down_round_half (toBits : Z) (rule : DecimalRoundRule) (value scale_factor : Z) :
  bits <= toBits ->
  rule = ROUND_HALF_UP \/ rule = ROUND_HALF_EVEN ->
  inRange bits value -> inRange bits scale_factor ->
  0 < scale_factor -> scale_factor = 1 \/ scale_factor mod 2 = 0 ->
  let c := (scale_down_round bits toBits rule value scale_factor).2 in
  inRange bits c
  /\ 2 * Z.abs (value - c * scale_factor) <= scale_factor
  /\ (2 * Z.abs (value - c * scale_factor) = scale_factor ->
      Z.abs value < Z.abs (c * scale_factor)).
Proof.
  intros Hto Hrule Hv Hs Hpos Hparity. cbv zeta. unfold scale_down_round.
  pose proof pow_half_large as Hp.
  case_bool_decide as Hone.
  { subst scale_factor. unfold to_decimal_trivial. cbn [snd].
    rewrite (wrapTo_inRange _ _ Hto Hv). split; [exact Hv |]. lia. }
  destruct Hparity as [? | Heven]; [contradiction |].
  cbn [snd].
  assert (Hs0 : scale_factor <> 0) by lia.
  destruct (quot_rem_facts value scale_factor Hs0) as (Hdiv & Hrem & _ & Hquot).
  destruct (quot_rem_signs value scale_factor Hs0) as (Hposv & Hnegv).
  assert (Hcarry : Z.lor (Z.shiftr value (bits - 1)) 1
                   = if bool_decide (value < 0) then -1 else 1).
  { rewrite sign_shift by exact Hv. case_bool_decide; reflexivity. }
  rewrite Hcarry.
  assert (Hhalf : 2 * Z.shiftr scale_factor 1 = scale_factor).
  { rewrite Z.shiftr_div_pow2 by lia. change (2 ^ 1) with 2.
    Z.to_euclidean_division_equations. lia. }
  unfold inRange, min_value, max_value in *.
  set (q := Z.quot value scale_factor) in *. set (r := Z.rem value scale_factor) in *.
  set (P := 2 ^ (bits - 1)) in *. set (h := Z.shiftr scale_factor 1) in *.
  assert (Hq2 : 2 * Z.abs q <= Z.abs value) by nia.
  assert (Hq : - P <= q <= P - 1) by lia.
  assert (Hr : - P <= r <= P - 1) by lia.
  rewrite (wrap_inRange q), (wrap_inRange r) by exact Hq || exact Hr.
  set (m := scale_factor * q) in *.
  assert (Hround : (round_quotient bits rule (if bool_decide (value < 0) then -1 else 1)
                                   q scale_factor r).2
                   = if bool_decide (h <= Z.abs r)
                     then q + (if bool_decide (value < 0) then -1 else 1) else q).
  { unfold round_quotient, abs, add.
    rewrite (wrap_inRange (Z.abs r)) by (unfold inRange, min_value, max_value; lia).
    fold h.
    destruct Hrule as [-> | ->]; destruct (bool_decide (h <= Z.abs r));
      cbn [snd]; try reflexivity;
      apply wrap_inRange; unfold inRange, min_value, max_value; fold P;
      case_bool_decide; lia. }
  rewrite Hround.
  assert (Hc : - P <= (if bool_decide (h <= Z.abs r)
                       then q + (if bool_decide (value < 0) then -1 else 1) else q)
               <= P - 1)
    by (do 2 case_bool_decide; lia).
  rewrite (wrapTo_inRange _ _ Hto) by exact Hc.
  split; [exact Hc |].
  destruct (bool_decide (h <= Z.abs r)) eqn:Hneed;
    [apply bool_decide_eq_true_1 in Hneed | apply bool_decide_eq_false_1 in Hneed].
  - set (s := if bool_decide (value < 0) then -1 else 1) in *.
    replace (value - (q + s) * scale_factor) with (r - s * scale_factor)
      by (subst m; lia).
    replace ((q + s) * scale_factor) with (m + s * scale_factor) by (subst m; lia).
    subst s. case_bool_decide; lia.
  - replace (value - q * scale_factor) with r by (subst m; lia). lia.
Qed.


(** X21: [scale_down_round] under the directed rules, for a scale factor
    above one.  [ROUND_FLOOR] rounds up whenever the value reaches the scale
    factor, [ROUND_CEILING] rounds down whenever the value reaches minus
    the scale factor; everywhere else, and always under [ROUND_TRUNCATE],
    the result is the quotient truncated towards zero. *)
Theorem scale_down_round_directed (toBits : Z) (value scale_factor : Z) :
  bits <= toBits ->
  inRange bits value -> inRange bits scale_factor -> 1 < scale_factor ->
  let result rule := (scale_down_round bits toBits rule value scale_factor).2 in
  (if bool_decide (scale_factor <= value)
   then (result ROUND_FLOOR - 1) * scale_factor < value <= result ROUND_FLOOR * scale_factor
   else result ROUND_FLOOR = Z.quot value scale_factor)
  /\ (if bool_decide (value <= - scale_factor)
      then result ROUND_CEILING * scale_factor <= value
           < (result ROUND_CEILING + 1) * scale_factor
      else result ROUND_CEILING = Z.quot value scale_factor)
  /\ result ROUND_TRUNCATE = Z.quot value scale_factor.
Proof.
  intros Hto Hv Hs Hpos. cbv zeta. unfold scale_down_round.
  pose proof pow_half_large as Hp.
  rewrite !(bool_decide_eq_false_2 (scale_factor = 1)) by lia. cbn [snd].
  assert (Hs0 : scale_factor <> 0) by lia.
  destruct (quot_rem_facts value scale_factor Hs0) as (Hdiv & Hrem & _ & Hquot).
  destruct (quot_rem_signs value scale_factor Hs0) as (Hposv & Hnegv).
  rewrite sign_shift by exact Hv.
  unfold inRange, min_value, max_value in *.
  set (q := Z.quot value scale_factor) in *. set (r := Z.rem value scale_factor) in *.
  set (P := 2 ^ (bits - 1)) in *.
  assert (Hq2 : 2 * Z.abs q <= Z.abs value) by nia.
  assert (Hq : - P <= q <= P - 1) by lia.
  assert (Hr : - P <= r <= P - 1) by lia.
  rewrite (wrap_inRange q), (wrap_inRange r) by exact Hq || exact Hr.
  set (m := scale_factor * q) in *.
  assert (Hqpos : 0 < q <-> scale_factor <= value) by (subst m; nia).
  assert (Hqneg : q < 0 <-> value <= - scale_factor) by (subst m; nia).
  unfold round_quotient, add.
  split; [| split].
  - case_bool_decide as Hge.
    + rewrite (bool_decide_eq_true_2 (0 < q)) by (apply Hqpos; exact Hge).
      rewrite andb_true_r. rewrite (bool_decide_eq_false_2 (value < 0)) by lia.
      change (Z.lor 0 1) with 1.
      case_bool_decide as Hrpos; cbn [snd].
      * rewrite (wrap_inRange (q + 1)) by (unfold inRange, min_value, max_value; lia).
        rewrite (wrapTo_inRange _ _ Hto) by (unfold inRange, min_value, max_value; lia).
        subst m. lia.
      * rewrite (wrapTo_inRange _ _ Hto) by exact Hq. subst m. lia.
    + rewrite (bool_decide_eq_false_2 (0 < q)) by (rewrite Hqpos; exact Hge).
      rewrite andb_false_r. cbn [snd]. apply (wrapTo_inRange _ _ Hto). exact Hq.
  - case_bool_decide as Hle.
    + rewrite (bool_decide_eq_true_2 (q < 0)) by (apply Hqneg; exact Hle).
      rewrite andb_true_r. rewrite (bool_decide_eq_true_2 (value < 0)) by lia.
      change (Z.lor (-1) 1) with (-1).
      case_bool_decide as Hrneg; cbn [snd].
      * rewrite (wrap_inRange (q + -1)) by (unfold inRange, min_value, max_value; lia).
        rewrite (wrapTo_inRange _ _ Hto) by (unfold inRange, min_value, max_value; lia).
        subst m. lia.
      * rewrite (wrapTo_inRange _ _ Hto) by exact Hq. subst m. lia.
    + rewrite (bool_decide_eq_false_2 (q < 0)) by (rewrite Hqneg; exact Hle).
      rewrite andb_false_r. cbn [snd]. apply (wrapTo_inRange _ _ Hto). exact Hq.
  - cbn [snd]. apply (wrapTo_inRange _ _ Hto). exact Hq.
Qed.

Section ToString.
Variable get_scale_factor : Z -> Z.
Variable format_unsigned : Z -> string.

Lemma unsigned_small (x : Z) : 0 <= x < 2 ^ bits -> unsigned bits x = x.
Proof. intros Hx. unfold unsigned. apply Z.mod_small. exact Hx. Qed.

Lemma unsigned_abs (value : Z) :
  inRange bits value ->
  (if bool_decide (value < 0) then unsigned bits (wrap bits (- value))
   else unsigned bits value) = Z.abs value.
Proof.
  intros Hv. pose proof pow_bits as Hp. pose proof pow_half_large as Hh.
  unfold inRange, min_value, max_value in Hv.
  case_bool_decide as Hneg.
  - unfold unsigned, wrap, wrapTo.
    rewrite Zminus_mod_idemp_l.
    replace (- value + 2 ^ (bits - 1) - 2 ^ (bits - 1)) with (- value) by lia.
    rewrite Z.mod_small; lia.
  - rewrite unsigned_small; lia.
Qed.

Lemma fraction_digits_spec (fuel : nat) (low high frac : Z) :
  high - low <= Z.of_nat fuel ->
  0 <= low <= high ->
  (forall s, 0 <= s <= high -> unsigned bits (get_scale_factor s) = 10 ^ s) ->
  (low = 0 \/ 10 ^ (low - 1) <= frac) ->
  frac < 10 ^ high ->
  let d := fraction_digits bits get_scale_factor fuel low high frac in
  low <= d <= high /\ (d = 0 \/ 10 ^ (d - 1) <= frac) /\ frac < 10 ^ d.
Proof.
  revert low high. induction fuel as [| fuel IH]; intros low high Hfuel Hlh Hsf Hlow Hhigh.
  - cbn. assert (low = high) as -> by lia. split; [lia |]. split; assumption.
  - cbn [fraction_digits]. case_bool_decide as Hlt.
    + assert (Hmid : low <= Z.shiftr (high + low) 1 < high).
      { rewrite Z.shiftr_div_pow2 by lia. change (2 ^ 1) with 2.
        Z.to_euclidean_division_equations. lia. }
      set (mid := Z.shiftr (high + low) 1) in *.
      rewrite Hsf by lia.
      case_bool_decide as Hcmp.
      * assert (Hlow' : mid + 1 = 0 \/ 10 ^ (mid + 1 - 1) <= frac).
        { right. replace (mid + 1 - 1) with mid by lia. exact Hcmp. }
        destruct (IH (mid + 1) high ltac:(lia) ltac:(lia) Hsf Hlow' Hhigh)
          as (Hd & Hdl & Hdh).
        split; [lia |]. split; assumption.
      * assert (Hsf' : forall s, 0 <= s <= mid ->
                                 unsigned bits (get_scale_factor s) = 10 ^ s).
        { intros s Hs. apply Hsf. lia. }
        destruct (IH low mid ltac:(lia) ltac:(lia) Hsf' Hlow ltac:(lia))
          as (Hd & Hdl & Hdh).
        split; [lia |]. split; assumption.
    + assert (low = high) as -> by lia. split; [lia |]. split; assumption.
Qed.

(** X22: the text of a decimal.  With powers of ten as scale factors that
    fit the type, [to_string] prints the sign, the integer part of the
    magnitude and, when the fraction part is not zero, a point, zeros and the
    fraction part; the number of zeros is the scale less the number of
    decimal digits of the fraction part, which is what the binary search
    finds.  The least value of the type is printed with its true
    magnitude. *)
Theorem to_string_fraction_digits (value precision scale : Z) :
  inRange bits value ->
  0 <= scale ->
  10 ^ scale <= max_value bits ->
  (forall s, 0 <= s <= scale -> get_scale_factor s = 10 ^ s) ->
  let int_part := Z.abs value / 10 ^ scale in
  let frac_part := Z.abs value mod 10 ^ scale in
  exists d : Z,
    0 <= d <= scale
    /\ (d = 0 <-> frac_part = 0)
    /\ (d <> 0 -> 10 ^ (d - 1) <= frac_part < 10 ^ d)
    /\ to_string bits get_scale_factor format_unsigned value precision scale
       = ((if bool_decide (value < 0) then "-" else EmptyString)
          ++ format_unsigned int_part
          ++ (if bool_decide (d <> 0)
              then "." ++ zeros (Z.to_nat (scale - d)) ++ format_unsigned frac_part
              else EmptyString))%string.
Proof.
  intros Hv Hscale Hfit Hsf. cbv zeta.
  pose proof pow_bits as Hp. pose proof pow_half_large as Hh.
  assert (Hpos : 0 < 10 ^ scale) by (apply Z.pow_pos_nonneg; lia).
  assert (Hu : forall s, 0 <= s <= scale -> unsigned bits (get_scale_factor s) = 10 ^ s).
  { intros s Hs. rewrite Hsf by exact Hs. apply unsigned_small.
    assert (0 < 10 ^ s) by (apply Z.pow_pos_nonneg; lia).
    assert (10 ^ s <= 10 ^ scale) by (apply Z.pow_le_mono_r; lia).
    unfold max_value in Hfit. lia. }
  unfold to_string. rewrite (unsigned_abs value Hv), (Hu scale) by lia.
  set (frac := Z.abs value mod 10 ^ scale).
  assert (Hfrac : 0 <= frac < 10 ^ scale) by (apply Z.mod_pos_bound; exact Hpos).
  destruct (fraction_digits_spec (S (Z.to_nat scale)) 0 scale frac
              ltac:(lia) ltac:(lia) Hu (or_introl eq_refl) ltac:(lia))
    as (Hd & Hdl & Hdh).
  set (d := fraction_digits bits get_scale_factor (S (Z.to_nat scale)) 0 scale frac) in *.
  exists d. split; [exact Hd |]. split; [| split; [| reflexivity]].
  - split.
    + intros Hz. rewrite Hz in Hdh. change (10 ^ 0) with 1 in Hdh. lia.
    + intros Hz. destruct Hdl as [Hdl | Hdl]; [exact Hdl |].
      destruct (decide (d = 0)) as [Hd0 | Hd0]; [exact Hd0 |].
      assert (0 < 10 ^ (d - 1)) by (apply Z.pow_pos_nonneg; lia). lia.
  - intros Hnz. destruct Hdl as [Hdl | Hdl]; [contradiction |]. lia.
Qed.

End ToString.
End DecimalProofs.

Lemma div_round_nearest_witness :
  2 * Z.abs (-7 - (DecimalV3.div_round 32 (-7) 2).2 * 2) <= Z.abs 2.
Proof.
  apply (div_round_nearest 32 ltac:(lia) (-7) 2);
    first [ unfold DecimalV3.inRange; vm_compute; split; discriminate
          | vm_compute; discriminate
          | intros [Hmin _]; vm_compute in Hmin; discriminate ].
Defined.

Lemma scale_down_round_half_witness :
  2 * Z.abs (25 - (DecimalV3.scale_down_round 32 64 DecimalV3.ROUND_HALF_EVEN 25 10).2 * 10)
  <= 10.
Proof.
  apply (scale_down_round_half 32 ltac:(lia) 64 DecimalV3.ROUND_HALF_EVEN 25 10);
    first [ lia | right; reflexivity
          | unfold DecimalV3.inRange; vm_compute; split; discriminate ].
Defined.

Lemma scale_down_round_directed_witness :
  (DecimalV3.scale_down_round 32 32 DecimalV3.ROUND_TRUNCATE (-25) 10).2 = Z.quot (-25) 10.
Proof.
  apply (scale_down_round_directed 32 ltac:(lia) 32 (-25) 10);
    first [ lia | unfold DecimalV3.inRange; vm_compute; split; discriminate ].
Defined.

Lemma to_string_fraction_digits_witness :
  exists d : Z,
    0 <= d <= 3
    /\ (d = 0 <-> Z.abs (-1005) mod 10 ^ 3 = 0)
    /\ (d <> 0 -> 10 ^ (d - 1) <= Z.abs (-1005) mod 10 ^ 3 < 10 ^ d)
    /\ DecimalV3.to_string 32 DecimalV3.powerOfTen DecimalV3.formatDecimal (-1005) 9 3
       = ((if bool_decide (-1005 < 0) then "-" else EmptyString)
          ++ DecimalV3.formatDecimal (Z.abs (-1005) / 10 ^ 3)
          ++ (if bool_decide (d <> 0)
              then "." ++ DecimalV3.zeros (Z.to_nat (3 - d))
                       ++ DecimalV3.formatDecimal (Z.abs (-1005) mod 10 ^ 3)
              else EmptyString))%string.
Proof.
  apply (to_string_fraction_digits 32 ltac:(lia) DecimalV3.powerOfTen DecimalV3.formatDecimal
           (-1005) 9 3).
  - unfold DecimalV3.inRange. vm_compute. split; discriminate.
  - lia.
  - vm_compute. discriminate.
  - intros s _. reflexivity.
Defined.

(** ** The result buffer manager *)

Section ManagerProofs.
Import ResultBufferMgr.
Context {Block : Type} {ops : BufferControlBlock Block}.
Implicit Type mgr : Mgr Block.



Lemma find_control_block_cancel (query_id other : TUniqueId) mgr :
  find_control_block other (cancel query_id mgr).2
  = if bool_decide (other = query_id) then None else find_control_block other mgr.
Proof.
  unfold cancel, find_control_block.
  destruct (_buffer_map mgr !! query_id) as [cb |] eqn:Hfind; cbn.
  - case_bool_decide as Heq.
    + subst other. apply lookup_delete_eq.
    + apply lookup_delete_ne. congruence.
  - case_bool_decide as Heq; [subst other; exact Hfind | reflexivity].
Qed.

Lemma timeout_map_cancel (query_id : TUniqueId) mgr :
  _timeout_map (cancel query_id mgr).2 = _timeout_map mgr.
Proof. unfold cancel. destruct (_buffer_map mgr !! query_id); reflexivity. Qed.

Lemma find_control_block_cancel_all (ids : list TUniqueId) (other : TUniqueId) mgr :
  find_control_block other (cancel_all ids mgr)
  = if bool_decide (other ∈ ids) then None else find_control_block other mgr.
Proof.
  unfold cancel_all. revert mgr. induction ids as [| id ids IH]; intros mgr; cbn.
  - rewrite bool_decide_eq_false_2 by (apply not_elem_of_nil). reflexivity.
  - rewrite IH, find_control_block_cancel.
    destruct (decide (other ∈ ids)) as [Hin | Hin].
    + rewrite !bool_decide_eq_true_2; [reflexivity | | exact Hin].
      apply elem_of_cons. right. exact Hin.
    + rewrite (bool_decide_eq_false_2 (other ∈ ids)) by exact Hin.
      destruct (decide (other = id)) as [-> | Hne].
      * rewrite !bool_decide_eq_true_2; [reflexivity | | reflexivity].
        apply elem_of_cons. left. reflexivity.
      * rewrite !bool_decide_eq_false_2; [reflexivity | | exact Hne].
        intros [? | ?]%elem_of_cons; contradiction.
Qed.

Lemma timeout_map_cancel_all (ids : list TUniqueId) mgr :
  _timeout_map (cancel_all ids mgr) = _timeout_map mgr.
Proof.
  unfold cancel_all. revert mgr. induction ids as [| id ids IH]; intros mgr; cbn.
  - reflexivity.
  - rewrite IH. apply timeout_map_cancel.
Qed.

Lemma cancel_consistent (query_id : TUniqueId) mgr :
  consistent mgr -> consistent (cancel query_id mgr).2.
Proof.
  intros (Howned & Hdistinct & Hasc). unfold cancel.
  destruct (_buffer_map mgr !! query_id) as [cb |] eqn:Hfind; cbn;
    [| split; [| split]; assumption].
  unfold consistent, blocksOwned, blocksDistinct. cbn.
  split; [| split].
  - intros id cb' [_ Hid]%lookup_delete_Some. rewrite length_alter.
    exact (Howned id cb' Hid).
  - intros id1 id2 cb' [_ H1]%lookup_delete_Some [_ H2]%lookup_delete_Some.
    exact (Hdistinct id1 id2 cb' H1 H2).
  - exact Hasc.
Qed.

Lemma cancel_all_consistent (ids : list TUniqueId) mgr :
  consistent mgr -> consistent (cancel_all ids mgr).
Proof.
  unfold cancel_all. revert mgr. induction ids as [| id ids IH]; intros mgr Hc; cbn.
  - exact Hc.
  - apply IH, cancel_consistent, Hc.
Qed.

Lemma create_sender_consistent (query_id : TUniqueId) (buffer_size : Z) mgr :
  consistent mgr -> consistent (create_sender query_id buffer_size mgr).2.
Proof.
  intros (Howned & Hdistinct & Hasc). unfold create_sender, find_control_block.
  destruct (_buffer_map mgr !! query_id) as [cb |] eqn:Hfind; cbn;
    [split; [| split]; assumption |].
  unfold buffer_map_insert. rewrite Hfind.
  unfold consistent, blocksOwned, blocksDistinct. cbn.
  split; [| split].
  - intros id cb'. rewrite length_app. cbn.
    intros [[_ <-] | [_ Hid]]%lookup_insert_Some; [lia |].
    specialize (Howned id cb' Hid). lia.
  - intros id1 id2 cb'.
    intros [[<- <-] | [Hne1 H1]]%lookup_insert_Some
           [[<- Heq] | [Hne2 H2]]%lookup_insert_Some.
    + reflexivity.
    + specialize (Howned id2 _ H2). lia.
    + subst cb'. specialize (Howned id1 _ H1). lia.
    + exact (Hdistinct id1 id2 cb' H1 H2).
  - exact Hasc.
Qed.

Lemma ascendingKeys_cons (k : Z) (keys : list Z) :
  ascendingKeys (k :: keys) = true <-> Forall (fun k' => k < k') keys /\ ascendingKeys keys = true.
Proof.
  cbn. rewrite andb_true_iff, forallb_forall, List.Forall_forall.
  split; intros [Hall Hrest]; (split; [| exact Hrest]); intros k' Hin.
  - apply (bool_decide_eq_true_1 _), Hall, Hin.
  - apply bool_decide_eq_true_2, Hall, Hin.
Qed.

Lemma timeout_push_back_keys (t : Z) (query_id : TUniqueId) (m : TimeoutMap) :
  (timeout_push_back t query_id m).*1 = m.*1.
Proof.
  induction m as [| [t' ids] rest IH]; cbn; [reflexivity |].
  case_bool_decide; cbn; [reflexivity | f_equal; exact IH].
Qed.

Lemma timeout_insert_Forall (P : Z -> Prop) (t : Z) (ids : list TUniqueId) (m : TimeoutMap) :
  P t -> Forall P m.*1 -> Forall P (timeout_insert t ids m).*1.
Proof.
  intros Ht. induction m as [| [t' ids'] rest IH]; cbn; intros Hall.
  - constructor; [exact Ht | constructor].
  - repeat case_bool_decide; cbn.
    + constructor; assumption.
    + exact Hall.
    + inversion Hall; subst. constructor; [assumption | apply IH; assumption].
Qed.

Lemma timeout_insert_ascending (t : Z) (ids : list TUniqueId) (m : TimeoutMap) :
  ascending m = true -> ascending (timeout_insert t ids m) = true.
Proof.
  unfold ascending. induction m as [| [t' ids'] rest IH]; cbn [timeout_insert]; intros Hasc.
  - reflexivity.
  - pose proof Hasc as Hasc'. cbn [fmap list_fmap fst] in Hasc'.
    apply ascendingKeys_cons in Hasc' as [Hall Hrest].
    repeat case_bool_decide.
    + cbn [fmap list_fmap fst]. apply ascendingKeys_cons. split; [| exact Hasc].
      constructor; [assumption |]. eapply Forall_impl; [exact Hall |]. cbn. lia.
    + exact Hasc.
    + cbn [fmap list_fmap fst]. apply ascendingKeys_cons. split; [| apply IH, Hrest].
      apply timeout_insert_Forall; [lia | exact Hall].
Qed.

Lemma timeout_find_None (t : Z) (m : TimeoutMap) :
  Forall (fun k => t < k) m.*1 -> timeout_find t m = None.
Proof.
  induction m as [| [t' ids] rest IH]; cbn; intros Hall; [reflexivity |].
  inversion Hall; subst. rewrite bool_decide_eq_false_2 by lia. apply IH. assumption.
Qed.

Lemma timeout_find_Some_key (t : Z) (ids : list TUniqueId) (m : TimeoutMap) :
  timeout_find t m = Some ids -> t ∈ m.*1.
Proof.
  induction m as [| [t' ids'] rest IH]; cbn; [discriminate |].
  case_bool_decide as Heq.
  - intros _. subst. apply elem_of_cons. left. reflexivity.
  - intros Hfind. apply elem_of_cons. right. apply IH, Hfind.
Qed.

Lemma timeout_find_insert (t t' : Z) (ids : list TUniqueId) (m : TimeoutMap) :
  timeout_find t m = None ->
  timeout_find t' (timeout_insert t ids m)
  = if bool_decide (t' = t) then Some ids else timeout_find t' m.
Proof.
  induction m as [| [t0 ids0] rest IH]; cbn; intros Hnone.
  - repeat case_bool_decide; congruence.
  - case_bool_decide as Hkey; [discriminate |]. specialize (IH Hnone).
    repeat (case_bool_decide; cbn); subst; try congruence; try lia.
Qed.

Lemma timeout_find_push_back (t t' : Z) (query_id : TUniqueId) (m : TimeoutMap) :
  timeout_find t' (timeout_push_back t query_id m)
  = if bool_decide (t' = t) then (fun ids => ids ++ [query_id]) <$> timeout_find t m
    else timeout_find t' m.
Proof.
  induction m as [| [t0 ids0] rest IH]; cbn.
  - case_bool_decide; reflexivity.
  - repeat (case_bool_decide; cbn); subst; try congruence; try lia.
Qed.

Lemma cancel_at_time_consistent (cancel_time : Z) (query_id : TUniqueId) mgr :
  consistent mgr -> consistent (cancel_at_time cancel_time query_id mgr).2.
Proof.
  intros (Howned & Hdistinct & Hasc). unfold cancel_at_time, consistent. cbn.
  split; [exact Howned | split; [exact Hdistinct |]].
  unfold ascending. rewrite timeout_push_back_keys.
  case_bool_decide; [apply timeout_insert_ascending |]; exact Hasc.
Qed.

Lemma drop_upper_bound_ascending (k : Z) (m : TimeoutMap) :
  ascending m = true -> ascending (drop (upper_bound k m) m) = true.
Proof.
  unfold ascending. induction m as [| [t ids] rest IH]; cbn [upper_bound]; intros Hasc.
  - exact Hasc.
  - case_bool_decide; [exact Hasc |]. cbn [drop].
    cbn [fmap list_fmap fst] in Hasc. apply ascendingKeys_cons in Hasc as [_ Hrest].
    apply IH, Hrest.
Qed.

Lemma timeout_find_drop_upper_bound (k t : Z) (m : TimeoutMap) :
  ascending m = true ->
  timeout_find t (drop (upper_bound k m) m)
  = if bool_decide (t <= k) then None else timeout_find t m.
Proof.
  unfold ascending. induction m as [| [t0 ids0] rest IH]; cbn [upper_bound]; intros Hasc.
  - cbn. case_bool_decide; reflexivity.
  - pose proof Hasc as Hasc'. cbn [fmap list_fmap fst] in Hasc'.
    apply ascendingKeys_cons in Hasc' as [Hall Hrest].
    destruct (bool_decide (k < t0)) eqn:Hlt;
      [apply bool_decide_eq_true_1 in Hlt | apply bool_decide_eq_false_1 in Hlt].
    + cbn [drop]. case_bool_decide as Hle; [| reflexivity].
      apply timeout_find_None. cbn [fmap list_fmap fst].
      constructor; [lia |]. eapply Forall_impl; [exact Hall |]. cbn. lia.
    + cbn [drop]. rewrite IH by exact Hrest.
      case_bool_decide as Hle; [reflexivity |].
      cbn. rewrite bool_decide_eq_false_2 by lia. reflexivity.
Qed.

Lemma due_elem_of (k t : Z) (ids : list TUniqueId) (m : TimeoutMap) :
  ascending m = true ->
  ids ∈ (take (upper_bound k m) m).*2 <-> (exists t, t <= k /\ timeout_find t m = Some ids).
Proof.
  clear t.
  unfold ascending. induction m as [| [t0 ids0] rest IH]; cbn [upper_bound]; intros Hasc.
  - cbn. split; [intros Hin; by apply elem_of_nil in Hin | intros (t & _ & Hf); discriminate].
  - pose proof Hasc as Hasc'. cbn [fmap list_fmap fst] in Hasc'.
    apply ascendingKeys_cons in Hasc' as [Hall Hrest].
    destruct (bool_decide (k < t0)) eqn:Hlt;
      [apply bool_decide_eq_true_1 in Hlt | apply bool_decide_eq_false_1 in Hlt].
    + cbn. split; [intros Hin; by apply elem_of_nil in Hin |].
      intros (t & Hle & Hf). exfalso.
      apply (timeout_find_Some_key t ids ((t0, ids0) :: rest)) in Hf. cbn in Hf.
      apply elem_of_cons in Hf as [-> | Hin]; [lia |].
      rewrite Forall_forall in Hall. specialize (Hall t Hin). cbn in Hall. lia.
    + cbn [take fmap list_fmap snd]. rewrite elem_of_cons, (IH Hrest). split.
      * intros [-> | (t & Hle & Hf)].
        -- exists t0. split; [lia |]. cbn. rewrite bool_decide_eq_true_2 by reflexivity.
           reflexivity.
        -- exists t. split; [exact Hle |]. cbn.
           rewrite bool_decide_eq_false_2; [exact Hf |].
           intros ->. apply timeout_find_Some_key in Hf.
           rewrite Forall_forall in Hall. specialize (Hall t Hf). cbn in Hall. lia.
      * intros (t & Hle & Hf). cbn in Hf. case_bool_decide as Hkey.
        -- left. congruence.
        -- right. exists t. split; assumption.
Qed.

Lemma cancel_thread_pass_consistent (now_time : Z) mgr :
  consistent mgr -> consistent (cancel_thread_pass now_time mgr).
Proof.
  intros (Howned & Hdistinct & Hasc). unfold cancel_thread_pass.
  apply cancel_all_consistent. unfold consistent. cbn.
  split; [exact Howned | split; [exact Hdistinct |]].
  apply drop_upper_bound_ascending, Hasc.
Qed.

Lemma call_consistent (c : Call) mgr : consistent mgr -> consistent (call c mgr).
Proof.
  intros Hc. destruct c; cbn.
  - apply create_sender_consistent, Hc.
  - apply cancel_consistent, Hc.
  - apply cancel_at_time_consistent, Hc.
  - apply cancel_thread_pass_consistent, Hc.
Qed.

Lemma run_consistent (calls : list Call) : consistent (run (Block := Block) calls).
Proof.
  unfold run. induction calls as [| c calls IH] using rev_ind.
  - unfold consistent, blocksOwned, blocksDistinct, init. cbn.
    split; [| split]; [intros ? ? | intros ? ? ? | reflexivity];
      rewrite lookup_empty; discriminate.
  - rewrite foldl_app. cbn. apply call_consistent, IH.
Qed.


Lemma time_add_1 (now_time : Z) :
  time_min <= now_time < time_max -> time_add now_time 1 = now_time + 1.
Proof.
  unfold time_min, time_max, time_add. intros Hrange.
  rewrite Z.mod_small; lia.
Qed.

Lemma time_add_1_max : time_add time_max 1 = time_min.
Proof. reflexivity. Qed.

Lemma find_control_block_cancel_thread_pass (now_time : Z) (other : TUniqueId) mgr :
  ascending (_timeout_map mgr) = true ->
  find_control_block other (cancel_thread_pass now_time mgr) = None
  <-> find_control_block other mgr = None
      \/ exists t ids, t <= time_add now_time 1
                       /\ timeout_find t (_timeout_map mgr) = Some ids /\ other ∈ ids.
Proof.
  intros Hasc. unfold cancel_thread_pass.
  rewrite find_control_block_cancel_all.
  change (find_control_block other (mkMgr _ _ _)) with (find_control_block other mgr).
  case_bool_decide as Hin.
  - split; [intros _ | reflexivity]. right.
    apply list_elem_of_join in Hin as (ids & Hother & Hids).
    apply (due_elem_of _ 0 _ _ Hasc) in Hids as (t & Hle & Hfind).
    exists t, ids. repeat split; assumption.
  - split; [intros Hnone; left; exact Hnone |].
    intros [Hnone | (t & ids & Hle & Hfind & Hother)]; [exact Hnone |].
    exfalso. apply Hin, list_elem_of_join. exists ids. split; [exact Hother |].
    apply (due_elem_of _ 0 _ _ Hasc). exists t. split; assumption.
Qed.

Lemma timeout_find_cancel_at_time (cancel_time t : Z) (query_id : TUniqueId) mgr :
  timeout_find t (_timeout_map (cancel_at_time cancel_time query_id mgr).2)
  = if bool_decide (t = cancel_time)
    then Some (default [] (timeout_find cancel_time (_timeout_map mgr)) ++ [query_id])
    else timeout_find t (_timeout_map mgr).
Proof.
  unfold cancel_at_time. cbn. rewrite timeout_find_push_back.
  destruct (timeout_find cancel_time (_timeout_map mgr)) as [ids |] eqn:Hfind.
  - rewrite (bool_decide_eq_false_2 (Some ids = None)) by discriminate.
    rewrite Hfind. reflexivity.
  - rewrite (bool_decide_eq_true_2 (None = None)) by reflexivity.
    rewrite !timeout_find_insert by exact Hfind.
    rewrite (bool_decide_eq_true_2 (cancel_time = cancel_time)) by reflexivity.
    case_bool_decide; reflexivity.
Qed.

(** X23: [create_sender] always answers OK and hands out a block that
    [find_control_block] and [fetch_data] then return for the same query id;
    the entries of all other query ids are untouched, and a second
    [create_sender] for the same id (whatever its buffer size) returns the
    very same block and leaves the manager unchanged. *)
Theorem create_sender_round_trip (query_id : TUniqueId) (buffer_size again : Z) mgr :
  let '(status, sender, mgr') := create_sender query_id buffer_size mgr in
  status = OK
  /\ find_control_block query_id mgr' = Some sender
  /\ fetch_data query_id mgr' = inr sender
  /\ (forall other, other <> query_id ->
        find_control_block other mgr' = find_control_block other mgr)
  /\ create_sender query_id again mgr' = (OK, sender, mgr').
Proof.
  unfold create_sender, fetch_data, find_control_block.
  destruct (_buffer_map mgr !! query_id) as [sender |] eqn:Hfind; cbn.
  - rewrite Hfind. repeat split; reflexivity.
  - unfold buffer_map_insert. rewrite Hfind, lookup_insert_eq.
    repeat split; try reflexivity.
    intros other Hother. apply lookup_insert_ne. congruence.
Qed.

(** X24: [cancel] always answers OK; afterwards the query id has no control
    block and [fetch_data] fails with an internal error, the entries of other
    query ids are as before, the block that was registered (still shared with
    its sender) has been cancelled and no other block was touched; cancelling an
    unknown id changes nothing, so a second [cancel] is a no-op. *)
Theorem cancel_effect (query_id : TUniqueId) mgr :
  let mgr' := (cancel query_id mgr).2 in
  (cancel query_id mgr).1 = OK
  /\ find_control_block query_id mgr' = None
  /\ fetch_data query_id mgr' = inl (InternalError "no result for this query.")
  /\ (forall other, other <> query_id ->
        find_control_block other mgr' = find_control_block other mgr)
  /\ (forall cb, find_control_block query_id mgr = Some cb ->
        heap mgr' !! cb = BufferControlBlock_cancel <$> heap mgr !! cb
        /\ forall cb', cb' <> cb -> heap mgr' !! cb' = heap mgr !! cb')
  /\ (find_control_block query_id mgr = None -> mgr' = mgr)
  /\ cancel query_id mgr' = (OK, mgr').
Proof.
  cbv zeta.
  assert (Hgone : find_control_block query_id (cancel query_id mgr).2 = None).
  { rewrite find_control_block_cancel, bool_decide_eq_true_2; reflexivity. }
  split; [unfold cancel; destruct (_buffer_map mgr !! query_id); reflexivity |].
  split; [exact Hgone |].
  split; [unfold fetch_data; rewrite Hgone; reflexivity |].
  split.
  { intros other Hother. rewrite find_control_block_cancel, bool_decide_eq_false_2;
      [reflexivity | exact Hother]. }
  split.
  { unfold find_control_block, cancel. intros cb Hfind. rewrite Hfind. cbn. split.
    - apply list_lookup_alter_eq.
    - intros cb' Hne. apply list_lookup_alter_ne. congruence. }
  split.
  { unfold find_control_block, cancel. intros ->. reflexivity. }
  unfold find_control_block in Hgone. unfold cancel at 1. rewrite Hgone. reflexivity.
Qed.

(** X25: in every state reachable from the empty manager through
    [create_sender], [cancel], [cancel_at_time] and passes of the cancel
    thread, each registered query id points at an allocated block, no two
    query ids share a block, and the keys of the timeout map ascend. *)
Theorem reachable_state_consistent (calls : list Call) :
  let mgr := run (Block := Block) calls in
  (forall query_id cb,
      find_control_block query_id mgr = Some cb -> is_Some (heap mgr !! cb))
  /\ (forall id1 id2 cb,
        find_control_block id1 mgr = Some cb -> find_control_block id2 mgr = Some cb ->
        id1 = id2)
  /\ ascending (_timeout_map mgr) = true.
Proof.
  cbv zeta. destruct (run_consistent calls) as (Howned & Hdistinct & Hasc).
  split; [| split; [exact Hdistinct | exact Hasc]].
  intros query_id cb Hfind. apply lookup_lt_is_Some. exact (Howned query_id cb Hfind).
Qed.

(** X26: in a reachable state, cancelling one query never cancels the block of
    another: a different query id keeps its block, and that block is left
    exactly as it was. *)
Theorem cancel_spares_other_blocks (calls : list Call) (query_id other : TUniqueId)
    (cb : nat) :
  let mgr := run (Block := Block) calls in
  other <> query_id ->
  find_control_block other mgr = Some cb ->
  find_control_block other (cancel query_id mgr).2 = Some cb
  /\ heap (cancel query_id mgr).2 !! cb = heap mgr !! cb.
Proof.
  cbv zeta. intros Hne Hfind.
  destruct (run_consistent calls) as (_ & Hdistinct & _).
  split.
  - rewrite find_control_block_cancel, bool_decide_eq_false_2; assumption.
  - unfold cancel.
    destruct (_buffer_map (run calls) !! query_id) as [cb' |] eqn:Hmine; [| reflexivity].
    cbn. apply list_lookup_alter_ne. intros ->.
    apply Hne. exact (Hdistinct other query_id cb Hfind Hmine).
Qed.

(** X27: [cancel_at_time] answers OK, touches neither the buffer map nor the
    blocks, keeps the timeout keys ascending, appends the query id to the list
    stored under the given time (starting a new list when the time is new) and
    leaves the lists of all other times alone. *)
Theorem cancel_at_time_registers (cancel_time : Z) (query_id : TUniqueId) mgr :
  ascending (_timeout_map mgr) = true ->
  let mgr' := (cancel_at_time cancel_time query_id mgr).2 in
  (cancel_at_time cancel_time query_id mgr).1 = OK
  /\ heap mgr' = heap mgr /\ _buffer_map mgr' = _buffer_map mgr
  /\ ascending (_timeout_map mgr') = true
  /\ timeout_find cancel_time (_timeout_map mgr')
     = Some (default [] (timeout_find cancel_time (_timeout_map mgr)) ++ [query_id])
  /\ (forall t, t <> cancel_time ->
        timeout_find t (_timeout_map mgr') = timeout_find t (_timeout_map mgr)).
Proof.
  intros Hasc. cbv zeta.
  split; [reflexivity |]. split; [reflexivity |]. split; [reflexivity |].
  split; [| split].
  - unfold cancel_at_time, ascending. cbn. rewrite timeout_push_back_keys.
    case_bool_decide; [apply timeout_insert_ascending |]; exact Hasc.
  - rewrite timeout_find_cancel_at_time, bool_decide_eq_true_2; reflexivity.
  - intros t Hne. rewrite timeout_find_cancel_at_time, bool_decide_eq_false_2;
      [reflexivity | exact Hne].
Qed.

(** X28: one pass of the cancel thread at the clock reading [now_time].
    The pass is due for the times up to [now_time + 1], the sum being taken
    in [time_t]: it is one second after the reading as long as the reading
    is below the greatest time, and the least time at the greatest reading.
    The pass removes from the timeout map exactly the lists stored under
    the times due and keeps the later ones; afterwards a query id has no
    control block exactly when it had none before or was listed under a time
    due, and a query id that still has a block has the block it had
    before. *)
Theorem cancel_thread_pass_effect (now_time : Z) mgr :
  ascending (_timeout_map mgr) = true ->
  let mgr' := cancel_thread_pass now_time mgr in
  let due := time_add now_time 1 in
  (time_min <= now_time < time_max -> due = now_time + 1)
  /\ (now_time = time_max -> due = time_min)
  /\ (forall t, timeout_find t (_timeout_map mgr')
                = if bool_decide (t <= due) then None
                  else timeout_find t (_timeout_map mgr))
  /\ (forall query_id,
        find_control_block query_id mgr' = None
        <-> find_control_block query_id mgr = None
            \/ exists t ids, t <= due
                             /\ timeout_find t (_timeout_map mgr) = Some ids
                             /\ query_id ∈ ids)
  /\ (forall query_id cb,
        find_control_block query_id mgr' = Some cb ->
        find_control_block query_id mgr = Some cb).
Proof.
  intros Hasc. cbv zeta.
  split; [apply time_add_1 |]. split; [intros ->; apply time_add_1_max |].
  split; [| split].
  - intros t. unfold cancel_thread_pass. rewrite timeout_map_cancel_all. cbn.
    apply timeout_find_drop_upper_bound, Hasc.
  - intros query_id. apply find_control_block_cancel_thread_pass, Hasc.
  - intros query_id cb. unfold cancel_thread_pass.
    rewrite find_control_block_cancel_all. case_bool_decide; [discriminate |].
    intros Hfind. exact Hfind.
Qed.

(** X29: a cancellation registered with [cancel_at_time] and the next pass
    of the cancel thread.  At a clock reading below the greatest time, a
    cancellation for a time not later than one second after the reading is
    carried out by the pass: the query id has no control block afterwards,
    [fetch_data] fails for it, and the time is gone from the timeout map.
    At the greatest reading the sum wraps around to the least time, and a
    cancellation for any later time stays in the timeout map. *)
Theorem timed_cancel_fires (cancel_time now_time : Z) (query_id : TUniqueId) mgr :
  ascending (_timeout_map mgr) = true ->
  let mgr' := cancel_thread_pass now_time (cancel_at_time cancel_time query_id mgr).2 in
  (time_min <= now_time < time_max ->
   cancel_time <= now_time + 1 ->
   find_control_block query_id mgr' = None
   /\ fetch_data query_id mgr' = inl (InternalError "no result for this query.")
   /\ timeout_find cancel_time (_timeout_map mgr') = None)
  /\ (now_time = time_max ->
      time_min < cancel_time ->
      timeout_find cancel_time (_timeout_map mgr')
      = Some (default [] (timeout_find cancel_time (_timeout_map mgr)) ++ [query_id])).
Proof.
  intros Hasc. cbv zeta.
  assert (Hasc' : ascending (_timeout_map (cancel_at_time cancel_time query_id mgr).2) = true).
  { unfold cancel_at_time, ascending. cbn. rewrite timeout_push_back_keys.
    case_bool_decide; [apply timeout_insert_ascending |]; exact Hasc. }
  assert (Hmap : forall t,
             timeout_find t
               (_timeout_map
                  (cancel_thread_pass now_time (cancel_at_time cancel_time query_id mgr).2))
             = if bool_decide (t <= time_add now_time 1) then None
               else timeout_find t (_timeout_map (cancel_at_time cancel_time query_id mgr).2)).
  { intros t. unfold cancel_thread_pass. rewrite timeout_map_cancel_all. cbn [_timeout_map].
    apply timeout_find_drop_upper_bound, Hasc'. }
  split.
  - intros Hrange Hdue. rewrite <- (time_add_1 now_time Hrange) in Hdue.
    assert (Hgone : find_control_block query_id
                      (cancel_thread_pass now_time
                         (cancel_at_time cancel_time query_id mgr).2) = None).
    { apply (find_control_block_cancel_thread_pass _ _ _ Hasc'). right.
      eexists cancel_time, _. split; [exact Hdue |]. split.
      - rewrite timeout_find_cancel_at_time, bool_decide_eq_true_2; reflexivity.
      - apply elem_of_app. right. apply list_elem_of_singleton. reflexivity. }
    split; [exact Hgone |]. split; [unfold fetch_data; rewrite Hgone; reflexivity |].
    rewrite Hmap, bool_decide_eq_true_2; [reflexivity | exact Hdue].
  - intros -> Hlater. rewrite Hmap, time_add_1_max.
    rewrite bool_decide_eq_false_2 by lia.
    rewrite timeout_find_cancel_at_time, bool_decide_eq_true_2; reflexivity.
Qed.

End ManagerProofs.

Lemma cancel_spares_other_blocks_witness :
  ResultBufferMgr.find_control_block (0, 2)
    (ResultBufferMgr.cancel (ops := ResultBufferMgr.cancelFlag) (0, 1)
       ResultBufferMgr.twoQueries).2 = Some 1%nat
  /\ ResultBufferMgr.heap
       (ResultBufferMgr.cancel (ops := ResultBufferMgr.cancelFlag) (0, 1)
          ResultBufferMgr.twoQueries).2 !! 1%nat
     = ResultBufferMgr.heap ResultBufferMgr.twoQueries !! 1%nat.
Proof.
  apply (cancel_spares_other_blocks (ops := ResultBufferMgr.cancelFlag)
           [ResultBufferMgr.CreateSender (0, 1) 1024; ResultBufferMgr.CreateSender (0, 2) 1024;
            ResultBufferMgr.CancelAtTime 20 (0, 2); ResultBufferMgr.CancelAtTime 10 (0, 1)]
           (0, 1) (0, 2) 1%nat).
  - discriminate.
  - vm_compute. reflexivity.
Defined.

Lemma cancel_at_time_registers_witness :
  ResultBufferMgr.timeout_find 10
    (ResultBufferMgr._timeout_map
       (ResultBufferMgr.cancel_at_time 10 (0, 2) ResultBufferMgr.twoQueries).2)
  = Some [(0, 1); (0, 2)].
Proof.
  apply (cancel_at_time_registers 10 (0, 2) ResultBufferMgr.twoQueries).
  vm_compute. reflexivity.
Defined.

Lemma cancel_thread_pass_effect_witness :
  ResultBufferMgr.timeout_find 20
    (ResultBufferMgr._timeout_map
       (ResultBufferMgr.cancel_thread_pass (ops := ResultBufferMgr.cancelFlag) 9
          ResultBufferMgr.twoQueries))
  = Some [(0, 2)].
Proof.
  apply (cancel_thread_pass_effect (ops := ResultBufferMgr.cancelFlag) 9
           ResultBufferMgr.twoQueries).
  vm_compute. reflexivity.
Defined.

Lemma timed_cancel_fires_witness :
  ResultBufferMgr.find_control_block (0, 2)
    (ResultBufferMgr.cancel_thread_pass (ops := ResultBufferMgr.cancelFlag) 4
       (ResultBufferMgr.cancel_at_time 5 (0, 2) ResultBufferMgr.twoQueries).2) = None.
Proof.
  apply (timed_cancel_fires (ops := ResultBufferMgr.cancelFlag) 5 4 (0, 2)
           ResultBufferMgr.twoQueries).
  - vm_compute. reflexivity.
  - vm_compute. split; [discriminate | reflexivity].
  - lia.
Defined.
